(** * AdGuard rewrite sync: the reconciliation engine, embedded and verified

    The development follows the Python sources module by module:

    - [Models]    models.py          (the [RewriteRule] value type)
    - [AdGuard]   adguard_client.py  (gateway calls with retry, [sync_rules])
    - [Database]  database.py        (the persistent store with its backups)
    - [Provider]  a well-behaved rewrite provider, used as a transport
    - [App]       app.py             (one reconciliation cycle)
    - [Startup]   adguard_client.py  (construction and authentication)
    - [Backups]   database.py        (the names and contents the store handles)
    - [K8s]       k8s_client.py      (discovery of services and ingresses)
    - [Health]    health.py          (the cached health checker and its endpoint)

    Python dictionaries are finite maps ([gmap string _]), Python sets are
    finite sets ([gset string]).  Network and disk effects are threaded
    explicitly: every gateway function maps a world to a result, a new world
    and the list of requests and sleeps it performed; every store function
    maps a disk to an outcome (value or raised exception) and a new disk. *)

From Stdlib Require Import ZArith Floats.SpecFloat OrderedTypeEx.
From stdpp Require Import gmap strings list fin_maps sorting pretty.

(** ** models.py *)
Module Models.

Record RewriteRule := mkRule {
  domain : string;
  answer : string;
  enabled : bool
}.

#[global] Instance RewriteRule_eq_dec : EqDecision RewriteRule.
Proof. solve_decision. Defined.

(** A dictionary of rules is keyed by domain when every key is the domain of
    the rule stored under it, as in the result of [generate_rules] and of
    [get_rewrite_rules]. *)
Definition keyed_by_domain (rules : gmap string RewriteRule) : Prop :=
  ∀ d r, rules !! d = Some r → domain r = d.

End Models.

(** ** adguard_client.py *)
Module AdGuard.
Import Models.

(** The last path segment of [/control/rewrite/{operation}]. *)
Inductive operation := OpAdd | OpDelete | OpUpdate.

#[global] Instance operation_eq_dec : EqDecision operation.
Proof. solve_decision. Defined.

(** The JSON payloads the client posts: [rule.to_dict()] for an add,
    [{domain, answer}] for a delete, [{target: {domain, answer},
    update: {domain, answer}}] for an update. *)
Inductive payload :=
| RulePayload (rule : RewriteRule)
| DeletePayload (dom ans : string)
| UpdatePayload (target_domain target_answer update_domain update_answer : string).

#[global] Instance payload_eq_dec : EqDecision payload.
Proof. solve_decision. Defined.

(** What [session.post] does: it returns a response with a status code, or
    raises (timeout, connection reset, ...). *)
Inductive post_result :=
| PostStatus (status_code : Z)
| PostRaised.

(** One element of the JSON array returned by [/control/rewrite/list]: a
    dictionary holding at least [domain] and [answer] (and perhaps
    [enabled]), or anything else. *)
Inductive list_item :=
| ItemRule (dom ans : string) (en : option bool)
| ItemOther.

(** The body of a list response as [response.json()] sees it. *)
Inductive list_body :=
| BodyList (data : list list_item)
| BodyNotList
| BodyUndecodable.

(** [response.status_code == 200], for a call that returned at all. *)
Definition succeeded (r : post_result) : bool :=
  match r with
  | PostStatus status_code => bool_decide (status_code = 200%Z)
  | PostRaised => false
  end.

Inductive get_result :=
| GetStatus (status_code : Z) (body : list_body)
| GetRaised.

(** What a gateway call does to the outside, in order. *)
Inductive event :=
| Get
| Post (op : operation) (p : payload)
| Sleep (seconds : nat).

#[global] Instance event_eq_dec : EqDecision event.
Proof. solve_decision. Defined.

(** The requests posted in a trace, and the delays slept, in order. *)
Definition posts (t : list event) : list (operation * payload) :=
  omap (λ e, match e with Post op p => Some (op, p) | _ => None end) t.

Definition sleeps (t : list event) : list nat :=
  omap (λ e, match e with Sleep n => Some n | _ => None end) t.

(** The client's settings, read from the environment in [__init__]. *)
Record Config := mkConfig {
  max_retries : nat;
  retry_delay : nat;
  request_timeout : nat;
  safety_threshold : spec_float
}.

(** IEEE 754 binary64, the format of a Python [float]. *)
Definition prec : Z := 53.
Definition emax : Z := 1024.

(** [float(n)] for a Python [int] (exact below 2^53). *)
Definition float_of_int (n : Z) : spec_float := binary_normalize prec emax n 0 false.

Definition float_0_1 : spec_float := S754_finite false 7205759403792794 (-56).
Definition float_0_8 : spec_float := S754_finite false 7205759403792794 (-53).
Definition float_1_0 : spec_float := S754_finite false 4503599627370496 (-52).

(** [_validate_configuration]: [true] when no [ValueError] is raised. *)
Definition _validate_configuration (cfg : Config) : bool :=
  negb ((max_retries cfg <? 1) || (10 <? max_retries cfg)) &&
  negb ((retry_delay cfg <? 1) || (60 <? retry_delay cfg)) &&
  negb ((request_timeout cfg <? 1) || (300 <? request_timeout cfg)) &&
  negb (SFltb (safety_threshold cfg) float_0_1 || SFltb float_1_0 (safety_threshold cfg)).

(** The settings when no environment variable is set. *)
Definition default_config : Config :=
  {| max_retries := 3; retry_delay := 2; request_timeout := 10;
     safety_threshold := float_0_8 |}.

(** The safety check of [sync_rules]:
    [len(to_delete) > len(app_managed_domains) * self.safety_threshold]. *)
Definition safety_check_failed (n_delete n_managed : nat) (threshold : spec_float) : bool :=
  SFltb (SFmul prec emax (float_of_int (Z.of_nat n_managed)) threshold)
        (float_of_int (Z.of_nat n_delete)).

(** Whether the safety check with threshold 0.8 is the comparison
    [n_delete > 4/5 * n_managed] for all sizes up to a bound. *)
Definition check_is_four_fifths (bound : nat) : bool :=
  forallb (λ n_managed,
    forallb (λ n_delete,
      Bool.eqb (safety_check_failed n_delete n_managed float_0_8)
               (4 * n_managed <? 5 * n_delete))
      (seq 0 (S n_managed)))
    (seq 0 (S bound)).

(** The three sets [sync_rules] computes from the dictionaries' keys. *)
Definition to_add_or_update (target_rules current_rules : gmap string RewriteRule) : gset string :=
  dom target_rules ∖ dom current_rules.

Definition to_update (target_rules current_rules : gmap string RewriteRule) : gset string :=
  dom current_rules ∩ dom target_rules.

Definition to_delete (app_managed_domains : gset string) (target_rules : gmap string RewriteRule) : gset string :=
  app_managed_domains ∖ dom target_rules.

(** [app_managed_domains]: the keys of [managed_rules], or the empty set when
    no managed rules were passed. *)
Definition app_managed_domains (managed_rules : option (gmap string RewriteRule)) : gset string :=
  match managed_rules with
  | Some m => dom m
  | None => ∅
  end.

(** [current_rule.answer != rule.answer or current_rule.enabled != rule.enabled] *)
Definition needs_update (current_rule rule : RewriteRule) : bool :=
  negb (bool_decide (answer current_rule = answer rule)) ||
  negb (bool_decide (enabled current_rule = enabled rule)).

(** The body of the loop of [get_rewrite_rules]: a later item replaces an
    earlier one with the same domain. *)
Definition add_item (rules : gmap string RewriteRule) (item : list_item) : gmap string RewriteRule :=
  match item with
  | ItemRule d a en => <[d := mkRule d a (default true en)]> rules
  | ItemOther => rules
  end.

Definition rules_of_items (data : list list_item) : gmap string RewriteRule :=
  foldl add_item ∅ data.

(** What the list call yields: the rules of a well-formed answer with status
    200, the empty dictionary on every failure. *)
Definition listed (r : get_result) : gmap string RewriteRule :=
  match r with
  | GetStatus 200 (BodyList data) => rules_of_items data
  | _ => ∅
  end.

(** The requests a cycle is entitled to post, given the rules it read from
    the provider: an add for a target domain the provider lacks, an update
    for a domain on both sides whose rule differs (an add when the provider
    has no record under the rule's own domain), a delete for a managed domain
    that is no longer a target and that the provider still has. *)
Inductive planned (target_rules current_rules : gmap string RewriteRule)
    (managed : gset string) : operation → payload → Prop :=
| planned_add d rule :
    d ∈ to_add_or_update target_rules current_rules →
    target_rules !! d = Some rule →
    planned target_rules current_rules managed OpAdd (RulePayload rule)
| planned_update d rule current_rule old_rule :
    d ∈ to_update target_rules current_rules →
    target_rules !! d = Some rule →
    current_rules !! d = Some current_rule →
    needs_update current_rule rule = true →
    current_rules !! domain rule = Some old_rule →
    planned target_rules current_rules managed OpUpdate
      (UpdatePayload (domain rule) (answer old_rule) (domain rule) (answer rule))
| planned_update_unlisted d rule current_rule :
    d ∈ to_update target_rules current_rules →
    target_rules !! d = Some rule →
    current_rules !! d = Some current_rule →
    needs_update current_rule rule = true →
    current_rules !! domain rule = None →
    planned target_rules current_rules managed OpAdd (RulePayload rule)
| planned_delete d rule :
    d ∈ to_delete managed target_rules →
    current_rules !! d = Some rule →
    planned target_rules current_rules managed OpDelete (DeletePayload d (answer rule)).

(** The request of [update_rewrite_rule] when it is handed the rules read. *)
Definition update_request (current : gmap string RewriteRule) (rule : RewriteRule)
    : operation * payload :=
  match current !! domain rule with
  | Some old_rule =>
      (OpUpdate, UpdatePayload (domain rule) (answer old_rule) (domain rule) (answer rule))
  | None => (OpAdd, RulePayload rule)
  end.

(** The domain a request is about. *)
Definition payload_domain (p : payload) : string :=
  match p with
  | RulePayload rule => domain rule
  | DeletePayload d _ => d
  | UpdatePayload target_domain _ _ _ => target_domain
  end.

(** The two early returns of [sync_rules]: nothing was read from the
    provider, or the safety check failed. *)
Definition aborted (cfg : Config) (target_rules : gmap string RewriteRule)
    (managed_rules : option (gmap string RewriteRule))
    (current_rules : gmap string RewriteRule) : bool :=
  bool_decide (current_rules = ∅) ||
  safety_check_failed
    (size (to_delete (app_managed_domains managed_rules) target_rules))
    (size (app_managed_domains managed_rules))
    (safety_threshold cfg).

(** The domains of [to_update] whose rule differs on the two sides: the ones
    the update loop does not skip. *)
Definition differs (target_rules current_rules : gmap string RewriteRule) (d : string) : bool :=
  match target_rules !! d, current_rules !! d with
  | Some rule, Some current_rule => needs_update current_rule rule
  | _, _ => false
  end.

Definition to_change (target_rules current_rules : gmap string RewriteRule) : gset string :=
  filter (λ d, Is_true (differs target_rules current_rules d))
    (to_update target_rules current_rules).

Section Client.

Context {World : Type}.

(** The transport: what [session.get] on the list URL and [session.post] on a
    rule URL answer, and how the world changes. *)
Variable session_get : World → get_result * World.
Variable session_post : operation → payload → World → post_result * World.

(** The order in which a [for] loop visits a Python set. *)
Variable set_iter : gset string → list string.

Variable cfg : Config.

(** A gateway computation: from a world to a value, the new world and the
    events performed. *)
Definition M (A : Type) : Type := World → A * World * list event.

Definition ret {A} (a : A) : M A := λ w, (a, w, []).

Definition bind {A B} (c : M A) (k : A → M B) : M B := λ w,
  let '(a, w1, t1) := c w in
  let '(b, w2, t2) := k a w1 in
  (b, w2, t1 ++ t2).

Notation "'do' x <- c ;; k" := (bind c (λ x, k))
  (at level 10, x name, c at level 99, k at level 200,
   format "'[v' 'do'  x  <-  c  ;; '/' k ']'").

Definition value {A} (r : A * World * list event) : A := r.1.1.
Definition world_after {A} (r : A * World * list event) : World := r.1.2.
Definition trace {A} (r : A * World * list event) : list event := r.2.

Definition http_get : M get_result := λ w,
  let '(r, w') := session_get w in (r, w', [Get]).

Definition http_post (op : operation) (p : payload) : M post_result := λ w,
  let '(r, w') := session_post op p w in (r, w', [Post op p]).

Definition sleep (seconds : nat) : M unit := λ w, (tt, w, [Sleep seconds]).

(** [get_rewrite_rules]: every failure path returns the empty dictionary. *)
Definition get_rewrite_rules : M (gmap string RewriteRule) :=
  do r <- http_get ;;
  match r with
  | GetRaised => ret ∅
  | GetStatus status_code body =>
      if bool_decide (status_code ≠ 200%Z) then ret ∅
      else match body with
           | BodyUndecodable => ret ∅
           | BodyNotList => ret ∅
           | BodyList data => ret (rules_of_items data)
           end
  end.

(** The loop of [_make_rule_request] over the remaining values of
    [attempt]. *)
Fixpoint _make_rule_request_loop (attempts : list nat) (op : operation) (p : payload) : M bool :=
  match attempts with
  | [] => ret false
  | attempt :: rest =>
      do r <- http_post op p ;;
      if succeeded r then ret true
      else
        do _ <- (if attempt <? max_retries cfg - 1 then sleep (retry_delay cfg) else ret tt) ;;
        _make_rule_request_loop rest op p
  end.

Definition _make_rule_request (op : operation) (p : payload) : M bool :=
  _make_rule_request_loop (seq 0 (max_retries cfg)) op p.

Definition add_rewrite_rule (rule : RewriteRule) : M bool :=
  _make_rule_request OpAdd (RulePayload rule).

Definition delete_rewrite_rule (d : string) (current_rules : option (gmap string RewriteRule)) : M bool :=
  do current_rules <- (match current_rules with
                       | Some c => ret c
                       | None => get_rewrite_rules
                       end) ;;
  match current_rules !! d with
  | None => ret true
  | Some rule => _make_rule_request OpDelete (DeletePayload d (answer rule))
  end.

Definition update_rewrite_rule (rule : RewriteRule) (current_rules : option (gmap string RewriteRule)) : M bool :=
  do current_rules <- (match current_rules with
                       | Some c => ret c
                       | None => get_rewrite_rules
                       end) ;;
  match current_rules !! domain rule with
  | None => add_rewrite_rule rule
  | Some old_rule =>
      _make_rule_request OpUpdate
        (UpdatePayload (domain rule) (answer old_rule) (domain rule) (answer rule))
  end.

(** The three loops of [sync_rules].  Each returns its counter, or [None]
    when a dictionary lookup raises [KeyError]. *)
Fixpoint add_new_rules (target_rules : gmap string RewriteRule)
    (domains : list string) (rules_created : nat) : M (option nat) :=
  match domains with
  | [] => ret (Some rules_created)
  | d :: rest =>
      match target_rules !! d with
      | None => ret None
      | Some rule =>
          do ok <- add_rewrite_rule rule ;;
          add_new_rules target_rules rest (if ok : bool then S rules_created else rules_created)
      end
  end.

Fixpoint update_existing_rules (target_rules current_rules : gmap string RewriteRule)
    (domains : list string) (rules_updated : nat) : M (option nat) :=
  match domains with
  | [] => ret (Some rules_updated)
  | d :: rest =>
      match target_rules !! d, current_rules !! d with
      | Some rule, Some current_rule =>
          if needs_update current_rule rule then
            do ok <- update_rewrite_rule rule (Some current_rules) ;;
            update_existing_rules target_rules current_rules rest
              (if ok : bool then S rules_updated else rules_updated)
          else update_existing_rules target_rules current_rules rest rules_updated
      | _, _ => ret None
      end
  end.

Fixpoint delete_obsolete_rules (current_rules : gmap string RewriteRule)
    (domains : list string) (rules_deleted : nat) : M (option nat) :=
  match domains with
  | [] => ret (Some rules_deleted)
  | d :: rest =>
      do ok <- delete_rewrite_rule d (Some current_rules) ;;
      delete_obsolete_rules current_rules rest
        (if ok : bool then S rules_deleted else rules_deleted)
  end.

(** What one turn of each loop does to the world. *)
Definition add_step (target_rules : gmap string RewriteRule) (w : World) (d : string) : World :=
  match target_rules !! d with
  | Some rule => world_after (add_rewrite_rule rule w)
  | None => w
  end.

Definition update_step (target_rules current_rules : gmap string RewriteRule)
    (w : World) (d : string) : World :=
  match target_rules !! d, current_rules !! d with
  | Some rule, Some current_rule =>
      if needs_update current_rule rule
      then world_after (update_rewrite_rule rule (Some current_rules) w)
      else w
  | _, _ => w
  end.

Definition delete_step (current_rules : gmap string RewriteRule) (w : World) (d : string) : World :=
  world_after (delete_rewrite_rule d (Some current_rules) w).

(** The part of [sync_rules] after the safety check: add, then update, then
    delete.  An exception in any loop ends the run in the [except] clause,
    which returns [False]. *)
Definition apply_changes (target_rules current_rules : gmap string RewriteRule)
    (managed : gset string) : M bool :=
  do created <- add_new_rules target_rules
                  (set_iter (to_add_or_update target_rules current_rules)) 0 ;;
  match created with
  | None => ret false
  | Some _ =>
      do updated <- update_existing_rules target_rules current_rules
                      (set_iter (to_update target_rules current_rules)) 0 ;;
      match updated with
      | None => ret false
      | Some _ =>
          do deleted <- delete_obsolete_rules current_rules
                          (set_iter (to_delete managed target_rules)) 0 ;;
          match deleted with
          | None => ret false
          | Some _ => ret true
          end
      end
  end.

(** [sync_rules] *)
Definition sync_rules (target_rules : gmap string RewriteRule)
    (managed_rules : option (gmap string RewriteRule)) : M bool :=
  do current_rules <- get_rewrite_rules ;;
  if bool_decide (current_rules = ∅) then ret false
  else
    let managed := app_managed_domains managed_rules in
    if safety_check_failed (size (to_delete managed target_rules)) (size managed)
         (safety_threshold cfg)
    then ret false
    else apply_changes target_rules current_rules managed.

End Client.

End AdGuard.

(** ** database.py *)
Module Database.
Import Models.

(** One value of the top-level JSON object of a database file, as the loader
    inspects it: a dictionary, of which only the presence and the values of
    the keys [domain], [answer] and [enabled] matter, or something that is
    not a dictionary. *)
Inductive rule_data :=
| RuleDict (domain_field answer_field : option string) (enabled_field : option bool)
| NotADict.

#[global] Instance rule_data_eq_dec : EqDecision rule_data.
Proof. solve_decision. Defined.

(** The content of a file, as [json.loads] sees it: text on which it raises
    [JSONDecodeError], a JSON value that is not an object, or an object. *)
Inductive file_content :=
| Unparsable (raw : string)
| JsonNotDict (raw : string)
| JsonDict (data : gmap string rule_data).

#[global] Instance file_content_eq_dec : EqDecision file_content.
Proof. solve_decision. Defined.

(** The changes made to the directory, in order. *)
Inductive fs_op :=
| Copied (src dst : string)
| Moved (src dst : string)
| Removed (path : string)
| Written (path : string).

#[global] Instance fs_op_eq_dec : EqDecision fs_op.
Proof. solve_decision. Defined.

(** The directory of the database: its regular files by path, and the journal
    of the changes made so far. *)
Record disk := mkDisk {
  files : gmap string file_content;
  journal : list fs_op
}.

Inductive exn := JSONDecodeError | KeyError | ValueError | FileNotFoundError.

Inductive outcome (A : Type) :=
| Return (a : A)
| Raise (e : exn).
Arguments Return {A} a.
Arguments Raise {A} e.

(** A store computation: it returns or raises, and leaves a new disk. *)
Definition IO (A : Type) : Type := disk → outcome A * disk.

Definition io_ret {A} (a : A) : IO A := λ d, (Return a, d).

Definition io_raise {A} (e : exn) : IO A := λ d, (Raise e, d).

Definition io_bind {A B} (c : IO A) (k : A → IO B) : IO B := λ d,
  match c d with
  | (Return a, d1) => k a d1
  | (Raise e, d1) => (Raise e, d1)
  end.

(** [try: c  except <caught>: handler] *)
Definition io_try {A} (c : IO A) (caught : exn → bool) (handler : IO A) : IO A := λ d,
  match c d with
  | (Return a, d1) => (Return a, d1)
  | (Raise e, d1) => if caught e then handler d1 else (Raise e, d1)
  end.

Notation "'io' x <- c ;; k" := (io_bind c (λ x, k))
  (at level 10, x name, c at level 99, k at level 200,
   format "'[v' 'io'  x  <-  c  ;; '/' k ']'").

(** [except (json.JSONDecodeError, KeyError, ValueError)] *)
Definition corruption (e : exn) : bool :=
  match e with
  | JSONDecodeError | KeyError | ValueError => true
  | FileNotFoundError => false
  end.

(** [except Exception] and [except OSError], for the exceptions of the model. *)
Definition any_exception (e : exn) : bool := true.

Definition os_error (e : exn) : bool :=
  match e with
  | FileNotFoundError => true
  | _ => false
  end.

(** *** File primitives *)

Definition os_path_exists (path : string) (d : disk) : bool :=
  bool_decide (is_Some (files d !! path)).

Definition read_file (path : string) : IO file_content := λ d,
  match files d !! path with
  | Some c => (Return c, d)
  | None => (Raise FileNotFoundError, d)
  end.

Definition shutil_copy2 (src dst : string) : IO unit := λ d,
  match files d !! src with
  | Some c => (Return tt, mkDisk (<[dst := c]> (files d)) (journal d ++ [Copied src dst]))
  | None => (Raise FileNotFoundError, d)
  end.

Definition shutil_move (src dst : string) : IO unit := λ d,
  match files d !! src with
  | Some c => (Return tt, mkDisk (<[dst := c]> (delete src (files d))) (journal d ++ [Moved src dst]))
  | None => (Raise FileNotFoundError, d)
  end.

Definition os_remove (path : string) : IO unit := λ d,
  match files d !! path with
  | Some _ => (Return tt, mkDisk (delete path (files d)) (journal d ++ [Removed path]))
  | None => (Raise FileNotFoundError, d)
  end.

(** [with open(path, 'w') as f: json.dump(data, f, indent=2)] *)
Definition write_json (path : string) (data : gmap string rule_data) : IO unit := λ d,
  (Return tt, mkDisk (<[path := JsonDict data]> (files d)) (journal d ++ [Written path])).

(** [sorted(names, reverse=True)]: decreasing in the order of Python strings. *)
Definition sorted_reverse (names : list string) : list string :=
  merge_sort (λ a b, Is_true (String.leb b a)) names.

(** [glob.glob(pattern + "*")] for a pattern without wildcard of its own: the
    paths that start with it. *)
Definition glob_prefix (pattern : string) (d : disk) : list string :=
  filter (λ name, Is_true (String.prefix pattern name)) (elements (dom (files d))).

(** *** The store *)

Record RuleDatabase := mkDatabase {
  db_file : string;
  max_backups : nat
}.

(** [_validate_configuration], for the settings of the model. *)
Definition _validate_configuration (db : RuleDatabase) : bool :=
  negb ((max_backups db <? 1) || (50 <? max_backups db)).

Definition backup_file (db : RuleDatabase) : string := db_file db +:+ ".backup".

(** [f"{self.db_file}.backup.*"] without its final star. *)
Definition backup_pattern (db : RuleDatabase) : string := db_file db +:+ ".backup.".

(** The two readings of the clock the store takes: [int(time.time())] and
    [datetime.now().strftime("%Y%m%d_%H%M%S")]. *)
Record Clock := mkClock {
  time_time : N;
  strftime_now : string
}.

(** A record is kept when [domain], [answer] and [enabled] are all present. *)
Definition rule_of_data (rd : rule_data) : option RewriteRule :=
  match rd with
  | RuleDict (Some d) (Some a) (Some e) => Some (mkRule d a e)
  | _ => None
  end.

Definition data_of_rule (rule : RewriteRule) : rule_data :=
  RuleDict (Some (domain rule)) (Some (answer rule)) (Some (enabled rule)).

(** [_load_from_file]: the loop over [data.items()] keeps, under the same
    key, the records that are dictionaries with the three fields. *)
Definition _load_from_file (file_path : string) : IO (gmap string RewriteRule) :=
  io raw_content <- read_file file_path ;;
  match raw_content with
  | Unparsable _ => io_raise JSONDecodeError
  | JsonNotDict _ => io_raise ValueError
  | JsonDict data => io_ret (omap rule_of_data data)
  end.

(** [_cleanup_corrupted_file]: never raises. *)
Definition _cleanup_corrupted_file (now : Clock) (file_path : string) : IO unit :=
  io_try
    (λ d, if os_path_exists file_path d
          then shutil_move file_path (file_path +:+ ".corrupted." +:+ pretty (time_time now)) d
          else io_ret tt d)
    any_exception (io_ret tt).

(** The first loop of [_try_backup_restore], over the sorted backup files:
    [Some rules] when a file was restored, [None] when all were corrupted. *)
Fixpoint restore_from (db : RuleDatabase) (backup_files : list string)
    : IO (option (gmap string RewriteRule)) :=
  match backup_files with
  | [] => io_ret None
  | backup_file :: rest =>
      io_try
        (io rules <- _load_from_file backup_file ;;
         io _ <- shutil_copy2 backup_file (db_file db) ;;
         io_ret (Some rules))
        corruption
        (restore_from db rest)
  end.

Definition _try_backup_restore (db : RuleDatabase) : IO (gmap string RewriteRule) := λ d,
  let backup_files := sorted_reverse (glob_prefix (backup_pattern db) d) in
  (io restored <- restore_from db backup_files ;;
   match restored with
   | Some rules => io_ret rules
   | None =>
       io restored <- (λ d, if os_path_exists (backup_file db) d
                            then io_try
                                   (io rules <- _load_from_file (backup_file db) ;;
                                    io _ <- shutil_copy2 (backup_file db) (db_file db) ;;
                                    io_ret (Some rules))
                                   corruption (io_ret None) d
                            else io_ret None d) ;;
       match restored with
       | Some rules => io_ret rules
       | None => io_ret ∅
       end
   end) d.

(** [load_managed_rules].  The lock is not modelled: the model runs one
    operation at a time, so it is always acquired. *)
Definition load_managed_rules (db : RuleDatabase) (now : Clock) : IO (gmap string RewriteRule) := λ d,
  if os_path_exists (db_file db) d then
    io_try
      (io rules <- _load_from_file (db_file db) ;;
       if bool_decide (rules ≠ ∅) then io_ret rules
       else io _ <- _cleanup_corrupted_file now (db_file db) ;; io_ret ∅)
      corruption
      (io _ <- _cleanup_corrupted_file now (db_file db) ;; _try_backup_restore db) d
  else
    (io found <- (λ d, if os_path_exists (backup_file db) d
                       then io_try
                              (io rules <- _load_from_file (backup_file db) ;;
                               if bool_decide (rules ≠ ∅)
                               then io _ <- shutil_copy2 (backup_file db) (db_file db) ;;
                                    io_ret (Some rules)
                               else io_ret (Some ∅))
                              corruption
                              (io _ <- _cleanup_corrupted_file now (backup_file db) ;;
                               io_ret None) d
                       else io_ret None d) ;;
     match found with
     | Some rules => io_ret rules
     | None => io_ret ∅
     end) d.

(** The loop of [_cleanup_old_backups]: a failing [os.remove] is logged and
    the loop goes on. *)
Fixpoint remove_all (paths : list string) : IO unit :=
  match paths with
  | [] => io_ret tt
  | backup_file :: rest =>
      io _ <- io_try (os_remove backup_file) os_error (io_ret tt) ;;
      remove_all rest
  end.

Definition _cleanup_old_backups (db : RuleDatabase) : IO unit :=
  io_try
    (λ d, let backup_files := sorted_reverse (glob_prefix (backup_pattern db) d) in
          remove_all (drop (max_backups db) backup_files) d)
    any_exception (io_ret tt).

Definition _create_backup (db : RuleDatabase) (now : Clock) : IO unit :=
  io_try
    (let timestamp := strftime_now now in
     let backup_name := backup_pattern db +:+ timestamp in
     io _ <- shutil_copy2 (db_file db) backup_name ;;
     io _ <- shutil_copy2 (db_file db) (backup_file db) ;;
     _cleanup_old_backups db)
    any_exception (io_ret tt).

Definition _save_to_file (rules : gmap string RewriteRule) (file_path : string) : IO unit :=
  let data := data_of_rule <$> rules in
  let temp_file := file_path +:+ ".tmp" in
  io _ <- write_json temp_file data ;;
  shutil_move temp_file file_path.

(** [save_managed_rules]: an exception is logged and raised again. *)
Definition save_managed_rules (db : RuleDatabase) (now : Clock)
    (rules : gmap string RewriteRule) : IO unit :=
  io _ <- (λ d, if os_path_exists (db_file db) d then _create_backup db now d else io_ret tt d) ;;
  _save_to_file rules (db_file db).

(** *** Vocabulary for the store's properties *)

(** The rules a file holds when it parses as a dictionary. *)
Definition loads (c : file_content) : option (gmap string RewriteRule) :=
  match c with
  | JsonDict data => Some (omap rule_of_data data)
  | _ => None
  end.

(** One name is later than another when it sorts after it, or is equal. *)
Definition later (a b : string) : Prop := Is_true (String.leb b a).

(** The generation backups on a disk, latest name first. *)
Definition generations (db : RuleDatabase) (d : disk) : list string :=
  sorted_reverse (glob_prefix (backup_pattern db) d).

Definition generation_name (db : RuleDatabase) (now : Clock) : string :=
  backup_pattern db +:+ strftime_now now.

(** The files a restore tries, in order: the generations, then the fixed-name
    backup when it exists. *)
Definition restore_candidates (db : RuleDatabase) (d : disk) : list string :=
  generations db d ++ (if os_path_exists (backup_file db) d then [backup_file db] else []).

(** The first of the paths whose file parses as a dictionary, with its rules. *)
Fixpoint first_valid (fs : gmap string file_content) (paths : list string)
    : option (string * gmap string RewriteRule) :=
  match paths with
  | [] => None
  | path :: rest =>
      match fs !! path ≫= loads with
      | Some rules => Some (path, rules)
      | None => first_valid fs rest
      end
  end.

Definition quarantine_name (now : Clock) (file_path : string) : string :=
  file_path +:+ ".corrupted." +:+ pretty (time_time now).

(** The disk after a file was moved to its quarantine name. *)
Definition quarantined (now : Clock) (file_path : string) (d : disk) : disk :=
  match files d !! file_path with
  | Some c =>
      mkDisk (<[quarantine_name now file_path := c]> (delete file_path (files d)))
             (journal d ++ [Moved file_path (quarantine_name now file_path)])
  | None => d
  end.

(** The disk after the main file was restored from a copy of [path]. *)
Definition restored (db : RuleDatabase) (path : string) (d : disk) : disk :=
  match files d !! path with
  | Some c =>
      mkDisk (<[db_file db := c]> (files d)) (journal d ++ [Copied path (db_file db)])
  | None => d
  end.

(** What a restore from the candidates yields. *)
Definition restore_result (db : RuleDatabase) (d : disk)
    : outcome (gmap string RewriteRule) * disk :=
  match first_valid (files d) (restore_candidates db d) with
  | Some (path, rules) => (Return rules, restored db path d)
  | None => (Return ∅, d)
  end.

(** The disk after the main file was copied to a new generation and to the
    fixed-name backup. *)
Definition backed_up (db : RuleDatabase) (now : Clock) (d : disk) : disk :=
  match files d !! db_file db with
  | Some c =>
      mkDisk (<[backup_file db := c]> (<[generation_name db now := c]> (files d)))
             (journal d ++ [Copied (db_file db) (generation_name db now);
                            Copied (db_file db) (backup_file db)])
  | None => d
  end.

(** The disk after the generations beyond the retention count were removed. *)
Definition pruned (db : RuleDatabase) (d : disk) : disk :=
  let doomed := drop (max_backups db) (generations db d) in
  mkDisk (foldl (λ fs path, delete path fs) (files d) doomed)
         (journal d ++ (Removed <$> doomed)).

(** The disk after the rules were written to the temporary file and the
    temporary file was renamed. *)
Definition written (rules : gmap string RewriteRule) (file_path : string) (d : disk) : disk :=
  let data := JsonDict (data_of_rule <$> rules) in
  let temp_file := file_path +:+ ".tmp" in
  mkDisk (<[file_path := data]> (delete temp_file (<[temp_file := data]> (files d))))
         (journal d ++ [Written temp_file; Moved temp_file file_path]).

(** One clock reading is before another when its time stamp sorts strictly
    before the other's. *)
Definition before (now1 now2 : Clock) : Prop :=
  String.ltb (strftime_now now1) (strftime_now now2) = true.

(** A name is newer than another when it is later and different. *)
Definition newer (a b : string) : Prop := later a b ∧ a ≠ b.

(** Consecutive saves, each with its clock reading. *)
Definition save_all (db : RuleDatabase)
    (saves : list (Clock * gmap string RewriteRule)) (d : disk) : disk :=
  foldl (λ d save, (save_managed_rules db save.1 save.2 d).2) d saves.

(** A file truncated in the middle of its text no longer parses. *)
Definition truncated (file_path raw : string) (d : disk) : disk :=
  mkDisk (<[file_path := Unparsable raw]> (files d)) (journal d).

End Database.

(** ** A rewrite provider

    The provider is outside the repository.  This is a provider that keeps
    the contract the client relies on: a collection of records keyed by
    domain, each stored as it was sent; an add stores the posted rule, an
    update replaces the record matching the target's domain and answer by
    the posted update, a delete removes the record matching domain and
    answer; every well-formed request is answered with status 200. *)
Module Provider.
Import Models AdGuard.

(** A stored record: its answer, and its [enabled] field when one was sent. *)
Abbreviation record := (string * option bool)%type.

Abbreviation state := (gmap string record).

Definition item_of (entry : string * record) : list_item :=
  ItemRule entry.1 entry.2.1 entry.2.2.

Definition session_get (w : state) : get_result * state :=
  (GetStatus 200 (BodyList (item_of <$> map_to_list w)), w).

Definition matches (w : state) (d a : string) : bool :=
  match w !! d with
  | Some (a', _) => bool_decide (a' = a)
  | None => false
  end.

Definition session_post (op : operation) (p : payload) (w : state) : post_result * state :=
  match op, p with
  | OpAdd, RulePayload rule =>
      (PostStatus 200, <[domain rule := (answer rule, Some (enabled rule))]> w)
  | OpDelete, DeletePayload d a =>
      if matches w d a then (PostStatus 200, delete d w) else (PostStatus 400, w)
  | OpUpdate, UpdatePayload td ta ud ua =>
      if matches w td ta then (PostStatus 200, <[ud := (ua, None)]> (delete td w))
      else (PostStatus 400, w)
  | _, _ => (PostStatus 400, w)
  end.

(** The same provider behind a faulty link: the requests selected by [drops]
    are answered with status 500 and change nothing. *)
Definition faulty_post (drops : operation → payload → bool)
    (op : operation) (p : payload) (w : state) : post_result * state :=
  if drops op p then (PostStatus 500, w) else session_post op p w.

(** A provider whose list call raises. *)
Definition unreachable_get (w : state) : get_result * state := (GetRaised, w).

(** The rules the client reads from a provider state. *)
Definition rules_of (w : state) : gmap string RewriteRule :=
  map_imap (λ d (r : record), Some (mkRule d r.1 (default true r.2))) w.

(** The provider's record for a domain agrees with a rule when it has the
    rule's answer and reads back with the rule's enabled flag. *)
Definition agrees (w : state) (d : string) (rule : RewriteRule) : Prop :=
  ∃ en, w !! d = Some (answer rule, en) ∧ default true en = enabled rule.

End Provider.

(** ** app.py *)
Module App.
Import Models.

(** [generate_rules], from the result of [get_dns_resources]. *)
Definition generate_rules (dns_resources : gmap string string) : gmap string RewriteRule :=
  map_imap (λ hostname ip, Some (mkRule hostname ip true)) dns_resources.

Section Cycle.

Context {World : Type}.
Variable session_get : World → AdGuard.get_result * World.
Variable session_post : AdGuard.operation → AdGuard.payload → World → AdGuard.post_result * World.
Variable set_iter : gset string → list string.
Variable cfg : AdGuard.Config.
Variable db : Database.RuleDatabase.

(** What a cycle leaves: its result, the disk, the world, and the gateway
    events. *)
Record cycle_result := mkCycle {
  success : bool;
  disk_after : Database.disk;
  world_after : World;
  events : list AdGuard.event
}.

(** [sync_rules]: any exception ends the cycle with [False]. *)
Definition sync_rules (dns_resources : gmap string string) (now : Database.Clock)
    (d : Database.disk) (w : World) : cycle_result :=
  let new_rules := generate_rules dns_resources in
  match Database.load_managed_rules db now d with
  | (Database.Raise _, d1) => mkCycle false d1 w []
  | (Database.Return managed_rules, d1) =>
      let '(ok, w1, t) :=
        AdGuard.sync_rules session_get session_post set_iter cfg
          new_rules (Some managed_rules) w in
      if ok then
        match Database.save_managed_rules db now new_rules d1 with
        | (Database.Return _, d2) => mkCycle true d2 w1 t
        | (Database.Raise _, d2) => mkCycle false d2 w1 t
        end
      else mkCycle false d1 w1 t
  end.

End Cycle.

End App.

(** ** Concrete data for the scenarios of the specification *)
Module Scenario.
Import Models.

(** The three-way diff scenario: desired [x] and [y], the provider holds [x]
    and [z], the store holds [z]. *)
Definition desired_hosts : gmap string string :=
  <["x" := "10.0.0.1"]> (<["y" := "10.0.0.2"]> ∅).

Definition desired : gmap string RewriteRule := App.generate_rules desired_hosts.

Definition provider : Provider.state :=
  <["x" := ("10.0.0.1", None)]> (<["z" := ("10.0.0.3", None)]> ∅).

Definition remote : gmap string RewriteRule := Provider.rules_of provider.

Definition managed : gmap string RewriteRule :=
  <["z" := mkRule "z" "10.0.0.3" true]> ∅.

(** The default settings, and the same with the safety threshold at 1.0. *)
Definition lenient_config : AdGuard.Config :=
  {| AdGuard.max_retries := 3; AdGuard.retry_delay := 2; AdGuard.request_timeout := 10;
     AdGuard.safety_threshold := AdGuard.float_1_0 |}.

(** The store of the application with a retention of three generations,
    five clock readings one second apart, and the rules of the crash-safety
    scenario. *)
Definition store : Database.RuleDatabase :=
  Database.mkDatabase "/app/data/managed_rules.json" 3.

Definition second1 : Database.Clock := Database.mkClock 1704110401 "20240101_120001".
Definition second2 : Database.Clock := Database.mkClock 1704110402 "20240101_120002".
Definition second3 : Database.Clock := Database.mkClock 1704110403 "20240101_120003".
Definition second4 : Database.Clock := Database.mkClock 1704110404 "20240101_120004".
Definition second5 : Database.Clock := Database.mkClock 1704110405 "20240101_120005".

Definition a_example : gmap string RewriteRule :=
  {["a.example" := mkRule "a.example" "1.1.1.1" true]}.

Definition b_example : gmap string RewriteRule :=
  {["b.example" := mkRule "b.example" "2.2.2.2" true]}.

Definition empty_disk : Database.disk := Database.mkDisk ∅ [].

(** A disk whose main file is cut short, whose latest generation holds the
    empty dictionary and whose earlier generation holds a rule. *)
Definition stale_disk : Database.disk :=
  Database.mkDisk
    (<["/app/data/managed_rules.json" := Database.Unparsable "{"]>
     (<["/app/data/managed_rules.json.backup.20240101_120002" := Database.JsonDict ∅]>
      (<["/app/data/managed_rules.json.backup.20240101_120001" :=
           Database.JsonDict (Database.data_of_rule <$> a_example)]> ∅)))
    [].

(** The safety-guard scenario: ten managed hosts, of which the observer
    still reports one. *)
Definition ten_hosts : gmap string string :=
  list_to_map
    [("h0", "10.0.1.0"); ("h1", "10.0.1.1"); ("h2", "10.0.1.2"); ("h3", "10.0.1.3");
     ("h4", "10.0.1.4"); ("h5", "10.0.1.5"); ("h6", "10.0.1.6"); ("h7", "10.0.1.7");
     ("h8", "10.0.1.8"); ("h9", "10.0.1.9")].

Definition one_host : gmap string string := {["h0" := "10.0.1.0"]}.

Definition ten_managed : gmap string RewriteRule := App.generate_rules ten_hosts.

Definition ten_disk : Database.disk :=
  Database.mkDisk
    {["/app/data/managed_rules.json" :=
        Database.JsonDict (Database.data_of_rule <$> ten_managed)]} [].

Definition ten_provider : Provider.state :=
  (λ ip, (ip, Some true)) <$> ten_hosts.

(** The partial-apply scenario: the provider holds [x] with an old answer,
    the observer reports [x] with a new answer and [y]. *)
Definition partial_hosts : gmap string string :=
  <["x" := "10.0.0.9"]> (<["y" := "10.0.0.2"]> ∅).

Definition partial_provider : Provider.state := {["x" := ("10.0.0.1", None)]}.

(** A link on which every post fails, and one on which updates fail. *)
Definition drop_all (op : AdGuard.operation) (p : AdGuard.payload) : bool := true.

Definition drop_updates (op : AdGuard.operation) (p : AdGuard.payload) : bool :=
  bool_decide (op = AdGuard.OpUpdate).

End Scenario.

(** ** adguard_client.py: construction and authentication *)
Module Startup.
Import Models AdGuard.

(** What the client does to the outside while it is constructed: a post of
    the credentials to a URL, or a sleep. *)
Inductive auth_event :=
| Login (url name password : string)
| Wait (seconds : nat).

#[global] Instance auth_event_eq_dec : EqDecision auth_event.
Proof. solve_decision. Defined.

Definition logins (t : list auth_event) : list (string * string * string) :=
  omap (λ e, match e with Login url n p => Some (url, n, p) | _ => None end) t.

Definition waits (t : list auth_event) : list nat :=
  omap (λ e, match e with Wait n => Some n | _ => None end) t.

(** [c in chars] for a character and a string. *)
Fixpoint char_in (c : Ascii.ascii) (chars : string) : bool :=
  match chars with
  | EmptyString => false
  | String x rest => if decide (x = c) then true else char_in c rest
  end.

(** [s.rstrip(chars)]: the trailing characters that occur in [chars] are
    removed. *)
Fixpoint rstrip (chars : string) (s : string) : string :=
  match s with
  | EmptyString => EmptyString
  | String c rest =>
      match rstrip chars rest with
      | EmptyString => if char_in c chars then EmptyString else String c EmptyString
      | rest' => String c rest'
      end
  end.

(** How the constructor ends: the client is ready, or one of the two
    exceptions is raised. *)
Inductive init_result :=
| Ready (base_url : string)
| RaisedValueError
| RaisedAuthenticationError.

Section Authenticate.

Context {World : Type}.

(** [session.post(auth_url, json={name, password}, timeout=...)] *)
Variable session_login : string → string → string → World → post_result * World.

Variable cfg : Config.

(** The loop of [_authenticate] over the remaining values of [attempt]:
    [true] when an attempt was answered with status 200.  The sleep is in
    the [except] clause: it follows an attempt that raised, not one that was
    answered with another status. *)
Fixpoint _authenticate_loop (attempts : list nat) (auth_url username password : string)
    (w : World) : bool * World * list auth_event :=
  match attempts with
  | [] => (false, w, [])
  | attempt :: rest =>
      let '(r, w1) := session_login auth_url username password w in
      match r with
      | PostStatus status_code =>
          if bool_decide (status_code = 200%Z)
          then (true, w1, [Login auth_url username password])
          else
            let '(ok, w2, t) := _authenticate_loop rest auth_url username password w1 in
            (ok, w2, Login auth_url username password :: t)
      | PostRaised =>
          let slept := if attempt <? max_retries cfg - 1
                       then [Wait (retry_delay cfg * (attempt + 1))]
                       else [] in
          let '(ok, w2, t) := _authenticate_loop rest auth_url username password w1 in
          (ok, w2, Login auth_url username password :: slept ++ t)
      end
  end.

(** [_authenticate]: [false] stands for the [AuthenticationError] raised
    after the loop. *)
Definition _authenticate (base_url username password : string) (w : World)
    : bool * World * list auth_event :=
  let auth_url := base_url +:+ "/control/login" in
  _authenticate_loop (seq 0 (max_retries cfg)) auth_url username password w.

(** [__init__], with the settings already read from the environment. *)
Definition __init__ (base_url username password : string) (w : World)
    : init_result * World * list auth_event :=
  let base_url := rstrip "/" base_url in
  if _validate_configuration cfg then
    let '(ok, w1, t) := _authenticate base_url username password w in
    (if ok : bool then Ready base_url else RaisedAuthenticationError, w1, t)
  else (RaisedValueError, w, []).

End Authenticate.

(** The delays [retry_delay * (attempt + 1)] for the attempts before the
    last one. *)
Definition increasing_delays (cfg : Config) : list nat :=
  (λ attempt, retry_delay cfg * (attempt + 1)) <$> seq 0 (max_retries cfg - 1).

End Startup.

(** ** database.py: vocabulary for the journal and for backup names *)
Module Backups.
Import Models Database.

(** A change that neither removes a file nor writes new content: a rename
    or a copy. *)
Definition keeps_content (op : fs_op) : bool :=
  match op with
  | Moved _ _ | Copied _ _ => true
  | Removed _ | Written _ => false
  end.

(** [c.isdigit()] for the ten ASCII digits. *)
Definition is_digit (c : Ascii.ascii) : bool :=
  let n := Ascii.nat_of_ascii c in (48 <=? n) && (n <=? 57).

(** A generation backup whose suffix starts with a digit, as the suffixes
    written by [strftime("%Y%m%d_%H%M%S")] do. *)
Definition timestamped (db : RuleDatabase) (path : string) : Prop :=
  ∃ c stamp, path = backup_pattern db +:+ String c stamp ∧ is_digit c = true.

End Backups.

(** ** k8s_client.py: the discovery of host names *)
Module K8s.

(** A service as [get_all_dns_resources] reads it.  [load_balancer_ingress]
    is [None] when [status.load_balancer] or its [ingress] list is [None];
    each element of the list is the [ip] of one ingress point, which may be
    [None]. *)
Record Service := mkService {
  metadata_name : string;
  metadata_namespace : string;
  metadata_labels : option (gmap string string);
  metadata_annotations : option (gmap string string);
  spec_type : string;
  load_balancer_ingress : option (list (option string))
}.

(** An ingress resource: its class name, its annotations and the [host] of
    each of its rules. *)
Record Ingress := mkIngress {
  ingress_class_name : option string;
  ingress_annotations : option (gmap string string);
  spec_rules : option (list (option string))
}.

(** What a list call of the cluster API does: it returns the items, raises
    [ApiException], or raises something else (a connection error). *)
Inductive api_result (A : Type) :=
| Items (items : list A)
| ApiException
| OtherException.
Arguments Items {A} items.
Arguments ApiException {A}.
Arguments OtherException {A}.

(** How [get_all_dns_resources] ends: it returns a dictionary, or an
    exception other than [ApiException] leaves it. *)
Inductive discovery :=
| Found (dns_resources : gmap string string)
| Raised.

(** [needle in text] *)
Definition contains (needle text : string) : bool :=
  match String.index 0 needle text with
  | Some _ => true
  | None => false
  end.

Section Discovery.

(** Two built-ins of Python: [s.lower()] and [str(d)] for a dictionary of
    strings. *)
Variable lower : string → string.
Variable str : gmap string string → string.

Definition is_traefik_service (service : Service) : bool :=
  let service_name := lower (metadata_name service) in
  let labels := default ∅ (metadata_labels service) in
  contains "traefik" service_name
  || bool_decide (labels !! "app" = Some "traefik")
  || bool_decide (labels !! "app.kubernetes.io/name" = Some "traefik")
  || contains "traefik" (str labels).

(** The host name of a service that is not Traefik: its
    [dns.sync/hostname] annotation when that is a non-empty string, the
    default format otherwise. *)
Definition hostname_of (service : Service) : string :=
  let annotations := default ∅ (metadata_annotations service) in
  let default_hostname :=
    metadata_name service +:+ "." +:+ metadata_namespace service +:+ ".svc.cluster.local" in
  match annotations !! "dns.sync/hostname" with
  | Some hostname => if bool_decide (hostname ≠ "") then hostname else default_hostname
  | None => default_hostname
  end.

(** The state of the first pass: the dictionary built so far and the
    Traefik address found so far. *)
Definition scan : Type := gmap string string * option string.

(** The body of the loop over the ingress points of a service. *)
Definition visit_address (service : Service) (acc : scan) (ip : option string) : scan :=
  match ip with
  | Some ip =>
      if bool_decide (ip ≠ "") then
        if is_traefik_service service then (acc.1, Some ip)
        else (<[hostname_of service := ip]> acc.1, acc.2)
      else acc
  | None => acc
  end.

(** The body of the loop over the services. *)
Definition visit_service (acc : scan) (service : Service) : scan :=
  if bool_decide (spec_type service = "LoadBalancer") then
    match load_balancer_ingress service with
    | Some addresses => foldl (visit_address service) acc addresses
    | None => acc
    end
  else acc.

Definition is_traefik_ingress (ingress : Ingress) : bool :=
  let annotations := default ∅ (ingress_annotations ingress) in
  bool_decide (ingress_class_name ingress = Some "traefik")
  || contains "traefik.ingress.kubernetes.io" (str annotations)
  || bool_decide (annotations !! "kubernetes.io/ingress.class" = Some "traefik").

(** The body of the loop over the rules of an ingress. *)
Definition visit_rule (traefik_ip : string) (dns_resources : gmap string string)
    (host : option string) : gmap string string :=
  match host with
  | Some host => if bool_decide (host ≠ "") then <[host := traefik_ip]> dns_resources
                 else dns_resources
  | None => dns_resources
  end.

(** The body of the loop over the ingress resources. *)
Definition visit_ingress (traefik_ip : string) (dns_resources : gmap string string)
    (ingress : Ingress) : gmap string string :=
  if is_traefik_ingress ingress then
    match spec_rules ingress with
    | Some rules => foldl (visit_rule traefik_ip) dns_resources rules
    | None => dns_resources
    end
  else dns_resources.

(** [get_all_dns_resources], given what the two list calls answer.  The
    ingress resources are listed only when a Traefik address was found. *)
Definition get_all_dns_resources (services : api_result Service)
    (ingresses : api_result Ingress) : discovery :=
  match services with
  | ApiException => Found ∅
  | OtherException => Raised
  | Items service_list =>
      let '(dns_resources, traefik_ip) := foldl visit_service (∅, None) service_list in
      match traefik_ip with
      | Some traefik_ip =>
          if bool_decide (traefik_ip ≠ "") then
            match ingresses with
            | Items ingress_list =>
                Found (foldl (visit_ingress traefik_ip) dns_resources ingress_list)
            | ApiException => Found dns_resources
            | OtherException => Raised
            end
          else Found dns_resources
      | None => Found dns_resources
      end
  end.

(** [get_dns_resources] of app.py: any exception gives the empty
    dictionary. *)
Definition get_dns_resources (services : api_result Service)
    (ingresses : api_result Ingress) : gmap string string :=
  match get_all_dns_resources services ingresses with
  | Found dns_resources => dns_resources
  | Raised => ∅
  end.

(** The addresses a service contributes: the non-empty [ip] of the ingress
    points of a service of type LoadBalancer. *)
Definition has_address (service : Service) (ip : string) : Prop :=
  spec_type service = "LoadBalancer" ∧ ip ≠ "" ∧
  ∃ addresses, load_balancer_ingress service = Some addresses ∧ Some ip ∈ addresses.

(** The Traefik address after the first pass. *)
Definition traefik_address (service_list : list Service) : option string :=
  (foldl visit_service (∅, None) service_list).2.

(** The host names an ingress resource contributes. *)
Definition has_host (ingress : Ingress) (host : string) : Prop :=
  is_traefik_ingress ingress = true ∧ host ≠ "" ∧
  ∃ rules, spec_rules ingress = Some rules ∧ Some host ∈ rules.

End Discovery.

(** Every entry and the Traefik address of a scan are addresses of services
    of the list. *)
Definition sourced (service_list : list Service) (acc : scan) : Prop :=
  (∀ h ip, acc.1 !! h = Some ip → ∃ s, s ∈ service_list ∧ has_address s ip) ∧
  (∀ ip, acc.2 = Some ip → ∃ s, s ∈ service_list ∧ has_address s ip).

End K8s.

(** ** A small cluster for the examples of the discovery

    A Traefik service, a web service without annotations and a Traefik
    ingress resource.  All names are lower case and no object has labels or
    annotations, so the two built-ins are the identity and the text of the
    empty dictionary. *)
Module Cluster.
Import K8s.

Definition lower (s : string) : string := s.

Definition str (d : gmap string string) : string := "{}".

Definition traefik : Service :=
  mkService "traefik" "kube-system" None None "LoadBalancer" (Some [Some "192.168.1.240"]).

Definition web : Service :=
  mkService "web" "default" None None "LoadBalancer" (Some [None; Some "192.168.1.241"]).

Definition app_ingress : Ingress :=
  mkIngress (Some "traefik") None (Some [Some "app.example.com"]).

End Cluster.

(** ** health.py, and the health handler of app.py *)
Module Health.

(** The two keys of [_health_cache] and of [_consecutive_failures]. *)
Inductive component := adguard | k8s.

#[global] Instance component_eq_dec : EqDecision component.
Proof. solve_decision. Defined.

(** One entry of [_health_cache].  A [datetime] is a number of
    microseconds. *)
Record cache_entry := mkEntry {
  healthy : bool;
  last_check : option Z;
  error : option string
}.

(** The state of a [HealthChecker]. *)
Record HealthChecker := mkChecker {
  _health_cache : component → cache_entry;
  _consecutive_failures : component → nat;
  cache_duration : Z;
  max_consecutive_failures : nat;
  health_check_timeout : nat
}.

(** [_validate_configuration]: [true] when no [ValueError] is raised. *)
Definition _validate_configuration (self : HealthChecker) : bool :=
  negb ((cache_duration self <? 5)%Z || (300 <? cache_duration self)%Z) &&
  negb ((max_consecutive_failures self <? 1) || (10 <? max_consecutive_failures self)) &&
  negb ((health_check_timeout self <? 1) || (60 <? health_check_timeout self)).

(** The checker [__init__] builds from the three settings. *)
Definition __init__ (cache_duration : Z) (max_consecutive_failures health_check_timeout : nat)
    : HealthChecker :=
  mkChecker (λ _, mkEntry false None None) (λ _, 0)
    cache_duration max_consecutive_failures health_check_timeout.

Definition set_cache (self : HealthChecker) (c : component) (e : cache_entry) : HealthChecker :=
  mkChecker (λ c', if decide (c' = c) then e else _health_cache self c')
    (_consecutive_failures self)
    (cache_duration self) (max_consecutive_failures self) (health_check_timeout self).

Definition set_failures (self : HealthChecker) (c : component) (n : nat) : HealthChecker :=
  mkChecker (_health_cache self)
    (λ c', if decide (c' = c) then n else _consecutive_failures self c')
    (cache_duration self) (max_consecutive_failures self) (health_check_timeout self).

(** What the status request to the provider does: it returns with a status
    code, or raises. *)
Inductive probe_result :=
| Answered (status_code : Z)
| Failed.

(** The probes a call makes, in order. *)
Inductive health_event := Probe (c : component).

#[global] Instance health_event_eq_dec : EqDecision health_event.
Proof. solve_decision. Defined.

(** The dictionary [get_health_status] returns, without its [metrics]
    entry. *)
Record health_status := mkStatus {
  status : string;
  timestamp : Z;
  adguard_healthy : bool;
  k8s_healthy : bool;
  adguard_last_check : option Z;
  k8s_last_check : option Z;
  adguard_error : option string;
  k8s_error : option string;
  consecutive_failures : component → nat
}.

(** The result of a method: its value, the checker, the world and the
    probes made. *)
Record run (World A : Type) := mkRun {
  value : A;
  checker : HealthChecker;
  world : World;
  probes : list health_event
}.
Arguments mkRun {World A} value checker world probes.
Arguments value {World A} r.
Arguments checker {World A} r.
Arguments world {World A} r.
Arguments probes {World A} r.

Section Checker.

Context {World : Type}.

(** [session.get(base_url + "/control/status")]; [v1.list_namespace(limit=1)],
    which returns ([true]) or raises ([false]); and [datetime.now()]. *)
Variable status_get : World → probe_result * World.
Variable list_namespace : World → bool * World.
Variable datetime_now : World → Z * World.

(** [_is_cache_valid]: the clock is read only when there was a check. *)
Definition _is_cache_valid (c : component) (self : HealthChecker) (w : World) : run World bool :=
  match last_check (_health_cache self c) with
  | None => mkRun false self w []
  | Some last =>
      let now := (datetime_now w).1 in
      mkRun (bool_decide (now - last < cache_duration self * 1000000)%Z) self
        (datetime_now w).2 []
  end.

(** [_check_adguard_health]: the counter is reset by a status of 200 and
    incremented by any other status and by an exception. *)
Definition _check_adguard_health (self : HealthChecker) (w : World) : run World bool :=
  let w1 := (status_get w).2 in
  match (status_get w).1 with
  | Answered status_code =>
      if bool_decide (status_code = 200%Z)
      then mkRun true (set_failures self adguard 0) w1 [Probe adguard]
      else mkRun false
             (set_failures self adguard (_consecutive_failures self adguard + 1))
             w1 [Probe adguard]
  | Failed =>
      mkRun false (set_failures self adguard (_consecutive_failures self adguard + 1))
        w1 [Probe adguard]
  end.

(** [_check_k8s_health] *)
Definition _check_k8s_health (self : HealthChecker) (w : World) : run World bool :=
  let w1 := (list_namespace w).2 in
  if (list_namespace w).1
  then mkRun true (set_failures self k8s 0) w1 [Probe k8s]
  else mkRun false (set_failures self k8s (_consecutive_failures self k8s + 1))
         w1 [Probe k8s].

Definition _check_health (c : component) : HealthChecker → World → run World bool :=
  match c with
  | adguard => _check_adguard_health
  | k8s => _check_k8s_health
  end.

(** [_update_health_cache] *)
Definition _update_health_cache (c : component) (healthy : bool) (error : option string)
    (self : HealthChecker) (w : World) : run World unit :=
  let now := (datetime_now w).1 in
  mkRun tt (set_cache self c (mkEntry healthy (Some now) error)) (datetime_now w).2 [].

(** The common body of [check_adguard_connectivity] and
    [check_k8s_connectivity]. *)
Definition check_connectivity (c : component) (self : HealthChecker) (w : World) : run World bool :=
  let valid := _is_cache_valid c self w in
  if value valid then
    mkRun (healthy (_health_cache self c)) self (world valid) []
  else
    let checked := _check_health c self (world valid) in
    let updated := _update_health_cache c (value checked) None
                     (checker checked) (world checked) in
    mkRun (value checked) (checker updated) (world updated) (probes checked).

Definition check_adguard_connectivity : HealthChecker → World → run World bool :=
  check_connectivity adguard.

Definition check_k8s_connectivity : HealthChecker → World → run World bool :=
  check_connectivity k8s.

(** [is_healthy] *)
Definition is_healthy (self : HealthChecker) (w : World) : run World bool :=
  let a := check_adguard_connectivity self w in
  let k := check_k8s_connectivity (checker a) (world a) in
  let self2 := checker k in
  let verdict :=
    if (max_consecutive_failures self2 <=? _consecutive_failures self2 adguard) ||
       (max_consecutive_failures self2 <=? _consecutive_failures self2 k8s)
    then false
    else value a && value k in
  mkRun verdict self2 (world k) (probes a ++ probes k).

(** [get_health_status] *)
Definition get_health_status (self : HealthChecker) (w : World) : run World health_status :=
  let a := check_adguard_connectivity self w in
  let k := check_k8s_connectivity (checker a) (world a) in
  let overall := is_healthy (checker k) (world k) in
  let self3 := checker overall in
  let now := (datetime_now (world overall)).1 in
  let w4 := (datetime_now (world overall)).2 in
  mkRun
    (mkStatus (if value overall then "healthy" else "unhealthy") now
       (value a) (value k)
       (last_check (_health_cache self3 adguard)) (last_check (_health_cache self3 k8s))
       (error (_health_cache self3 adguard)) (error (_health_cache self3 k8s))
       (_consecutive_failures self3))
    self3 w4 (probes a ++ probes k ++ probes overall).

(** [force_refresh] *)
Definition force_refresh (self : HealthChecker) : HealthChecker :=
  let forget (e : cache_entry) := mkEntry (healthy e) None (error e) in
  set_cache (set_cache self adguard (forget (_health_cache self adguard)))
    k8s (forget (_health_cache self k8s)).

(** [HealthHandler.do_GET] of app.py: the status code it sends. *)
Definition do_GET (path : string) (self : HealthChecker) (w : World) : run World Z :=
  if bool_decide (path = "/health") then
    let health_data := get_health_status self w in
    mkRun (if bool_decide (status (value health_data) = "healthy") then 200%Z else 503%Z)
      (checker health_data) (world health_data) (probes health_data)
  else mkRun 404%Z self w [].

End Checker.

(** A checker is coherent when a component cached as healthy has no
    consecutive failure counted, and no entry holds an error text. *)
Definition coherent (self : HealthChecker) : Prop :=
  ∀ c, (healthy (_health_cache self c) = true → _consecutive_failures self c = 0) ∧
       error (_health_cache self c) = None.

End Health.

(** * Properties of the gateway client *)
Module ClientProofs.
Import Models AdGuard.

Section Facts.

Context {World : Type}.
Variable session_get : World → get_result * World.
Variable session_post : operation → payload → World → post_result * World.
Variable set_iter : gset string → list string.
Variable cfg : Config.

Local Abbreviation get_rules := (get_rewrite_rules session_get).
Local Abbreviation request_loop := (_make_rule_request_loop session_post cfg).
Local Abbreviation request := (_make_rule_request session_post cfg).
Local Abbreviation add_rule := (add_rewrite_rule session_post cfg).
Local Abbreviation delete_rule := (delete_rewrite_rule session_get session_post cfg).
Local Abbreviation update_rule := (update_rewrite_rule session_get session_post cfg).
Local Abbreviation add_loop := (add_new_rules session_post cfg).
Local Abbreviation update_loop := (update_existing_rules session_get session_post cfg).
Local Abbreviation delete_loop := (delete_obsolete_rules session_get session_post cfg).
Local Abbreviation apply := (apply_changes session_get session_post set_iter cfg).
Local Abbreviation sync := (sync_rules session_get session_post set_iter cfg).

(** *** Running a sequence *)

Lemma bind_run {A B} (c : M A) (k : A → M B) (w : World) :
  bind c k w =
    (value (k (value (c w)) (world_after (c w))),
     world_after (k (value (c w)) (world_after (c w))),
     trace (c w) ++ trace (k (value (c w)) (world_after (c w)))).
Proof.
  unfold bind, value, world_after, trace.
  destruct (c w) as [[a w1] t1]; simpl.
  by destruct (k a w1) as [[b w2] t2].
Qed.

Lemma bind_trace {A B} (c : M A) (k : A → M B) (w : World) :
  trace (bind c k w) = trace (c w) ++ trace (k (value (c w)) (world_after (c w))).
Proof. by rewrite bind_run. Qed.

Lemma bind_value {A B} (c : M A) (k : A → M B) (w : World) :
  value (bind c k w) = value (k (value (c w)) (world_after (c w))).
Proof. by rewrite bind_run. Qed.

Lemma bind_world {A B} (c : M A) (k : A → M B) (w : World) :
  world_after (bind c k w) = world_after (k (value (c w)) (world_after (c w))).
Proof. by rewrite bind_run. Qed.

Lemma http_post_trace op p w : trace (http_post session_post op p w) = [Post op p].
Proof. unfold http_post, trace. by destruct (session_post op p w). Qed.

Lemma http_post_value op p w :
  value (http_post session_post op p w) = (session_post op p w).1.
Proof. unfold http_post, value. by destruct (session_post op p w). Qed.

Lemma http_post_world op p w :
  world_after (http_post session_post op p w) = (session_post op p w).2.
Proof. unfold http_post, world_after. by destruct (session_post op p w). Qed.

Lemma posts_app t1 t2 : posts (t1 ++ t2) = posts t1 ++ posts t2.
Proof. apply omap_app. Qed.

Lemma sleeps_app t1 t2 : sleeps (t1 ++ t2) = sleeps t1 ++ sleeps t2.
Proof. apply omap_app. Qed.

Lemma elem_of_posts op p t : (op, p) ∈ posts t ↔ Post op p ∈ t.
Proof.
  unfold posts. rewrite list_elem_of_omap. split.
  - intros (e & He & Hop). destruct e; simplify_eq. done.
  - intros He. by exists (Post op p).
Qed.

(** *** [get_rewrite_rules] *)

Lemma get_rewrite_rules_trace w : trace (get_rules w) = [Get].
Proof.
  unfold get_rewrite_rules. rewrite bind_trace.
  unfold http_get at 1. destruct (session_get w) as [r w'] eqn:Hg.
  unfold http_get, value, world_after, trace; rewrite Hg; simpl.
  destruct r as [code body|]; [|done].
  case_bool_decide; [done|]. by destruct body.
Qed.

Lemma get_rewrite_rules_value w : value (get_rules w) = listed (session_get w).1.
Proof.
  unfold get_rewrite_rules. rewrite bind_value.
  unfold http_get, value, world_after. destruct (session_get w) as [r w'] eqn:Hg; simpl.
  destruct r as [code body|]; [|done].
  case_bool_decide as Hc.
  - simpl. destruct code as [|p|p]; try done.
    do 8 (destruct p as [p|p|]; try done).
  - subst code. by destruct body.
Qed.

Lemma get_rewrite_rules_world w : world_after (get_rules w) = (session_get w).2.
Proof.
  unfold get_rewrite_rules. rewrite bind_world.
  unfold http_get, value, world_after. destruct (session_get w) as [r w'] eqn:Hg; simpl.
  destruct r as [code body|]; [|done].
  case_bool_decide; [done|]. by destruct body.
Qed.

Lemma rules_of_items_keyed data : keyed_by_domain (rules_of_items data).
Proof.
  unfold rules_of_items.
  assert (∀ m, keyed_by_domain m → keyed_by_domain (foldl add_item m data)) as H.
  { induction data as [|it data IH]; intros m Hm; [done|].
    simpl. apply IH. destruct it as [d a en|]; [|done].
    intros d' r. simpl. rewrite lookup_insert. case_decide; [|apply Hm].
    intros [= <-]. done. }
  apply H. intros d r. by rewrite lookup_empty.
Qed.

Lemma listed_keyed r : keyed_by_domain (listed r).
Proof.
  destruct r as [code body|]; simpl; [|by intros ??; rewrite lookup_empty].
  destruct code as [|p|p]; try by intros ??; rewrite lookup_empty.
  do 8 (destruct p as [p|p|]; try by intros ??; rewrite lookup_empty).
  destruct body; try by intros ??; rewrite lookup_empty.
  apply rules_of_items_keyed.
Qed.

(** *** One request with its retries *)

Lemma request_loop_posts attempts op p w x :
  x ∈ posts (trace (request_loop attempts op p w)) → x = (op, p).
Proof.
  revert w. induction attempts as [|attempt rest IH]; intros w; simpl.
  { by intros ?%elem_of_nil. }
  rewrite bind_trace, http_post_trace, http_post_value, http_post_world.
  destruct (succeeded _); simpl.
  { intros ?%list_elem_of_singleton. done. }
  rewrite elem_of_cons. intros [?|Hx]; [done|]. revert Hx.
  rewrite bind_trace, posts_app.
  destruct (attempt <? _); simpl; apply IH.
Qed.

Lemma request_loop_post_count attempts op p w :
  length (posts (trace (request_loop attempts op p w))) ≤ length attempts.
Proof.
  revert w. induction attempts as [|attempt rest IH]; intros w; simpl; [done|].
  rewrite bind_trace, http_post_trace, http_post_value, http_post_world.
  destruct (succeeded _); simpl; [lia|].
  rewrite bind_trace, posts_app, length_app.
  destruct (attempt <? _); unfold sleep, ret, trace, world_after; simpl;
    specialize (IH (session_post op p w).2); unfold trace in IH; lia.
Qed.

Lemma request_loop_first attempts op p w :
  attempts ≠ [] → (op, p) ∈ posts (trace (request_loop attempts op p w)).
Proof.
  destruct attempts as [|attempt rest]; [done|]. intros _. simpl.
  rewrite bind_trace, http_post_trace. simpl. apply list_elem_of_here.
Qed.

Lemma request_loop_sleeps attempts op p w :
  Forall (λ n, n = retry_delay cfg) (sleeps (trace (request_loop attempts op p w))).
Proof.
  revert w. induction attempts as [|attempt rest IH]; intros w; simpl; [done|].
  rewrite bind_trace, http_post_trace, http_post_value, http_post_world.
  destruct (succeeded _); simpl; [done|].
  rewrite bind_trace, sleeps_app.
  destruct (attempt <? _); simpl; [apply Forall_cons; split; [done|]|]; apply IH.
Qed.

(** When every attempt fails, the loop over [range(first, max_retries)] posts
    once per attempt and sleeps between two attempts, never after the last. *)
Lemma request_loop_exhausted first count op p w :
  first + count = max_retries cfg →
  value (request_loop (seq first count) op p w) = false →
  posts (trace (request_loop (seq first count) op p w)) = replicate count (op, p) ∧
  sleeps (trace (request_loop (seq first count) op p w)) =
    replicate (count - 1) (retry_delay cfg).
Proof.
  revert first w. induction count as [|count IH]; intros first w Hsum; simpl; [done|].
  rewrite bind_trace, bind_value, http_post_trace, http_post_value, http_post_world.
  destruct (succeeded _); simpl; [done|].
  rewrite bind_trace, bind_value, posts_app, sleeps_app.
  destruct (first <? max_retries cfg - 1) eqn:Hlt;
    cbn [sleep ret trace world_after value fst snd posts sleeps omap list_omap app];
    intros Hv.
  - apply Nat.ltb_lt in Hlt.
    destruct (IH (S first) (session_post op p w).2) as [-> ->]; [lia|done|].
    split; [done|]. destruct count as [|count]; [lia|]. simpl.
    by rewrite Nat.sub_0_r.
  - apply Nat.ltb_ge in Hlt.
    destruct (IH (S first) (session_post op p w).2) as [-> ->]; [lia|done|].
    split; [done|]. by replace count with 0 by lia.
Qed.

Lemma request_posts op p w x : x ∈ posts (trace (request op p w)) → x = (op, p).
Proof. apply request_loop_posts. Qed.

Lemma request_issued op p w :
  1 ≤ max_retries cfg → (op, p) ∈ posts (trace (request op p w)).
Proof.
  intros Hn. apply request_loop_first.
  destruct (max_retries cfg); [lia|done].
Qed.

(** A request that leaves the world as it is, whatever its answer, leaves
    it so after all its retries. *)
Lemma request_loop_world_stable attempts op p w :
  (session_post op p w).2 = w →
  world_after (request_loop attempts op p w) = w.
Proof.
  intros Hw. induction attempts as [|attempt rest IH]; simpl; [done|].
  rewrite bind_world, http_post_value, http_post_world, Hw.
  destruct (succeeded _); [done|].
  rewrite bind_world. by destruct (attempt <? _).
Qed.

(** *** The three loops *)

Ltac run_simpl :=
  cbn [sleep ret trace world_after value fst snd posts sleeps omap list_omap app].

Lemma add_loop_posts target domains n w x :
  x ∈ posts (trace (add_loop target domains n w)) →
  ∃ d rule, d ∈ domains ∧ target !! d = Some rule ∧ x = (OpAdd, RulePayload rule).
Proof.
  revert n w. induction domains as [|d rest IH]; intros n w; simpl.
  { run_simpl. by intros ?%elem_of_nil. }
  destruct (target !! d) as [rule|] eqn:Ht; [|run_simpl; by intros ?%elem_of_nil].
  rewrite bind_trace, posts_app, elem_of_app. intros [Hx|Hx].
  - apply request_posts in Hx. exists d, rule. split; [apply list_elem_of_here|done].
  - apply IH in Hx as (d' & rule' & Hd' & Ht' & ->).
    exists d', rule'. split; [by apply list_elem_of_further|done].
Qed.

Lemma add_loop_complete target domains n w d rule :
  1 ≤ max_retries cfg →
  (∀ d', d' ∈ domains → is_Some (target !! d')) →
  d ∈ domains → target !! d = Some rule →
  (OpAdd, RulePayload rule) ∈ posts (trace (add_loop target domains n w)).
Proof.
  intros Hn. revert n w. induction domains as [|d0 rest IH]; intros n w Hall Hd Ht.
  { by apply elem_of_nil in Hd. }
  simpl. destruct (Hall d0) as [rule0 Ht0]; [apply list_elem_of_here|]. rewrite Ht0.
  rewrite bind_trace, posts_app, elem_of_app.
  apply elem_of_cons in Hd as [->|Hd].
  - left. simplify_eq. by apply request_issued.
  - right. apply IH; [|done..]. intros d' Hd'. apply Hall. by apply list_elem_of_further.
Qed.

Lemma add_loop_value target domains n w :
  (∀ d', d' ∈ domains → is_Some (target !! d')) →
  is_Some (value (add_loop target domains n w)).
Proof.
  revert n w. induction domains as [|d0 rest IH]; intros n w Hall; simpl.
  { by eexists. }
  destruct (Hall d0) as [rule0 Ht0]; [apply list_elem_of_here|]. rewrite Ht0.
  rewrite bind_value. apply IH. intros d' Hd'. apply Hall. by apply list_elem_of_further.
Qed.

Lemma update_rule_posts rule current w x :
  x ∈ posts (trace (update_rule rule (Some current) w)) → x = update_request current rule.
Proof.
  unfold update_rewrite_rule, update_request. rewrite bind_trace. run_simpl.
  destruct (current !! domain rule); apply request_posts.
Qed.

Lemma update_rule_issued rule current w :
  1 ≤ max_retries cfg →
  update_request current rule ∈ posts (trace (update_rule rule (Some current) w)).
Proof.
  intros Hn. unfold update_rewrite_rule, update_request. rewrite bind_trace. run_simpl.
  destruct (current !! domain rule); by apply request_issued.
Qed.

Lemma update_loop_posts target current domains n w x :
  x ∈ posts (trace (update_loop target current domains n w)) →
  ∃ d rule current_rule,
    d ∈ domains ∧ target !! d = Some rule ∧ current !! d = Some current_rule ∧
    needs_update current_rule rule = true ∧ x = update_request current rule.
Proof.
  revert n w. induction domains as [|d rest IH]; intros n w; simpl.
  { run_simpl. by intros ?%elem_of_nil. }
  destruct (target !! d) as [rule|] eqn:Ht; [|run_simpl; by intros ?%elem_of_nil].
  destruct (current !! d) as [current_rule|] eqn:Hc; [|run_simpl; by intros ?%elem_of_nil].
  destruct (needs_update current_rule rule) eqn:Hneed.
  - rewrite bind_trace, posts_app, elem_of_app. intros [Hx|Hx].
    + apply update_rule_posts in Hx. exists d, rule, current_rule.
      split; [apply list_elem_of_here|done].
    + apply IH in Hx as (d' & rule' & c' & Hd' & H').
      exists d', rule', c'. split; [by apply list_elem_of_further|done].
  - intros Hx. apply IH in Hx as (d' & rule' & c' & Hd' & H').
    exists d', rule', c'. split; [by apply list_elem_of_further|done].
Qed.

Lemma update_loop_complete target current domains n w d rule current_rule :
  1 ≤ max_retries cfg →
  (∀ d', d' ∈ domains → is_Some (target !! d') ∧ is_Some (current !! d')) →
  d ∈ domains → target !! d = Some rule → current !! d = Some current_rule →
  needs_update current_rule rule = true →
  update_request current rule ∈ posts (trace (update_loop target current domains n w)).
Proof.
  intros Hn. revert n w.
  induction domains as [|d0 rest IH]; intros n w Hall Hd Ht Hc Hneed.
  { by apply elem_of_nil in Hd. }
  simpl. destruct (Hall d0) as [[rule0 Ht0] [c0 Hc0]]; [apply list_elem_of_here|].
  rewrite Ht0, Hc0.
  assert (∀ d', d' ∈ rest → is_Some (target !! d') ∧ is_Some (current !! d')) as Hrest.
  { intros d' Hd'. apply Hall. by apply list_elem_of_further. }
  apply elem_of_cons in Hd as [->|Hd].
  - simplify_eq. rewrite Hneed, bind_trace, posts_app, elem_of_app.
    left. by apply update_rule_issued.
  - destruct (needs_update c0 rule0).
    + rewrite bind_trace, posts_app, elem_of_app. right. by apply IH.
    + by apply IH.
Qed.

Lemma update_loop_value target current domains n w :
  (∀ d', d' ∈ domains → is_Some (target !! d') ∧ is_Some (current !! d')) →
  is_Some (value (update_loop target current domains n w)).
Proof.
  revert n w. induction domains as [|d0 rest IH]; intros n w Hall; simpl.
  { by eexists. }
  destruct (Hall d0) as [[rule0 Ht0] [c0 Hc0]]; [apply list_elem_of_here|].
  rewrite Ht0, Hc0.
  assert (∀ d', d' ∈ rest → is_Some (target !! d') ∧ is_Some (current !! d')) as Hrest.
  { intros d' Hd'. apply Hall. by apply list_elem_of_further. }
  destruct (needs_update c0 rule0); [rewrite bind_value|]; by apply IH.
Qed.

Lemma delete_rule_posts d current w x :
  x ∈ posts (trace (delete_rule d (Some current) w)) →
  ∃ rule, current !! d = Some rule ∧ x = (OpDelete, DeletePayload d (answer rule)).
Proof.
  unfold delete_rewrite_rule. rewrite bind_trace. run_simpl.
  destruct (current !! d) as [rule|]; [|run_simpl; by intros ?%elem_of_nil].
  intros ->%request_posts. by exists rule.
Qed.

Lemma delete_rule_issued d rule current w :
  1 ≤ max_retries cfg → current !! d = Some rule →
  (OpDelete, DeletePayload d (answer rule)) ∈ posts (trace (delete_rule d (Some current) w)).
Proof.
  intros Hn Hc. unfold delete_rewrite_rule. rewrite bind_trace. run_simpl.
  rewrite Hc. by apply request_issued.
Qed.

Lemma delete_loop_posts current domains n w x :
  x ∈ posts (trace (delete_loop current domains n w)) →
  ∃ d rule, d ∈ domains ∧ current !! d = Some rule ∧
            x = (OpDelete, DeletePayload d (answer rule)).
Proof.
  revert n w. induction domains as [|d rest IH]; intros n w; simpl.
  { run_simpl. by intros ?%elem_of_nil. }
  rewrite bind_trace, posts_app, elem_of_app. intros [Hx|Hx].
  - apply delete_rule_posts in Hx as (rule & Hc & ->).
    exists d, rule. split; [apply list_elem_of_here|done].
  - apply IH in Hx as (d' & rule' & Hd' & H').
    exists d', rule'. split; [by apply list_elem_of_further|done].
Qed.

Lemma delete_loop_complete current domains n w d rule :
  1 ≤ max_retries cfg → d ∈ domains → current !! d = Some rule →
  (OpDelete, DeletePayload d (answer rule)) ∈ posts (trace (delete_loop current domains n w)).
Proof.
  intros Hn. revert n w. induction domains as [|d0 rest IH]; intros n w Hd Hc.
  { by apply elem_of_nil in Hd. }
  simpl. rewrite bind_trace, posts_app, elem_of_app.
  apply elem_of_cons in Hd as [->|Hd].
  - left. by apply delete_rule_issued.
  - right. by apply IH.
Qed.

Lemma delete_loop_value current domains n w :
  is_Some (value (delete_loop current domains n w)).
Proof.
  revert n w. induction domains as [|d0 rest IH]; intros n w; simpl.
  { by eexists. }
  rewrite bind_value. apply IH.
Qed.

(** The world after each loop is the fold of its turns. *)
Lemma add_loop_world target domains n w :
  (∀ d', d' ∈ domains → is_Some (target !! d')) →
  world_after (add_loop target domains n w) =
    foldl (add_step session_post cfg target) w domains.
Proof.
  revert n w. induction domains as [|d rest IH]; intros n w Hall; simpl; [done|].
  destruct (Hall d) as [rule Ht]; [apply list_elem_of_here|].
  unfold add_step at 2. rewrite Ht, bind_world. apply IH.
  intros d' Hd'. apply Hall. by apply list_elem_of_further.
Qed.

Lemma update_loop_world target current domains n w :
  (∀ d', d' ∈ domains → is_Some (target !! d') ∧ is_Some (current !! d')) →
  world_after (update_loop target current domains n w) =
    foldl (update_step session_get session_post cfg target current) w domains.
Proof.
  revert n w. induction domains as [|d rest IH]; intros n w Hall; simpl; [done|].
  destruct (Hall d) as [[rule Ht] [c Hc]]; [apply list_elem_of_here|].
  assert (∀ d', d' ∈ rest → is_Some (target !! d') ∧ is_Some (current !! d')) as Hrest.
  { intros d' Hd'. apply Hall. by apply list_elem_of_further. }
  unfold update_step at 2. rewrite Ht, Hc.
  destruct (needs_update c rule); [rewrite bind_world|]; by apply IH.
Qed.

Lemma delete_loop_world current domains n w :
  world_after (delete_loop current domains n w) =
    foldl (delete_step session_get session_post cfg current) w domains.
Proof.
  revert n w. induction domains as [|d rest IH]; intros n w; simpl; [done|].
  rewrite bind_world. apply IH.
Qed.

(** A property kept by every turn of a loop holds after the loop, and what a
    turn establishes for its element and no later turn destroys holds for
    every element. *)
Lemma foldl_invariant {A B} (f : A → B → A) (Inv : A → Prop) (Q : B → A → Prop)
    (l : list B) (a : A) :
  (∀ a b, b ∈ l → Inv a → Inv (f a b) ∧ Q b (f a b)) →
  (∀ a b b', b ∈ l → Inv a → Q b' a → Q b' (f a b)) →
  Inv a →
  Inv (foldl f a l) ∧ (∀ b, Q b a → Q b (foldl f a l)) ∧ (∀ b, b ∈ l → Q b (foldl f a l)).
Proof.
  intros Hstep Hkeep.
  assert (∀ l' a', (∀ b, b ∈ l' → b ∈ l) → Inv a' →
                   Inv (foldl f a' l') ∧
                   (∀ b, Q b a' → Q b (foldl f a' l')) ∧
                   (∀ b, b ∈ l' → Q b (foldl f a' l'))) as Hgen.
  { induction l' as [|x l' IH]; intros a' Hsub Hinv; simpl.
    { split; [done|]. split; [done|]. by intros b ?%elem_of_nil. }
    assert (x ∈ l) as Hx by (apply Hsub, list_elem_of_here).
    destruct (Hstep a' x Hx Hinv) as [Hinv' Hq].
    destruct (IH (f a' x)) as (H1 & H2 & H3); [|done|].
    { intros b Hb. apply Hsub. by apply list_elem_of_further. }
    split; [done|]. split.
    - intros b Hb. apply H2. by apply Hkeep.
    - intros b [->|Hb]%elem_of_cons; [by apply H2|by apply H3]. }
  intros Hinv. by apply Hgen.
Qed.

(** *** The whole run *)

(** A [for] loop visits every element of a set once, in some order. *)
Hypothesis set_iter_perm : ∀ s, set_iter s ≡ₚ elements s.

Lemma elem_of_set_iter s d : d ∈ set_iter s ↔ d ∈ s.
Proof. by rewrite set_iter_perm, elem_of_elements. Qed.

Lemma add_domains_known target current d :
  d ∈ set_iter (to_add_or_update target current) → is_Some (target !! d).
Proof.
  rewrite elem_of_set_iter. unfold to_add_or_update.
  rewrite elem_of_difference, elem_of_dom. tauto.
Qed.

Lemma update_domains_known target current d :
  d ∈ set_iter (to_update target current) →
  is_Some (target !! d) ∧ is_Some (current !! d).
Proof.
  rewrite elem_of_set_iter. unfold to_update.
  rewrite elem_of_intersection, !elem_of_dom. tauto.
Qed.

Lemma apply_changes_trace target current managed w :
  trace (apply target current managed w) =
    trace (add_loop target (set_iter (to_add_or_update target current)) 0 w) ++
    trace (update_loop target current (set_iter (to_update target current)) 0
             (world_after (add_loop target (set_iter (to_add_or_update target current)) 0 w))) ++
    trace (delete_loop current (set_iter (to_delete managed target)) 0
             (world_after (update_loop target current (set_iter (to_update target current)) 0
                (world_after (add_loop target (set_iter (to_add_or_update target current)) 0 w))))).
Proof.
  unfold apply_changes. rewrite bind_trace. f_equal.
  destruct (add_loop_value target (set_iter (to_add_or_update target current)) 0 w)
    as [c ->]; [apply add_domains_known|].
  rewrite bind_trace. f_equal.
  destruct (update_loop_value target current (set_iter (to_update target current)) 0
             (world_after (add_loop target (set_iter (to_add_or_update target current)) 0 w)))
    as [u ->]; [apply update_domains_known|].
  rewrite bind_trace.
  destruct (delete_loop_value current (set_iter (to_delete managed target)) 0
             (world_after (update_loop target current (set_iter (to_update target current)) 0
                (world_after (add_loop target (set_iter (to_add_or_update target current)) 0 w)))))
    as [x ->].
  run_simpl. by rewrite app_nil_r.
Qed.

Lemma apply_changes_value target current managed w :
  value (apply target current managed w) = true.
Proof.
  unfold apply_changes. rewrite bind_value.
  destruct (add_loop_value target (set_iter (to_add_or_update target current)) 0 w)
    as [c ->]; [apply add_domains_known|].
  rewrite bind_value.
  destruct (update_loop_value target current (set_iter (to_update target current)) 0
             (world_after (add_loop target (set_iter (to_add_or_update target current)) 0 w)))
    as [u ->]; [apply update_domains_known|].
  rewrite bind_value.
  by destruct (delete_loop_value current (set_iter (to_delete managed target)) 0
             (world_after (update_loop target current (set_iter (to_update target current)) 0
                (world_after (add_loop target (set_iter (to_add_or_update target current)) 0 w)))))
    as [x ->].
Qed.

Lemma apply_changes_world target current managed w :
  world_after (apply target current managed w) =
    foldl (delete_step session_get session_post cfg current)
      (foldl (update_step session_get session_post cfg target current)
         (foldl (add_step session_post cfg target) w
            (set_iter (to_add_or_update target current)))
         (set_iter (to_update target current)))
      (set_iter (to_delete managed target)).
Proof.
  rewrite <- delete_loop_world with (n := 0).
  rewrite <- update_loop_world with (n := 0) by apply update_domains_known.
  rewrite <- add_loop_world with (n := 0) by apply add_domains_known.
  unfold apply_changes. rewrite bind_world.
  destruct (add_loop_value target (set_iter (to_add_or_update target current)) 0 w)
    as [c ->]; [apply add_domains_known|].
  rewrite bind_world.
  destruct (update_loop_value target current (set_iter (to_update target current)) 0
             (world_after (add_loop target (set_iter (to_add_or_update target current)) 0 w)))
    as [u ->]; [apply update_domains_known|].
  rewrite bind_world.
  by destruct (delete_loop_value current (set_iter (to_delete managed target)) 0
             (world_after (update_loop target current (set_iter (to_update target current)) 0
                (world_after (add_loop target (set_iter (to_add_or_update target current)) 0 w)))))
    as [x ->].
Qed.

(** Every request of the apply phase is a planned one. *)
Lemma apply_changes_sound target current managed w op p :
  (op, p) ∈ posts (trace (apply target current managed w)) →
  planned target current managed op p.
Proof.
  rewrite apply_changes_trace, !posts_app, !elem_of_app. intros [Hx|[Hx|Hx]].
  - apply add_loop_posts in Hx as (d & rule & Hd & Ht & [= -> ->]).
    apply elem_of_set_iter in Hd. by eapply planned_add.
  - apply update_loop_posts in Hx as (d & rule & c & Hd & Ht & Hc & Hneed & Hx).
    apply elem_of_set_iter in Hd. unfold update_request in Hx.
    destruct (current !! domain rule) as [old|] eqn:Hold; injection Hx as -> ->.
    + by eapply planned_update.
    + by eapply planned_update_unlisted.
  - apply delete_loop_posts in Hx as (d & rule & Hd & Hc & [= -> ->]).
    apply elem_of_set_iter in Hd. by eapply planned_delete.
Qed.

(** Every planned request is posted, whatever the provider answers to the
    others. *)
Lemma apply_changes_complete target current managed w op p :
  1 ≤ max_retries cfg →
  planned target current managed op p →
  (op, p) ∈ posts (trace (apply target current managed w)).
Proof.
  intros Hn Hp. rewrite apply_changes_trace, !posts_app, !elem_of_app.
  destruct Hp as [d rule Hd Ht|d rule c old Hd Ht Hc Hneed Hold
                 |d rule c Hd Ht Hc Hneed Hold|d rule Hd Hc].
  - left. eapply add_loop_complete; [done|apply add_domains_known| |done].
    by apply elem_of_set_iter.
  - right; left.
    replace (OpUpdate, _) with (update_request current rule)
      by (unfold update_request; by rewrite Hold).
    eapply update_loop_complete; [done|apply update_domains_known| |done..].
    by apply elem_of_set_iter.
  - right; left.
    replace (OpAdd, _) with (update_request current rule)
      by (unfold update_request; by rewrite Hold).
    eapply update_loop_complete; [done|apply update_domains_known| |done..].
    by apply elem_of_set_iter.
  - right; right. apply delete_loop_complete; [done| |done].
    by apply elem_of_set_iter.
Qed.

(** [sync_rules], unfolded once: the list call, then either an early return
    or the apply phase. *)
Lemma sync_rules_run target managed w :
  sync target managed w =
    let current := listed (session_get w).1 in
    let w1 := (session_get w).2 in
    if aborted cfg target managed current then (false, w1, [Get])
    else (value (apply target current (app_managed_domains managed) w1),
          world_after (apply target current (app_managed_domains managed) w1),
          Get :: trace (apply target current (app_managed_domains managed) w1)).
Proof.
  unfold sync_rules. rewrite bind_run.
  rewrite get_rewrite_rules_trace, get_rewrite_rules_value, get_rewrite_rules_world.
  unfold aborted. simpl.
  case_bool_decide; [done|]. simpl.
  destruct (safety_check_failed _ _ _); [done|].
  by destruct (apply _ _ _ _) as [[??]?].
Qed.

Lemma sync_rules_aborted target managed w :
  aborted cfg target managed (listed (session_get w).1) = true →
  sync target managed w = (false, (session_get w).2, [Get]).
Proof. intros Ha. rewrite sync_rules_run. simpl. by rewrite Ha. Qed.

Lemma sync_rules_value target managed w :
  value (sync target managed w) = negb (aborted cfg target managed (listed (session_get w).1)).
Proof.
  rewrite sync_rules_run. simpl. destruct (aborted _ _ _ _); [done|].
  apply apply_changes_value.
Qed.

Lemma sync_rules_sound target managed w op p :
  (op, p) ∈ posts (trace (sync target managed w)) →
  planned target (listed (session_get w).1) (app_managed_domains managed) op p.
Proof.
  rewrite sync_rules_run. simpl. destruct (aborted _ _ _ _).
  - run_simpl. by intros ?%elem_of_nil.
  - unfold trace at 1. simpl. apply apply_changes_sound.
Qed.

Lemma sync_rules_complete target managed w op p :
  1 ≤ max_retries cfg →
  aborted cfg target managed (listed (session_get w).1) = false →
  planned target (listed (session_get w).1) (app_managed_domains managed) op p →
  (op, p) ∈ posts (trace (sync target managed w)).
Proof.
  intros Hn Ha Hp. rewrite sync_rules_run. simpl. rewrite Ha.
  unfold trace at 1. simpl. by apply apply_changes_complete.
Qed.

(** *** Ownership of deletions *)

(** C1. For every target, managed and remote state, the deletion set is a
    subset of the managed domains and disjoint from the domains that are
    remote but not managed; every delete request a run posts is about a
    managed domain that is not a target, and no delete request is ever posted
    for a remote domain that is not managed. *)
Theorem deletions_only_of_managed target managed w :
  let owned := app_managed_domains managed in
  to_delete owned target ⊆ owned ∧
  (∀ current : gmap string RewriteRule,
     to_delete owned target ∩ (dom current ∖ owned) = ∅) ∧
  (∀ p, (OpDelete, p) ∈ posts (trace (sync target managed w)) →
        payload_domain p ∈ owned ∧ payload_domain p ∉ dom target) ∧
  (∀ d a, d ∈ dom (listed (session_get w).1) → d ∉ owned →
          (OpDelete, DeletePayload d a) ∉ posts (trace (sync target managed w))).
Proof.
  intros owned.
  assert (∀ p, (OpDelete, p) ∈ posts (trace (sync target managed w)) →
               payload_domain p ∈ owned ∧ payload_domain p ∉ dom target) as Hdel.
  { intros p Hp. apply sync_rules_sound in Hp.
    inversion Hp as [| | |d rule Hd Hc]; subst. simpl.
    unfold to_delete in Hd. by apply elem_of_difference in Hd. }
  unfold to_delete. split.
  { intros d [Hd _]%elem_of_difference. done. }
  split.
  { intros current. apply elem_of_equiv_empty_L.
    intros d [[Hd _]%elem_of_difference [_ Hn]%elem_of_difference]%elem_of_intersection.
    done. }
  split; [done|].
  intros d a _ Hd Hp. apply Hdel in Hp as [Hp _]. done.
Qed.

(** *** The diff *)

Lemma needs_update_spec current_rule rule :
  needs_update current_rule rule = true ↔
  answer current_rule ≠ answer rule ∨ enabled current_rule ≠ enabled rule.
Proof.
  unfold needs_update.
  by rewrite orb_true_iff, !negb_true_iff, !bool_decide_eq_false.
Qed.

Lemma planned_update_inv target current managed td ta ud ua :
  planned target current managed OpUpdate (UpdatePayload td ta ud ua) →
  ∃ d rule current_rule old_rule,
    target !! d = Some rule ∧ current !! d = Some current_rule ∧
    needs_update current_rule rule = true ∧
    td = domain rule ∧ ta = answer old_rule ∧ ua = answer rule.
Proof. inversion 1; subst. by eauto 10. Qed.

Lemma elem_of_to_change target current d :
  d ∈ to_change target current ↔
  ∃ rule current_rule,
    target !! d = Some rule ∧ current !! d = Some current_rule ∧
    (answer current_rule ≠ answer rule ∨ enabled current_rule ≠ enabled rule).
Proof.
  unfold to_change, to_update, differs, needs_update.
  rewrite elem_of_filter, elem_of_intersection, !elem_of_dom. split.
  - intros [Hd [[c Hc] [r Hr]]]. rewrite Hr, Hc in Hd.
    exists r, c. split; [done|]. split; [done|].
    apply Is_true_true, orb_true_iff in Hd.
    destruct Hd as [Hd|Hd]; apply negb_true_iff, bool_decide_eq_false in Hd; tauto.
  - intros (r & c & Hr & Hc & Hne). rewrite Hr, Hc. split; [|by eauto].
    apply Is_true_true, orb_true_iff.
    destruct Hne as [Hne|Hne]; [left|right];
      by apply negb_true_iff, bool_decide_eq_false.
Qed.

Lemma needs_update_to_change target current d rule current_rule :
  target !! d = Some rule → current !! d = Some current_rule →
  needs_update current_rule rule = true ↔ d ∈ to_change target current.
Proof.
  intros Ht Hc. unfold to_change, to_update, differs.
  rewrite elem_of_filter, Ht, Hc, elem_of_intersection, !elem_of_dom.
  rewrite Is_true_true. split; [|tauto]. intros Hn. by eauto.
Qed.

(** C4. The plan: the domains to add are the target domains the provider
    lacks, the domains to change are the common domains whose rule differs in
    answer or enabled flag.  A run that is not stopped early posts an add
    exactly for the former and an update exactly for the latter, and posts
    nothing about a common domain whose rule already matches.  In the
    three-way scenario the plan is add [y], change nothing, delete [z]. *)
Theorem diff_plan target managed w :
  let current := listed (session_get w).1 in
  let run := sync target managed w in
  ((∀ d, d ∈ to_add_or_update target current ↔ d ∈ dom target ∧ d ∉ dom current) ∧
   (∀ d, d ∈ to_change target current ↔
         ∃ rule current_rule,
           target !! d = Some rule ∧ current !! d = Some current_rule ∧
           (answer current_rule ≠ answer rule ∨ enabled current_rule ≠ enabled rule))) ∧
  (1 ≤ max_retries cfg → keyed_by_domain target →
   aborted cfg target managed current = false →
   (∀ rule, (OpAdd, RulePayload rule) ∈ posts (trace run) ↔
            ∃ d, d ∈ dom target ∖ dom current ∧ target !! d = Some rule) ∧
   (∀ d rule current_rule,
      target !! d = Some rule → current !! d = Some current_rule →
      (OpUpdate, UpdatePayload d (answer current_rule) d (answer rule)) ∈ posts (trace run) ↔
      answer current_rule ≠ answer rule ∨ enabled current_rule ≠ enabled rule) ∧
   (∀ d, d ∈ dom target ∩ dom current → d ∉ to_change target current →
         ∀ op p, (op, p) ∈ posts (trace run) → payload_domain p ≠ d)) ∧
  (to_add_or_update Scenario.desired Scenario.remote = {["y"]} ∧
   to_change Scenario.desired Scenario.remote = ∅ ∧
   to_delete (dom Scenario.managed) Scenario.desired = {["z"]}).
Proof.
  intros current run. split; [|split].
  - split; [|apply elem_of_to_change].
    intros d. unfold to_add_or_update. by rewrite elem_of_difference.
  - intros Hn Hkey Hrun.
    assert (∀ d rule c, target !! d = Some rule → current !! d = Some c →
                        current !! domain rule = Some c) as Hold.
    { intros d rule c Ht Hc. by rewrite (Hkey d rule Ht). }
    split; [|split].
    + intros rule. split.
      * intros Hp. apply sync_rules_sound in Hp. fold current in Hp.
        inversion Hp as [d r Hd Ht|
                        |d r c Hd Ht Hc Hneed Hnone|]; subst.
        -- by exists d.
        -- by rewrite (Hold d rule c) in Hnone.
      * intros (d & Hd & Ht). apply sync_rules_complete; [done..|].
        by eapply planned_add.
    + intros d rule c Ht Hc. split.
      * intros Hp. apply sync_rules_sound in Hp. fold current in Hp.
        apply planned_update_inv in Hp as (d' & r & c' & old & Ht' & Hc' & Hneed & Hdom & _ & Hans).
        assert (d' = d) as -> by (rewrite Hdom; symmetry; by apply Hkey).
        simplify_eq. by apply needs_update_spec.
      * intros Hne. apply sync_rules_complete; [done..|].
        assert (domain rule = d) as Hd by by apply Hkey.
        subst d.
        apply (planned_update _ _ _ (domain rule) rule c c); [| done | done | | done].
        -- unfold to_update. rewrite elem_of_intersection, !elem_of_dom. by eauto.
        -- by apply needs_update_spec.
    + intros d [Hdt Hdc]%elem_of_intersection Hsame op p Hp Hdom.
      apply sync_rules_sound in Hp. fold current in Hp.
      inversion Hp as [d' r Hd Ht|d' r c old Hd Ht Hc Hneed Hold'
                      |d' r c Hd Ht Hc Hneed Hnone|d' r Hd Hc]; subst; simpl in *.
      * rewrite (Hkey d' r Ht) in Hdt, Hdc.
        unfold to_add_or_update in Hd. apply elem_of_difference in Hd. tauto.
      * apply Hsame. rewrite (Hkey d' r Ht).
        by apply (needs_update_to_change target current d' r c).
      * by rewrite (Hold d' r c) in Hnone.
      * unfold to_delete in Hd. apply elem_of_difference in Hd. tauto.
  - by vm_compute.
Qed.

(** *** Retries *)

(** C8. A gateway mutation call posts its request at most [max_retries]
    times; it sleeps [retry_delay] seconds after a failed attempt that is not
    the last, the same delay every time; when every attempt fails it has
    posted [max_retries] times, slept [max_retries - 1] times and returns
    [False].  With the default settings and a link on which every post
    fails, a call posts three times with two sleeps of 2 seconds. *)
Theorem retry_delay_is_constant op p w :
  length (posts (trace (request op p w))) ≤ max_retries cfg ∧
  (∀ x, x ∈ posts (trace (request op p w)) → x = (op, p)) ∧
  Forall (λ n, n = retry_delay cfg) (sleeps (trace (request op p w))) ∧
  (value (request op p w) = false →
   posts (trace (request op p w)) = replicate (max_retries cfg) (op, p) ∧
   sleeps (trace (request op p w)) = replicate (max_retries cfg - 1) (retry_delay cfg)) ∧
  (∀ (rule : RewriteRule) (state : Provider.state),
     _make_rule_request (Provider.faulty_post Scenario.drop_all) default_config
       OpAdd (RulePayload rule) state =
     (false, state,
      [Post OpAdd (RulePayload rule); Sleep 2;
       Post OpAdd (RulePayload rule); Sleep 2;
       Post OpAdd (RulePayload rule)])).
Proof.
  split; [|split; [|split; [|split]]].
  - unfold _make_rule_request.
    etrans; [apply request_loop_post_count|]. by rewrite length_seq.
  - apply request_posts.
  - apply request_loop_sleeps.
  - intros Hv. by apply (request_loop_exhausted 0 (max_retries cfg)).
  - done.
Qed.

(** A failed item does not stop the run: whatever the provider answers, a
    run that is not stopped early posts every planned request and returns
    [True]. *)
Lemma failed_item_does_not_stop_run target managed w :
  1 ≤ max_retries cfg →
  aborted cfg target managed (listed (session_get w).1) = false →
  value (sync target managed w) = true ∧
  ∀ op p, planned target (listed (session_get w).1) (app_managed_domains managed) op p →
          (op, p) ∈ posts (trace (sync target managed w)).
Proof.
  intros Hn Ha. split.
  - by rewrite sync_rules_value, Ha.
  - intros op p. by apply sync_rules_complete.
Qed.

End Facts.

Lemma generate_rules_lookup dns d :
  App.generate_rules dns !! d = (λ ip, mkRule d ip true) <$> dns !! d.
Proof. unfold App.generate_rules. rewrite map_lookup_imap. by destruct (dns !! d). Qed.

Lemma generate_rules_keyed dns : keyed_by_domain (App.generate_rules dns).
Proof.
  intros d r. rewrite generate_rules_lookup.
  destruct (dns !! d); simpl; [|done]. by intros [= <-].
Qed.

Lemma generate_rules_dom dns : dom (App.generate_rules dns) = dom dns.
Proof.
  apply set_eq. intros d. rewrite !elem_of_dom, generate_rules_lookup.
  by rewrite fmap_is_Some.
Qed.

(** The three-way scenario with the threshold at 1.0: the run is not stopped
    and posts the add for [y]. *)
Lemma diff_plan_witness :
  (∀ s : gset string, elements s ≡ₚ elements s) ∧
  1 ≤ max_retries Scenario.lenient_config ∧
  keyed_by_domain Scenario.desired ∧
  aborted Scenario.lenient_config Scenario.desired (Some Scenario.managed)
    (listed (Provider.session_get Scenario.provider).1) = false ∧
  (OpAdd, RulePayload (mkRule "y" "10.0.0.2" true)) ∈
    posts (trace (sync_rules Provider.session_get Provider.session_post elements
                    Scenario.lenient_config Scenario.desired (Some Scenario.managed)
                    Scenario.provider)).
Proof.
  assert (1 ≤ max_retries Scenario.lenient_config) as Hn by (simpl; lia).
  assert (aborted Scenario.lenient_config Scenario.desired (Some Scenario.managed)
            (listed (Provider.session_get Scenario.provider).1) = false) as Ha
    by (vm_compute; reflexivity).
  split; [done|]. split; [done|]. split; [apply generate_rules_keyed|]. split; [done|].
  apply (diff_plan Provider.session_get Provider.session_post elements
           Scenario.lenient_config (λ s, reflexivity _)
           Scenario.desired (Some Scenario.managed) Scenario.provider);
    [done|apply generate_rules_keyed|done|].
  exists "y". split; by vm_compute.
Defined.

(** The three-way scenario run against the provider: [z], which is managed,
    is the only domain deleted. *)
Lemma deletions_only_of_managed_witness :
  (∀ s : gset string, elements s ≡ₚ elements s) ∧
  ∀ p, (OpDelete, p) ∈ posts (trace (sync_rules Provider.session_get Provider.session_post
                                        elements Scenario.lenient_config
                                        Scenario.desired (Some Scenario.managed)
                                        Scenario.provider)) →
       payload_domain p ∈ dom Scenario.managed.
Proof.
  split; [done|]. intros p Hp.
  eapply (deletions_only_of_managed Provider.session_get Provider.session_post
            elements Scenario.lenient_config (λ s, reflexivity _)
            Scenario.desired (Some Scenario.managed) Scenario.provider).
  exact Hp.
Defined.

End ClientProofs.

(** * Properties of the persistent store *)
Module StoreProofs.
Import Models Database.

(** *** File names *)

Lemma append_cons x (a b : string) : String x a +:+ b = String x (a +:+ b).
Proof. reflexivity. Qed.

Lemma append_assoc (a b c : string) : (a +:+ b) +:+ c = a +:+ (b +:+ c).
Proof. induction a as [|x a IH]; [done|]. by rewrite !append_cons, IH. Qed.

Lemma append_empty_r (a : string) : a +:+ "" = a.
Proof. induction a as [|x a IH]; [done|]. by rewrite append_cons, IH. Qed.

Lemma prefix_append (a b c : string) :
  String.prefix (a +:+ b) (a +:+ c) = String.prefix b c.
Proof.
  induction a as [|x a IH]; [done|]. rewrite !append_cons. simpl.
  destruct (Ascii.ascii_dec x x); [done|congruence].
Qed.

Lemma compare_append (a b c : string) :
  String.compare (a +:+ b) (a +:+ c) = String.compare b c.
Proof.
  induction a as [|x a IH]; [done|]. rewrite !append_cons. simpl.
  assert (Ascii.compare x x = Eq) as ->; [|done].
  pose proof (Ascii.compare_antisym x x) as H.
  by destruct (Ascii.compare x x).
Qed.

Lemma append_ne (a b c : string) : b ≠ c → a +:+ b ≠ a +:+ c.
Proof. intros Hne Heq. by apply String.app_inj in Heq. Qed.

Lemma append_ne_self (a b : string) : b ≠ "" → a +:+ b ≠ a.
Proof. intros Hne. rewrite <- (append_empty_r a) at 2. by apply append_ne. Qed.

Section Names.

Variable db : RuleDatabase.
Variable now : Clock.

Lemma generation_name_eq :
  generation_name db now = db_file db +:+ ".backup." +:+ strftime_now now.
Proof. unfold generation_name, backup_pattern. apply append_assoc. Qed.

Lemma pattern_generation : String.prefix (backup_pattern db) (generation_name db now) = true.
Proof.
  unfold generation_name.
  rewrite <- (append_empty_r (backup_pattern db)) at 1.
  rewrite prefix_append. by destruct (strftime_now now).
Qed.

Lemma pattern_db_file : String.prefix (backup_pattern db) (db_file db) = false.
Proof.
  unfold backup_pattern. rewrite <- (append_empty_r (db_file db)) at 2.
  by rewrite prefix_append.
Qed.

Lemma pattern_backup_file : String.prefix (backup_pattern db) (backup_file db) = false.
Proof. unfold backup_pattern, backup_file. by rewrite prefix_append. Qed.

Lemma pattern_temp_file : String.prefix (backup_pattern db) (db_file db +:+ ".tmp") = false.
Proof. unfold backup_pattern. by rewrite prefix_append. Qed.

Lemma pattern_quarantine :
  String.prefix (backup_pattern db) (quarantine_name now (db_file db)) = false.
Proof. unfold backup_pattern, quarantine_name. by rewrite prefix_append. Qed.

Lemma quarantine_ne_db_file : quarantine_name now (db_file db) ≠ db_file db.
Proof. unfold quarantine_name. by apply append_ne_self. Qed.

Lemma quarantine_ne_backup_file : quarantine_name now (db_file db) ≠ backup_file db.
Proof. unfold quarantine_name, backup_file. by apply append_ne. Qed.

Lemma backup_file_ne_db_file : backup_file db ≠ db_file db.
Proof. unfold backup_file. by apply append_ne_self. Qed.

Lemma temp_file_ne_db_file : db_file db +:+ ".tmp" ≠ db_file db.
Proof. by apply append_ne_self. Qed.

Lemma temp_file_ne_backup_file : db_file db +:+ ".tmp" ≠ backup_file db.
Proof. unfold backup_file. by apply append_ne. Qed.

Lemma generation_ne_db_file : generation_name db now ≠ db_file db.
Proof. rewrite generation_name_eq. by apply append_ne_self. Qed.

Lemma generation_ne_backup_file : generation_name db now ≠ backup_file db.
Proof.
  rewrite generation_name_eq. unfold backup_file. apply append_ne.
  by destruct (strftime_now now).
Qed.

Lemma generation_ne_temp_file : generation_name db now ≠ db_file db +:+ ".tmp".
Proof. rewrite generation_name_eq. by apply append_ne. Qed.

End Names.

(** *** The order of file names *)

Lemma leb_iff (a b : string) :
  String.leb a b = true ↔ String_as_OT.lt a b ∨ a = b.
Proof.
  unfold String.leb. change (String.compare a b) with (String_as_OT.cmp a b).
  destruct (String_as_OT.cmp a b) eqn:Hc.
  - apply String_as_OT.cmp_eq in Hc. tauto.
  - apply String_as_OT.cmp_lt in Hc. tauto.
  - split; [done|]. intros [Hlt| ->].
    + apply String_as_OT.cmp_lt in Hlt. congruence.
    + assert (String_as_OT.cmp b b = Eq) by by apply String_as_OT.cmp_eq. congruence.
Qed.

#[local] Instance later_dec a b : Decision (later a b).
Proof. unfold later. apply _. Defined.

#[local] Instance later_trans : Transitive later.
Proof.
  intros a b c. unfold later. rewrite !Is_true_true, !leb_iff.
  intros [H1| ->] [H2| ->]; eauto using String_as_OT.lt_trans.
Qed.

#[local] Instance later_total : Total later.
Proof.
  intros a b. unfold later. rewrite !Is_true_true.
  destruct (String.leb_total a b); tauto.
Qed.

#[local] Instance later_antisym : AntiSymm eq later.
Proof.
  intros a b. unfold later. rewrite !Is_true_true. intros H1 H2.
  by apply String.leb_antisym.
Qed.

Lemma later_append (a b c : string) : later (a +:+ b) (a +:+ c) ↔ later b c.
Proof. unfold later, String.leb. by rewrite compare_append. Qed.

Lemma sorted_reverse_perm l : sorted_reverse l ≡ₚ l.
Proof. apply (merge_sort_Permutation later). Qed.

Lemma sorted_reverse_sorted l : StronglySorted later (sorted_reverse l).
Proof. apply (StronglySorted_merge_sort later); apply _. Qed.

(** A list that is already in decreasing order is left as it is. *)
Lemma sorted_reverse_unique l l' :
  StronglySorted later l' → l' ≡ₚ l → sorted_reverse l = l'.
Proof.
  intros Hs Hp. apply (StronglySorted_unique later); [apply sorted_reverse_sorted|done|].
  by rewrite sorted_reverse_perm.
Qed.

(** *** The generation backups of a disk *)

Section Generations.

Variable db : RuleDatabase.

Lemma elem_of_generations d p :
  p ∈ generations db d ↔
  is_Some (files d !! p) ∧ String.prefix (backup_pattern db) p = true.
Proof.
  unfold generations, glob_prefix.
  rewrite sorted_reverse_perm, list_elem_of_filter, elem_of_elements, elem_of_dom.
  rewrite Is_true_true. tauto.
Qed.

Lemma NoDup_generations d : NoDup (generations db d).
Proof.
  unfold generations, glob_prefix. rewrite sorted_reverse_perm.
  apply NoDup_filter, NoDup_elements.
Qed.

Lemma generations_sorted d : StronglySorted later (generations db d).
Proof. apply sorted_reverse_sorted. Qed.

Lemma generations_unique d l :
  StronglySorted later l → NoDup l →
  (∀ p, p ∈ l ↔ is_Some (files d !! p) ∧ String.prefix (backup_pattern db) p = true) →
  generations db d = l.
Proof.
  intros Hs Hn Hl. apply sorted_reverse_unique; [done|].
  apply NoDup_Permutation; [done| |].
  - apply NoDup_filter, NoDup_elements.
  - intros p. rewrite Hl. unfold glob_prefix.
    rewrite list_elem_of_filter, elem_of_elements, elem_of_dom, Is_true_true. tauto.
Qed.

(** Two disks with the same files under the backup pattern have the same
    generations. *)
Lemma generations_ext d1 d2 :
  (∀ p, String.prefix (backup_pattern db) p = true →
        is_Some (files d1 !! p) ↔ is_Some (files d2 !! p)) →
  generations db d1 = generations db d2.
Proof.
  intros Hsame. apply generations_unique.
  - apply generations_sorted.
  - apply NoDup_generations.
  - intros p. rewrite elem_of_generations. split; intros [H1 H2];
      (split; [by apply Hsame|done]).
Qed.

End Generations.

(** *** Running store computations *)

Lemma io_bind_return {A B} (c : IO A) (k : A → IO B) d a d1 :
  c d = (Return a, d1) → io_bind c k d = k a d1.
Proof. unfold io_bind. by intros ->. Qed.

Lemma io_try_return {A} (c : IO A) caught handler d a d1 :
  c d = (Return a, d1) → io_try c caught handler d = (Return a, d1).
Proof. unfold io_try. by intros ->. Qed.

Lemma io_try_caught {A} (c : IO A) caught handler d e d1 :
  c d = (Raise e, d1) → caught e = true → io_try c caught handler d = handler d1.
Proof. unfold io_try. by intros -> ->. Qed.

Lemma os_path_exists_true path d c :
  files d !! path = Some c → os_path_exists path d = true.
Proof. intros H. unfold os_path_exists. rewrite H. by apply bool_decide_eq_true. Qed.

Lemma os_path_exists_false path d :
  files d !! path = None → os_path_exists path d = false.
Proof.
  intros H. unfold os_path_exists. rewrite H.
  apply bool_decide_eq_false. by intros [??].
Qed.

Lemma load_from_file_valid path d c rules :
  files d !! path = Some c → loads c = Some rules →
  _load_from_file path d = (Return rules, d).
Proof.
  intros Hf Hl. unfold _load_from_file, io_bind, read_file. rewrite Hf.
  destruct c; simplify_eq/=. done.
Qed.

Lemma load_from_file_corrupt path d c :
  files d !! path = Some c → loads c = None →
  ∃ e, _load_from_file path d = (Raise e, d) ∧ corruption e = true.
Proof.
  intros Hf Hl. unfold _load_from_file, io_bind, read_file. rewrite Hf.
  destruct c; simplify_eq/=; by eexists.
Qed.

Lemma cleanup_corrupted_file_run now path d :
  _cleanup_corrupted_file now path d = (Return tt, quarantined now path d).
Proof.
  unfold _cleanup_corrupted_file, io_try, quarantined, os_path_exists, shutil_move.
  destruct (files d !! path) as [c|] eqn:Hf.
  - by rewrite bool_decide_eq_true_2 by by eexists.
  - rewrite bool_decide_eq_false_2; [done|]. by intros [??].
Qed.

Lemma first_valid_app fs l1 l2 :
  first_valid fs (l1 ++ l2) =
    match first_valid fs l1 with
    | Some found => Some found
    | None => first_valid fs l2
    end.
Proof.
  induction l1 as [|p l1 IH]; simpl; [done|].
  by destruct (fs !! p ≫= loads).
Qed.

Section Load.

Variable db : RuleDatabase.
Variable now : Clock.

(** The attempt on one backup file: load it, copy it over the main file. *)
Lemma restore_attempt_valid path d c rules :
  files d !! path = Some c → loads c = Some rules →
  (io_bind (_load_from_file path)
     (λ rules, io_bind (shutil_copy2 path (db_file db)) (λ _, io_ret (Some rules)))) d =
  (Return (Some rules), restored db path d).
Proof.
  intros Hf Hl. rewrite (io_bind_return _ _ _ _ _ (load_from_file_valid _ _ _ _ Hf Hl)).
  unfold io_bind, shutil_copy2, restored. by rewrite Hf.
Qed.

Lemma restore_attempt_corrupt path d c :
  files d !! path = Some c → loads c = None →
  ∃ e, (io_bind (_load_from_file path)
          (λ rules, io_bind (shutil_copy2 path (db_file db)) (λ _, io_ret (Some rules)))) d =
       (Raise e, d) ∧ corruption e = true.
Proof.
  intros Hf Hl. destruct (load_from_file_corrupt _ _ _ Hf Hl) as (e & He & Hc).
  exists e. split; [|done]. unfold io_bind. by rewrite He.
Qed.

Lemma restore_from_run paths d :
  (∀ p, p ∈ paths → is_Some (files d !! p)) →
  restore_from db paths d =
    match first_valid (files d) paths with
    | Some (path, rules) => (Return (Some rules), restored db path d)
    | None => (Return None, d)
    end.
Proof.
  induction paths as [|p rest IH]; intros Hall; simpl; [done|].
  destruct (Hall p) as [c Hf]; [apply list_elem_of_here|]. rewrite Hf. simpl.
  destruct (loads c) as [rules|] eqn:Hl.
  - erewrite io_try_return; [done|]. by eapply restore_attempt_valid.
  - destruct (restore_attempt_corrupt _ _ _ Hf Hl) as (e & He & Hc).
    erewrite io_try_caught; [|exact He|done].
    apply IH. intros q Hq. apply Hall. by apply list_elem_of_further.
Qed.

Lemma try_backup_restore_run d : _try_backup_restore db d = restore_result db d.
Proof.
  unfold _try_backup_restore, restore_result, restore_candidates.
  fold (generations db d). rewrite first_valid_app.
  unfold io_bind at 1. rewrite restore_from_run.
  2:{ intros p Hp. by apply elem_of_generations in Hp as [? _]. }
  destruct (first_valid (files d) (generations db d)) as [[path rules]|]; [done|].
  unfold io_bind at 1.
  destruct (files d !! backup_file db) as [c|] eqn:Hf.
  - rewrite (os_path_exists_true _ _ _ Hf). simpl. rewrite Hf. simpl.
    destruct (loads c) as [rules|] eqn:Hl.
    + by rewrite (io_try_return _ _ _ _ _ _ (restore_attempt_valid _ _ _ _ Hf Hl)).
    + destruct (restore_attempt_corrupt _ _ _ Hf Hl) as (e & He & Hc).
      by rewrite (io_try_caught _ _ _ _ _ _ He Hc).
  - by rewrite (os_path_exists_false _ _ Hf).
Qed.

Lemma load_valid d c rules :
  files d !! db_file db = Some c → loads c = Some rules → rules ≠ ∅ →
  load_managed_rules db now d = (Return rules, d).
Proof.
  intros Hf Hl Hne. unfold load_managed_rules.
  rewrite (os_path_exists_true _ _ _ Hf).
  erewrite io_try_return; [done|].
  rewrite (io_bind_return _ _ _ _ _ (load_from_file_valid _ _ _ _ Hf Hl)).
  by rewrite bool_decide_eq_true_2.
Qed.

Lemma load_empty d c :
  files d !! db_file db = Some c → loads c = Some ∅ →
  load_managed_rules db now d = (Return ∅, quarantined now (db_file db) d).
Proof.
  intros Hf Hl. unfold load_managed_rules.
  rewrite (os_path_exists_true _ _ _ Hf).
  erewrite io_try_return; [done|].
  rewrite (io_bind_return _ _ _ _ _ (load_from_file_valid _ _ _ _ Hf Hl)).
  rewrite bool_decide_eq_false_2 by by intros ?.
  by rewrite (io_bind_return _ _ _ _ _ (cleanup_corrupted_file_run _ _ _)).
Qed.

Lemma load_corrupt d c :
  files d !! db_file db = Some c → loads c = None →
  load_managed_rules db now d = restore_result db (quarantined now (db_file db) d).
Proof.
  intros Hf Hl. unfold load_managed_rules.
  rewrite (os_path_exists_true _ _ _ Hf).
  destruct (load_from_file_corrupt _ _ _ Hf Hl) as (e & He & Hc).
  erewrite io_try_caught; [|unfold io_bind; by rewrite He|done].
  rewrite (io_bind_return _ _ _ _ _ (cleanup_corrupted_file_run _ _ _)).
  apply try_backup_restore_run.
Qed.

Lemma load_missing d :
  files d !! db_file db = None →
  load_managed_rules db now d =
    match files d !! backup_file db with
    | None => (Return ∅, d)
    | Some c =>
        match loads c with
        | Some rules =>
            if bool_decide (rules ≠ ∅) then (Return rules, restored db (backup_file db) d)
            else (Return ∅, d)
        | None => (Return ∅, quarantined now (backup_file db) d)
        end
    end.
Proof.
  intros Hf. unfold load_managed_rules. rewrite (os_path_exists_false _ _ Hf).
  unfold io_bind at 1.
  destruct (files d !! backup_file db) as [c|] eqn:Hb.
  - rewrite (os_path_exists_true _ _ _ Hb).
    destruct (loads c) as [rules|] eqn:Hl.
    + case_bool_decide as Hne.
      * rewrite (io_try_return _ _ _ _ (Some rules) (restored db (backup_file db) d)); [done|].
        rewrite (io_bind_return _ _ _ _ _ (load_from_file_valid _ _ _ _ Hb Hl)).
        rewrite bool_decide_eq_true_2 by done.
        unfold io_bind, shutil_copy2, restored. by rewrite Hb.
      * rewrite (io_try_return _ _ _ _ (Some ∅) d); [done|].
        rewrite (io_bind_return _ _ _ _ _ (load_from_file_valid _ _ _ _ Hb Hl)).
        by rewrite bool_decide_eq_false_2 by (by intros ?).
    + destruct (load_from_file_corrupt _ _ _ Hb Hl) as (e & He & Hc).
      erewrite io_try_caught; [|unfold io_bind; by rewrite He|done].
      by rewrite (io_bind_return _ _ _ _ _ (cleanup_corrupted_file_run _ _ _)).
  - by rewrite (os_path_exists_false _ _ Hb).
Qed.

(** [load_managed_rules] always returns: no exception reaches the caller. *)
Lemma load_never_raises d :
  ∃ rules d', load_managed_rules db now d = (Return rules, d').
Proof.
  destruct (files d !! db_file db) as [c|] eqn:Hf.
  - destruct (loads c) as [rules|] eqn:Hl.
    + destruct (decide (rules = ∅)) as [->|Hne].
      * rewrite (load_empty _ _ Hf Hl). by eauto.
      * rewrite (load_valid _ _ _ Hf Hl Hne). by eauto.
    + rewrite (load_corrupt _ _ Hf Hl). unfold restore_result.
      destruct (first_valid _ _) as [[??]|]; by eauto.
  - rewrite (load_missing _ Hf).
    destruct (files d !! backup_file db) as [c|]; [|by eauto].
    destruct (loads c) as [rules|]; [|by eauto].
    case_bool_decide; by eauto.
Qed.

End Load.

(** *** Saving *)

Lemma StronglySorted_sublist {A} (R : relation A) (l1 l2 : list A) :
  l1 `sublist_of` l2 → StronglySorted R l2 → StronglySorted R l1.
Proof.
  induction 1 as [|x l1 l2 Hsub IH|x l1 l2 Hsub IH]; intros Hs.
  - constructor.
  - apply StronglySorted_inv in Hs as [Hs Hall]. apply SSorted_cons; [by apply IH|].
    rewrite Forall_forall in Hall. apply Forall_forall. intros y Hy.
    apply Hall. by eapply elem_of_sublist.
  - apply StronglySorted_inv in Hs as [Hs _]. by apply IH.
Qed.

Lemma take_app_take {A} (l1 l2 : list A) (k m : nat) :
  k ≤ m → take k (l1 ++ take m l2) = take k (l1 ++ l2).
Proof.
  revert k. induction l1 as [|x l1 IH]; intros k Hk; simpl.
  - rewrite take_take. by rewrite Nat.min_l.
  - destruct k as [|k]; [done|]. simpl. rewrite IH; [done|lia].
Qed.

Lemma lookup_foldl_delete (fs : gmap string file_content) (l : list string) (p : string) :
  foldl (λ fs path, delete path fs) fs l !! p = if decide (p ∈ l) then None else fs !! p.
Proof.
  revert fs. induction l as [|q l IH]; intros fs; simpl; [done|].
  rewrite IH. destruct (decide (p ∈ l)) as [Hin|Hnin].
  - by rewrite decide_True by by apply list_elem_of_further.
  - destruct (decide (p = q)) as [->|Hne].
    + rewrite decide_True by apply list_elem_of_here. apply lookup_delete_eq.
    + rewrite decide_False; [by apply lookup_delete_ne|].
      intros [?|?]%elem_of_cons; done.
Qed.

Lemma remove_all_run l d :
  NoDup l → (∀ p, p ∈ l → is_Some (files d !! p)) →
  remove_all l d =
    (Return tt, mkDisk (foldl (λ fs path, delete path fs) (files d) l)
                       (journal d ++ (Removed <$> l))).
Proof.
  revert d. induction l as [|p l IH]; intros d Hnd Hall; simpl.
  { rewrite app_nil_r. by destruct d. }
  apply NoDup_cons in Hnd as [Hp Hnd].
  destruct (Hall p) as [c Hc]; [apply list_elem_of_here|].
  unfold io_bind, io_try, os_remove. rewrite Hc.
  rewrite IH; [|done|]; simpl.
  - by rewrite <- app_assoc.
  - intros q Hq. rewrite lookup_delete_ne; [|by intros ->].
    apply Hall. by apply list_elem_of_further.
Qed.

Section Save.

Variable db : RuleDatabase.
Variable now : Clock.

Lemma cleanup_old_backups_run d : _cleanup_old_backups db d = (Return tt, pruned db d).
Proof.
  unfold _cleanup_old_backups, pruned. fold (generations db d).
  erewrite io_try_return; [done|]. simpl.
  apply remove_all_run.
  - eapply sublist_NoDup; [apply NoDup_generations|apply sublist_drop].
  - intros p Hp. eapply elem_of_sublist in Hp; [|apply sublist_drop].
    by apply elem_of_generations in Hp as [? _].
Qed.

Lemma create_backup_run d c :
  files d !! db_file db = Some c →
  _create_backup db now d = (Return tt, pruned db (backed_up db now d)).
Proof.
  intros Hf. unfold _create_backup. fold (generation_name db now).
  erewrite io_try_return; [done|].
  unfold io_bind at 1, shutil_copy2 at 1. rewrite Hf.
  unfold io_bind at 1, shutil_copy2 at 1. simpl.
  rewrite lookup_insert_ne by apply generation_ne_db_file. rewrite Hf.
  rewrite cleanup_old_backups_run. unfold backed_up. rewrite Hf.
  by rewrite <- app_assoc.
Qed.

Lemma save_to_file_run rules path d :
  _save_to_file rules path d = (Return tt, written rules path d).
Proof.
  unfold _save_to_file, io_bind, write_json, shutil_move, written. simpl.
  rewrite lookup_insert_eq. by rewrite <- app_assoc.
Qed.

Lemma save_existing rules d c :
  files d !! db_file db = Some c →
  save_managed_rules db now rules d =
    (Return tt, written rules (db_file db) (pruned db (backed_up db now d))).
Proof.
  intros Hf. unfold save_managed_rules, io_bind.
  rewrite (os_path_exists_true _ _ _ Hf), (create_backup_run _ _ Hf).
  apply save_to_file_run.
Qed.

Lemma save_fresh rules d :
  files d !! db_file db = None →
  save_managed_rules db now rules d = (Return tt, written rules (db_file db) d).
Proof.
  intros Hf. unfold save_managed_rules, io_bind.
  rewrite (os_path_exists_false _ _ Hf). apply save_to_file_run.
Qed.

(** [save_managed_rules] always returns, and leaves the rules in the main
    file. *)
Lemma save_never_raises rules d :
  ∃ d', save_managed_rules db now rules d = (Return tt, d') ∧
        files d' !! db_file db = Some (JsonDict (data_of_rule <$> rules)).
Proof.
  destruct (files d !! db_file db) as [c|] eqn:Hf.
  - rewrite (save_existing _ _ _ Hf). eexists. split; [done|].
    unfold written. simpl. apply lookup_insert_eq.
  - rewrite (save_fresh _ _ Hf). eexists. split; [done|].
    unfold written. simpl. apply lookup_insert_eq.
Qed.

(** *** Backup rotation *)

Lemma lookup_backed_up d c p :
  files d !! db_file db = Some c →
  files (backed_up db now d) !! p =
    if decide (p = backup_file db) then Some c
    else if decide (p = generation_name db now) then Some c
    else files d !! p.
Proof.
  intros Hf. unfold backed_up. rewrite Hf. simpl.
  destruct (decide (p = backup_file db)) as [->|H1]; [apply lookup_insert_eq|].
  rewrite lookup_insert_ne by done.
  destruct (decide (p = generation_name db now)) as [->|H2]; [apply lookup_insert_eq|].
  by rewrite lookup_insert_ne.
Qed.

Lemma lookup_pruned d p :
  files (pruned db d) !! p =
    if decide (p ∈ drop (max_backups db) (generations db d)) then None else files d !! p.
Proof. unfold pruned. simpl. apply lookup_foldl_delete. Qed.

Lemma lookup_written rules path d p :
  files (written rules path d) !! p =
    if decide (p = path) then Some (JsonDict (data_of_rule <$> rules))
    else if decide (p = path +:+ ".tmp") then None
    else files d !! p.
Proof.
  unfold written. simpl.
  destruct (decide (p = path)) as [->|H1]; [apply lookup_insert_eq|].
  rewrite lookup_insert_ne by done.
  destruct (decide (p = path +:+ ".tmp")) as [->|H2]; [apply lookup_delete_eq|].
  rewrite lookup_delete_ne by done. by rewrite lookup_insert_ne.
Qed.

Lemma generations_written rules d :
  generations db (written rules (db_file db) d) = generations db d.
Proof.
  apply generations_ext. intros p Hp. rewrite lookup_written.
  destruct (decide (p = db_file db)) as [->|_].
  { by rewrite pattern_db_file in Hp. }
  destruct (decide (p = db_file db +:+ ".tmp")) as [->|_]; [|done].
  by rewrite pattern_temp_file in Hp.
Qed.

Lemma generations_pruned d :
  generations db (pruned db d) = take (max_backups db) (generations db d).
Proof.
  pose proof (NoDup_generations db d) as Hnd.
  pose proof (generations_sorted db d) as Hs.
  rewrite <- (take_drop (max_backups db) (generations db d)) in Hnd, Hs.
  apply NoDup_app in Hnd as (Hnd1 & Hdisj & _).
  apply generations_unique; [by apply StronglySorted_app_1_l in Hs|done|].
  intros p. rewrite lookup_pruned. split.
  - intros Hp. rewrite decide_False by by apply Hdisj.
    apply elem_of_generations. eapply elem_of_sublist; [done|apply sublist_take].
  - destruct (decide (p ∈ drop _ _)) as [|Hp]; [by intros [[??] _]|].
    intros Hin%elem_of_generations.
    rewrite <- (take_drop (max_backups db) (generations db d)) in Hin.
    by apply elem_of_app in Hin as [?|?].
Qed.

Lemma elem_of_generations_backed_up d c p :
  files d !! db_file db = Some c →
  p ∈ generations db (backed_up db now d) ↔
  p = generation_name db now ∨ p ∈ generations db d.
Proof.
  intros Hf. rewrite !elem_of_generations, (lookup_backed_up _ _ _ Hf).
  destruct (decide (p = backup_file db)) as [->|_].
  { rewrite pattern_backup_file. split; [by intros [_ ?]|].
    intros [Heq|[_ ?]]; [|done]. by destruct (generation_ne_backup_file db now). }
  destruct (decide (p = generation_name db now)) as [->|Hne].
  - rewrite pattern_generation. split; [by left|]. by eauto.
  - split; [by right|]. by intros [?|?].
Qed.

(** When the new generation is later than all the others, it comes first. *)
Lemma generations_backed_up_newest d c :
  files d !! db_file db = Some c →
  generation_name db now ∉ generations db d →
  Forall (later (generation_name db now)) (generations db d) →
  generations db (backed_up db now d) = generation_name db now :: generations db d.
Proof.
  intros Hf Hnew Hlater. apply generations_unique.
  - apply SSorted_cons; [apply generations_sorted|done].
  - apply NoDup_cons. split; [done|apply NoDup_generations].
  - intros p. rewrite elem_of_cons, <- elem_of_generations.
    symmetry. by eapply elem_of_generations_backed_up.
Qed.

Lemma generations_save_existing rules d c :
  files d !! db_file db = Some c →
  generations db (save_managed_rules db now rules d).2 =
    take (max_backups db) (generations db (backed_up db now d)).
Proof.
  intros Hf. rewrite (save_existing _ _ _ Hf). simpl.
  by rewrite generations_written, generations_pruned.
Qed.

Lemma generations_save_fresh rules d :
  files d !! db_file db = None →
  generations db (save_managed_rules db now rules d).2 = generations db d.
Proof. intros Hf. rewrite (save_fresh _ _ Hf). simpl. apply generations_written. Qed.

Lemma lookup_save_db_file rules d :
  files (save_managed_rules db now rules d).2 !! db_file db =
    Some (JsonDict (data_of_rule <$> rules)).
Proof. destruct (save_never_raises rules d) as (d' & -> & Hd'). done. Qed.

Lemma lookup_save_backup_file rules d c :
  files d !! db_file db = Some c →
  files (save_managed_rules db now rules d).2 !! backup_file db = Some c.
Proof.
  intros Hf. rewrite (save_existing _ _ _ Hf). cbn [snd].
  rewrite lookup_written.
  rewrite decide_False by apply backup_file_ne_db_file.
  rewrite decide_False by (intros Heq; by destruct (temp_file_ne_backup_file db)).
  rewrite lookup_pruned. rewrite decide_False.
  - rewrite (lookup_backed_up _ _ _ Hf). by rewrite decide_True.
  - intros Hin. eapply elem_of_sublist in Hin; [|apply sublist_drop].
    apply elem_of_generations in Hin as [_ Hin]. by rewrite pattern_backup_file in Hin.
Qed.

End Save.

Section Rotation.

Variable db : RuleDatabase.

Lemma generations_save_newest now rules d c :
  files d !! db_file db = Some c →
  StronglySorted later (generation_name db now :: generations db d) →
  NoDup (generation_name db now :: generations db d) →
  generations db (save_managed_rules db now rules d).2 =
    take (max_backups db) (generation_name db now :: generations db d).
Proof.
  intros Hf [_ Hs]%StronglySorted_inv [Hnew _]%NoDup_cons.
  rewrite (generations_save_existing _ _ _ _ _ Hf).
  by rewrite (generations_backed_up_newest _ _ _ _ Hf).
Qed.

(** Consecutive saves over an existing main file, each with a name later
    than all the generations before it: the generations left are the latest
    [max_backups] of all. *)
Lemma save_all_generations saves save d c :
  files d !! db_file db = Some c →
  let names := (λ s : Clock * gmap string RewriteRule, generation_name db s.1)
                 <$> (save :: saves) in
  StronglySorted later (rev names ++ generations db d) →
  NoDup (rev names ++ generations db d) →
  generations db (save_all db (save :: saves) d) =
    take (max_backups db) (rev names ++ generations db d).
Proof.
  revert save d c. induction saves as [|next saves IH]; intros [now rules] d c Hf; simpl.
  { intros Hs Hnd. by eapply generations_save_newest. }
  rewrite <- !app_assoc. simpl. intros Hs Hnd.
  assert (generations db (save_managed_rules db now rules d).2 =
          take (max_backups db) (generation_name db now :: generations db d)) as Hg.
  { eapply generations_save_newest; [done| |].
    - eapply StronglySorted_sublist; [|exact Hs].
      apply sublist_inserts_l. by apply sublist_cons.
    - eapply sublist_NoDup; [exact Hnd|].
      apply sublist_inserts_l. by apply sublist_cons. }
  specialize (IH next (save_managed_rules db now rules d).2 _
                (lookup_save_db_file db now rules d)).
  simpl in IH. unfold save_all in IH |- *. simpl in IH |- *.
  rewrite IH; rewrite Hg.
  - rewrite take_app_take by done. by rewrite <- !app_assoc.
  - eapply StronglySorted_sublist; [|exact Hs].
    rewrite <- !app_assoc. apply sublist_app; [done|]. simpl.
    apply sublist_skip. apply sublist_take.
  - eapply sublist_NoDup; [exact Hnd|].
    rewrite <- !app_assoc. apply sublist_app; [done|]. simpl.
    apply sublist_skip. apply sublist_take.
Qed.

Lemma generations_no_files d : files d = ∅ → generations db d = [].
Proof.
  intros Hf. apply generations_unique; [constructor|constructor|].
  intros p. rewrite Hf, lookup_empty. split; [by intros ?%elem_of_nil|].
  by intros [[??] _].
Qed.

(** A name with an earlier time stamp is an earlier name. *)
Lemma later_generation (now1 now2 : Clock) :
  String.ltb (strftime_now now1) (strftime_now now2) = true →
  later (generation_name db now2) (generation_name db now1) ∧
  generation_name db now2 ≠ generation_name db now1.
Proof.
  unfold String.ltb. intros Hlt. split.
  - unfold generation_name. apply later_append. unfold later, String.leb.
    by destruct (String.compare _ _).
  - unfold generation_name. intros Heq%String.app_inj. rewrite Heq in Hlt.
    assert (String.compare (strftime_now now1) (strftime_now now1) = Eq) as Hrefl
      by by apply String_as_OT.cmp_eq.
    by rewrite Hrefl in Hlt.
Qed.

Lemma before_trans (a b c : Clock) : before a b → before b c → before a c.
Proof.
  unfold before, String.ltb.
  change String.compare with String_as_OT.cmp.
  destruct (String_as_OT.cmp _ (strftime_now b)) eqn:H1; try done.
  destruct (String_as_OT.cmp (strftime_now b) _) eqn:H2; try done.
  intros _ _. apply String_as_OT.cmp_lt in H1, H2.
  pose proof (String_as_OT.lt_trans _ _ _ H1 H2) as H3.
  apply String_as_OT.cmp_lt in H3. by rewrite H3.
Qed.

Lemma newer_generation (now1 now2 : Clock) :
  before now1 now2 → newer (generation_name db now2) (generation_name db now1).
Proof. apply later_generation. Qed.

Lemma newer_sorted (l : list string) :
  StronglySorted newer l → StronglySorted later l ∧ NoDup l.
Proof.
  induction 1 as [|x l Hs [IH1 IH2] Hall].
  { split; constructor. }
  rewrite Forall_forall in Hall. split.
  - apply SSorted_cons; [done|]. apply Forall_forall. intros y Hy. by apply Hall.
  - apply NoDup_cons. split; [|done]. intros Hx. by destruct (Hall x Hx).
Qed.

(** Five saves at increasing seconds with a retention of three, on a disk
    without generation backups: the three latest generations are left. *)
Lemma five_saves d0 n1 n2 n3 n4 n5 r1 r2 r3 r4 r5 :
  max_backups db = 3 → generations db d0 = [] →
  before n1 n2 → before n2 n3 → before n3 n4 → before n4 n5 →
  let d5 := save_all db [(n1, r1); (n2, r2); (n3, r3); (n4, r4); (n5, r5)] d0 in
  generations db d5 =
    [generation_name db n5; generation_name db n4; generation_name db n3] ∧
  files d5 !! backup_file db = Some (JsonDict (data_of_rule <$> r4)) ∧
  files d5 !! db_file db = Some (JsonDict (data_of_rule <$> r5)).
Proof.
  intros Hk Hg0 H12 H23 H34 H45 d5.
  pose proof (before_trans _ _ _ H12 H23) as H13.
  pose proof (before_trans _ _ _ H13 H34) as H14.
  pose proof (before_trans _ _ _ H14 H45) as H15.
  pose proof (before_trans _ _ _ H23 H34) as H24.
  pose proof (before_trans _ _ _ H24 H45) as H25.
  pose proof (before_trans _ _ _ H34 H45) as H35.
  assert (StronglySorted newer
            [generation_name db n5; generation_name db n4; generation_name db n3;
             generation_name db n2; generation_name db n1]) as Hnewer.
  { pose proof (newer_generation _ _ H12). pose proof (newer_generation _ _ H13).
    pose proof (newer_generation _ _ H14). pose proof (newer_generation _ _ H15).
    pose proof (newer_generation _ _ H23). pose proof (newer_generation _ _ H24).
    pose proof (newer_generation _ _ H25). pose proof (newer_generation _ _ H34).
    pose proof (newer_generation _ _ H35). pose proof (newer_generation _ _ H45).
    repeat first [ apply SSorted_nil | apply List.Forall_nil | assumption
                 | apply SSorted_cons | apply List.Forall_cons ]. }
  split; [|split].
  - destruct (files d0 !! db_file db) as [c|] eqn:Hf.
    + unfold d5. erewrite save_all_generations; [|exact Hf|simpl..].
      * simpl. by rewrite Hg0, Hk.
      * rewrite Hg0. by apply newer_sorted.
      * rewrite Hg0. by apply newer_sorted.
    + assert ([generation_name db n5; generation_name db n4; generation_name db n3;
               generation_name db n2] `sublist_of`
              [generation_name db n5; generation_name db n4; generation_name db n3;
               generation_name db n2; generation_name db n1]) as Hsub.
      { do 4 apply sublist_skip. apply sublist_nil_l. }
      apply newer_sorted in Hnewer as [Hs Hnd].
      unfold d5, save_all. cbn [foldl fst snd].
      pose proof (generations_save_fresh db n1 r1 d0 Hf) as Hg1. rewrite Hg0 in Hg1.
      pose proof (save_all_generations [(n3, r3); (n4, r4); (n5, r5)] (n2, r2)
                    (save_managed_rules db n1 r1 d0).2 _
                    (lookup_save_db_file db n1 r1 d0)) as Hall.
      unfold save_all in Hall. cbn [foldl fst snd fmap list_fmap rev app] in Hall.
      rewrite Hg1 in Hall. rewrite Hall.
      * by rewrite Hk.
      * by eapply StronglySorted_sublist.
      * by eapply sublist_NoDup.
  - unfold d5, save_all. cbn [foldl fst snd].
    apply lookup_save_backup_file, lookup_save_db_file.
  - unfold d5, save_all. cbn [foldl fst snd]. apply lookup_save_db_file.
Qed.

(** C7 (as the code has it).  A save over an existing main file copies the
    old main file to the generation named by the second of the clock and to
    the fixed-name backup, then removes the generations beyond the retention
    count, earliest names first, and only then writes the new content to the
    temporary file and renames it over the main file.  With a retention of
    three, five saves at increasing seconds on a disk without generations
    leave exactly the three latest generations, and the fixed-name backup
    holds the main file as it was before the last save. *)
Theorem save_rotates_backups :
  (∀ now rules d c,
     files d !! db_file db = Some c →
     let d1 := backed_up db now d in
     let doomed := drop (max_backups db) (generations db d1) in
     let d' := (save_managed_rules db now rules d).2 in
     (save_managed_rules db now rules d).1 = Return tt ∧
     journal d' =
       journal d ++
       [Copied (db_file db) (generation_name db now);
        Copied (db_file db) (backup_file db)] ++
       (Removed <$> doomed) ++
       [Written (db_file db +:+ ".tmp"); Moved (db_file db +:+ ".tmp") (db_file db)] ∧
     files d' !! db_file db = Some (JsonDict (data_of_rule <$> rules)) ∧
     files d' !! backup_file db = Some c ∧
     files d' !! (db_file db +:+ ".tmp") = None ∧
     (∀ p, p ∈ generations db d1 ↔ p = generation_name db now ∨ p ∈ generations db d) ∧
     generations db d' = take (max_backups db) (generations db d1) ∧
     length (generations db d') ≤ max_backups db ∧
     (∀ kept gone, kept ∈ generations db d' → gone ∈ doomed →
                   later kept gone ∧ files d' !! gone = None)) ∧
  (∀ d0 n1 n2 n3 n4 n5 r1 r2 r3 r4 r5,
     max_backups db = 3 → generations db d0 = [] →
     before n1 n2 → before n2 n3 → before n3 n4 → before n4 n5 →
     let d5 := save_all db [(n1, r1); (n2, r2); (n3, r3); (n4, r4); (n5, r5)] d0 in
     length (generations db d5) = 3 ∧
     generations db d5 =
       [generation_name db n5; generation_name db n4; generation_name db n3] ∧
     files d5 !! backup_file db = Some (JsonDict (data_of_rule <$> r4))).
Proof.
  split.
  - intros now rules d c Hf d1 doomed d'.
    assert (generations db d' = take (max_backups db) (generations db d1)) as Hg
      by by eapply generations_save_existing.
    split; [by rewrite (save_existing _ _ _ _ _ Hf)|].
    split.
    { unfold d'. rewrite (save_existing _ _ _ _ _ Hf). cbn [snd].
      unfold written at 1. cbn [journal]. unfold pruned at 1. cbn [journal].
      fold d1. fold doomed. unfold d1, backed_up. rewrite Hf. cbn [journal].
      by rewrite <- !app_assoc. }
    split; [apply lookup_save_db_file|].
    split; [by apply lookup_save_backup_file|].
    split.
    { unfold d'. rewrite (save_existing _ _ _ _ _ Hf). cbn [snd].
      rewrite lookup_written.
      rewrite decide_False by apply temp_file_ne_db_file. by rewrite decide_True. }
    split; [intros p; by eapply elem_of_generations_backed_up|].
    split; [done|].
    split; [rewrite Hg; apply firstn_le_length|].
    intros kept gone Hkept Hgone. split.
    + rewrite Hg in Hkept.
      eapply (StronglySorted_app_1_elem_of later); [|exact Hkept|exact Hgone].
      unfold doomed. rewrite take_drop. apply generations_sorted.
    + unfold d'. rewrite (save_existing _ _ _ _ _ Hf). cbn [snd].
      assert (String.prefix (backup_pattern db) gone = true) as Hpat.
      { eapply elem_of_sublist in Hgone; [|apply sublist_drop].
        by apply elem_of_generations in Hgone as [_ ?]. }
      rewrite lookup_written.
      rewrite decide_False by (intros ->; by rewrite pattern_db_file in Hpat).
      rewrite decide_False by (intros ->; by rewrite pattern_temp_file in Hpat).
      rewrite lookup_pruned. by rewrite decide_True.
  - intros d0 n1 n2 n3 n4 n5 r1 r2 r3 r4 r5 Hk Hg0 H12 H23 H34 H45 d5.
    destruct (five_saves d0 n1 n2 n3 n4 n5 r1 r2 r3 r4 r5 Hk Hg0 H12 H23 H34 H45)
      as (Hg & Hb & _).
    fold d5 in Hg, Hb. split; [by rewrite Hg|done].
Qed.

End Rotation.

(** Five saves at the seconds 1 to 5 on an empty disk. *)
Lemma save_rotates_backups_witness :
  max_backups Scenario.store = 3 ∧
  generations Scenario.store Scenario.empty_disk = [] ∧
  before Scenario.second1 Scenario.second2 ∧ before Scenario.second2 Scenario.second3 ∧
  before Scenario.second3 Scenario.second4 ∧ before Scenario.second4 Scenario.second5 ∧
  length (generations Scenario.store
            (save_all Scenario.store
               [(Scenario.second1, Scenario.a_example); (Scenario.second2, Scenario.b_example);
                (Scenario.second3, Scenario.a_example); (Scenario.second4, Scenario.b_example);
                (Scenario.second5, Scenario.a_example)] Scenario.empty_disk)) = 3.
Proof.
  assert (generations Scenario.store Scenario.empty_disk = []) as Hg0 by reflexivity.
  repeat (split; [reflexivity|]).
  apply (proj2 (save_rotates_backups Scenario.store) Scenario.empty_disk
           Scenario.second1 Scenario.second2 Scenario.second3 Scenario.second4
           Scenario.second5 Scenario.a_example Scenario.b_example Scenario.a_example
           Scenario.b_example Scenario.a_example); reflexivity.
Defined.

(** Five saves within one second leave a single generation, and the save
    that prunes removes the old generation before it writes the new main
    file. *)
Lemma rotation_counterexample :
  generations Scenario.store
    (save_all Scenario.store
       [(Scenario.second1, Scenario.a_example); (Scenario.second1, Scenario.b_example);
        (Scenario.second1, Scenario.a_example); (Scenario.second1, Scenario.b_example);
        (Scenario.second1, Scenario.a_example)] Scenario.empty_disk) =
    ["/app/data/managed_rules.json.backup.20240101_120001"] ∧
  (let d4 := save_all Scenario.store
               [(Scenario.second1, Scenario.a_example); (Scenario.second2, Scenario.b_example);
                (Scenario.second3, Scenario.a_example); (Scenario.second4, Scenario.b_example)]
               Scenario.empty_disk in
   journal (save_managed_rules Scenario.store Scenario.second5 Scenario.a_example d4).2 =
     journal d4 ++
     [Copied "/app/data/managed_rules.json"
        "/app/data/managed_rules.json.backup.20240101_120005";
      Copied "/app/data/managed_rules.json" "/app/data/managed_rules.json.backup";
      Removed "/app/data/managed_rules.json.backup.20240101_120002";
      Written "/app/data/managed_rules.json.tmp";
      Moved "/app/data/managed_rules.json.tmp" "/app/data/managed_rules.json"]).
Proof. split; by vm_compute. Qed.

(** *** Loading a damaged store *)

Lemma first_valid_ext fs1 fs2 l :
  (∀ p, p ∈ l → fs1 !! p = fs2 !! p) → first_valid fs1 l = first_valid fs2 l.
Proof.
  induction l as [|p l IH]; intros Hsame; simpl; [done|].
  rewrite (Hsame p) by apply list_elem_of_here.
  destruct (fs2 !! p ≫= loads); [done|].
  apply IH. intros q Hq. apply Hsame. by apply list_elem_of_further.
Qed.

Lemma loads_saved rules : loads (JsonDict (data_of_rule <$> rules)) = Some rules.
Proof.
  simpl. f_equal. apply map_eq. intros d.
  rewrite lookup_omap, lookup_fmap. by destruct (rules !! d) as [[]|].
Qed.

Section Recovery.

Variable db : RuleDatabase.
Variable now : Clock.

Lemma lookup_quarantined d c p :
  files d !! db_file db = Some c →
  files (quarantined now (db_file db) d) !! p =
    if decide (p = quarantine_name now (db_file db)) then Some c
    else if decide (p = db_file db) then None
    else files d !! p.
Proof.
  intros Hf. unfold quarantined. rewrite Hf. simpl.
  destruct (decide (p = quarantine_name now (db_file db))) as [->|H1];
    [apply lookup_insert_eq|].
  rewrite lookup_insert_ne by done.
  destruct (decide (p = db_file db)) as [->|H2]; [apply lookup_delete_eq|].
  by rewrite lookup_delete_ne.
Qed.

Lemma lookup_quarantined_candidate d c p :
  files d !! db_file db = Some c →
  String.prefix (backup_pattern db) p = true ∨ p = backup_file db →
  files (quarantined now (db_file db) d) !! p = files d !! p.
Proof.
  intros Hf Hp. rewrite (lookup_quarantined _ _ _ Hf).
  destruct (decide (p = quarantine_name now (db_file db))) as [->|_].
  { destruct Hp as [Hp|Hp]; [by rewrite pattern_quarantine in Hp|].
    by destruct (quarantine_ne_backup_file db now). }
  destruct (decide (p = db_file db)) as [->|_]; [|done].
  destruct Hp as [Hp|Hp]; [by rewrite pattern_db_file in Hp|].
  by destruct (backup_file_ne_db_file db).
Qed.

Lemma restore_candidates_quarantined d c :
  files d !! db_file db = Some c →
  restore_candidates db (quarantined now (db_file db) d) = restore_candidates db d.
Proof.
  intros Hf. unfold restore_candidates. f_equal.
  - apply generations_ext. intros p Hp.
    rewrite (lookup_quarantined_candidate _ _ _ Hf); [done|by left].
  - unfold os_path_exists.
    rewrite (lookup_quarantined_candidate _ _ _ Hf); [done|by right].
Qed.

Lemma elem_of_restore_candidates d p :
  p ∈ restore_candidates db d →
  String.prefix (backup_pattern db) p = true ∨ p = backup_file db.
Proof.
  unfold restore_candidates. rewrite elem_of_app. intros [Hp|Hp].
  - left. by apply elem_of_generations in Hp as [_ ?].
  - right. destruct (os_path_exists _ _); [|by apply elem_of_nil in Hp].
    by apply list_elem_of_singleton in Hp.
Qed.

(** The load of a store whose main file does not parse. *)
Lemma load_corrupt_result d c :
  files d !! db_file db = Some c → loads c = None →
  load_managed_rules db now d =
    match first_valid (files d) (restore_candidates db d) with
    | Some (path, rules) => (Return rules, restored db path (quarantined now (db_file db) d))
    | None => (Return ∅, quarantined now (db_file db) d)
    end.
Proof.
  intros Hf Hl. rewrite (load_corrupt _ _ _ _ Hf Hl). unfold restore_result.
  rewrite (restore_candidates_quarantined _ _ Hf).
  rewrite (first_valid_ext (files (quarantined now (db_file db) d)) (files d)); [done|].
  intros p Hp. apply (lookup_quarantined_candidate _ _ _ Hf).
  by apply elem_of_restore_candidates in Hp.
Qed.

(** C10. A main file that parses as a dictionary but yields no valid rule,
    such as the file of a saved empty set, makes the load return the empty
    set and move the main file to its [.corrupted.<time>] name; nothing else
    on the disk changes and no backup is read or copied, whatever the backups
    hold. *)
Theorem empty_primary_is_quarantined d c :
  files d !! db_file db = Some c → loads c = Some ∅ →
  let result := load_managed_rules db now d in
  result.1 = Return ∅ ∧
  files result.2 !! db_file db = None ∧
  files result.2 !! quarantine_name now (db_file db) = Some c ∧
  journal result.2 =
    journal d ++ [Moved (db_file db) (quarantine_name now (db_file db))] ∧
  (∀ p, p ≠ db_file db → p ≠ quarantine_name now (db_file db) →
        files result.2 !! p = files d !! p) ∧
  (∀ now0 d0,
     files (save_managed_rules db now0 ∅ d0).2 !! db_file db = Some (JsonDict ∅) ∧
     loads (JsonDict ∅) = Some ∅).
Proof.
  intros Hf Hl result. unfold result. rewrite (load_empty _ _ _ _ Hf Hl). cbn [fst snd].
  split; [done|].
  split.
  { rewrite (lookup_quarantined _ _ _ Hf).
    rewrite decide_False by (intros Heq; by destruct (quarantine_ne_db_file db now)).
    by rewrite decide_True. }
  split; [rewrite (lookup_quarantined _ _ _ Hf); by rewrite decide_True|].
  split; [unfold quarantined; by rewrite Hf|].
  split.
  { intros p H1 H2. rewrite (lookup_quarantined _ _ _ Hf).
    by rewrite !decide_False. }
  intros now0 d0. split.
  - rewrite lookup_save_db_file. by rewrite fmap_empty.
  - simpl. by rewrite omap_empty.
Qed.

Lemma generations_only_main d c :
  files d = {[db_file db := c]} → generations db d = [].
Proof.
  intros Hf. apply generations_unique; [constructor|constructor|].
  intros p. rewrite Hf. split; [by intros ?%elem_of_nil|].
  intros [[x Hx] Hp]. apply lookup_singleton_Some in Hx as [<- _].
  by rewrite pattern_db_file in Hp.
Qed.

Lemma lookup_truncated raw d p :
  p ≠ db_file db → files (truncated (db_file db) raw d) !! p = files d !! p.
Proof. intros Hp. unfold truncated. simpl. by rewrite lookup_insert_ne. Qed.

Lemma generations_truncated raw d :
  generations db (truncated (db_file db) raw d) = generations db d.
Proof.
  apply generations_ext. intros p Hp. rewrite lookup_truncated; [done|].
  intros ->. by rewrite pattern_db_file in Hp.
Qed.

Lemma lookup_save_generation now0 rules d c :
  files d !! db_file db = Some c →
  generation_name db now0 ∈ generations db (save_managed_rules db now0 rules d).2 →
  files (save_managed_rules db now0 rules d).2 !! generation_name db now0 = Some c.
Proof.
  intros Hf. rewrite (generations_save_existing _ _ _ _ _ Hf).
  rewrite (save_existing _ _ _ _ _ Hf). cbn [snd]. intros Hin.
  rewrite lookup_written.
  rewrite decide_False by apply generation_ne_db_file.
  rewrite decide_False by apply generation_ne_temp_file.
  rewrite lookup_pruned, decide_False.
  - rewrite (lookup_backed_up _ _ _ _ _ Hf).
    rewrite decide_False by apply generation_ne_backup_file. by rewrite decide_True.
  - pose proof (NoDup_generations db (backed_up db now0 d)) as Hnd.
    rewrite <- (take_drop (max_backups db)) in Hnd.
    apply NoDup_app in Hnd as (_ & Hdisj & _). by apply Hdisj.
Qed.

(** After a save over a store that held only a valid main file, a main file
    cut short makes the load return the rules of the file before the save. *)
Lemma truncated_after_save now0 rules raw d0 c0 prev :
  files d0 = {[db_file db := c0]} → loads c0 = Some prev →
  (load_managed_rules db now
     (truncated (db_file db) raw (save_managed_rules db now0 rules d0).2)).1 = Return prev.
Proof.
  intros Hd0 Hl.
  assert (files d0 !! db_file db = Some c0) as Hf by (rewrite Hd0; apply lookup_singleton_eq).
  set (d' := (save_managed_rules db now0 rules d0).2).
  set (dt := truncated (db_file db) raw d').
  assert (files dt !! db_file db = Some (Unparsable raw)) as Hft
    by (unfold dt, truncated; simpl; apply lookup_insert_eq).
  rewrite (load_corrupt_result dt _ Hft) by done.
  assert (generations db d' =
          take (max_backups db) [generation_name db now0]) as Hg.
  { unfold d'. rewrite (generations_save_existing _ _ _ _ _ Hf).
    rewrite (generations_backed_up_newest _ _ _ _ Hf);
      rewrite (generations_only_main _ _ Hd0); [done|by intros ?%elem_of_nil|done]. }
  assert (files dt !! backup_file db = Some c0) as Hb.
  { unfold dt. rewrite lookup_truncated by apply backup_file_ne_db_file.
    by apply lookup_save_backup_file. }
  unfold restore_candidates. rewrite (os_path_exists_true _ _ _ Hb).
  unfold dt at 2. rewrite generations_truncated, Hg.
  destruct (max_backups db) as [|k] eqn:Hk; cbn [take app first_valid].
  - rewrite Hb. cbn [mbind option_bind]. by rewrite Hl.
  - assert (files dt !! generation_name db now0 = Some c0) as ->.
    { unfold dt. rewrite lookup_truncated by apply generation_ne_db_file.
      apply lookup_save_generation; [done|]. fold d'. rewrite Hg. cbn [take].
      apply list_elem_of_here. }
    cbn [mbind option_bind]. by rewrite Hl.
Qed.

(** After the first save on an empty disk there is no backup: a main file
    cut short makes the load return the empty set. *)
Lemma truncated_after_first_save now0 rules raw d0 :
  files d0 = ∅ →
  (load_managed_rules db now
     (truncated (db_file db) raw (save_managed_rules db now0 rules d0).2)).1 = Return ∅.
Proof.
  intros Hd0.
  assert (files d0 !! db_file db = None) as Hf by (rewrite Hd0; apply lookup_empty).
  set (d' := (save_managed_rules db now0 rules d0).2).
  set (dt := truncated (db_file db) raw d').
  assert (files dt !! db_file db = Some (Unparsable raw)) as Hft
    by (unfold dt, truncated; simpl; apply lookup_insert_eq).
  rewrite (load_corrupt_result dt _ Hft) by done.
  assert (generations db dt = []) as Hg.
  { unfold dt. rewrite generations_truncated. unfold d'.
    rewrite (generations_save_fresh _ _ _ _ Hf). by apply generations_no_files. }
  assert (files dt !! backup_file db = None) as Hb.
  { unfold dt. rewrite lookup_truncated by apply backup_file_ne_db_file.
    unfold d'. rewrite (save_fresh _ _ _ _ Hf). cbn [snd]. rewrite lookup_written.
    rewrite decide_False by apply backup_file_ne_db_file.
    rewrite decide_False by (intros Heq; by destruct (temp_file_ne_backup_file db)).
    rewrite Hd0. apply lookup_empty. }
  unfold restore_candidates. by rewrite Hg, (os_path_exists_false _ _ Hb).
Qed.

(** C6 (as the code has it).  When the main file exists and does not parse,
    the load moves it to its quarantine name, keeping its content, and then
    tries the generation backups from the latest name down and the fixed-name
    backup last: the first that parses as a dictionary is copied over the main
    file and its rules are returned, even when it holds none; when no backup
    parses the empty set is returned.  No exception reaches the caller.
    After a save over a store that held only a valid main file, a main file
    cut short makes the load return the rules of the main file before that
    save; after the first save on an empty disk it makes the load return the
    empty set. *)
Theorem corrupt_primary_falls_back d c :
  files d !! db_file db = Some c → loads c = None →
  let d1 := quarantined now (db_file db) d in
  let result := load_managed_rules db now d in
  (files d1 !! quarantine_name now (db_file db) = Some c ∧
   files d1 !! db_file db = None ∧
   journal d1 = journal d ++ [Moved (db_file db) (quarantine_name now (db_file db))]) ∧
  result =
    match first_valid (files d) (restore_candidates db d) with
    | Some (path, rules) => (Return rules, restored db path d1)
    | None => (Return ∅, d1)
    end ∧
  (∃ rules, result.1 = Return rules) ∧
  (result.1 = Return ∅ ↔
   first_valid (files d) (restore_candidates db d) = None ∨
   ∃ path, first_valid (files d) (restore_candidates db d) = Some (path, ∅)) ∧
  (∀ now0 rules raw d0 c0 prev,
     files d0 = {[db_file db := c0]} → loads c0 = Some prev →
     (load_managed_rules db now
        (truncated (db_file db) raw (save_managed_rules db now0 rules d0).2)).1 =
     Return prev) ∧
  (∀ now0 rules raw d0,
     files d0 = ∅ →
     (load_managed_rules db now
        (truncated (db_file db) raw (save_managed_rules db now0 rules d0).2)).1 =
     Return ∅).
Proof.
  intros Hf Hl d1 result.
  assert (result =
          match first_valid (files d) (restore_candidates db d) with
          | Some (path, rules) => (Return rules, restored db path d1)
          | None => (Return ∅, d1)
          end) as Hres by exact (load_corrupt_result d c Hf Hl).
  split.
  { unfold d1. rewrite !(lookup_quarantined _ _ _ Hf).
    rewrite decide_True by done.
    rewrite decide_False by (intros Heq; by destruct (quarantine_ne_db_file db now)).
    rewrite decide_True by done.
    unfold quarantined. by rewrite Hf. }
  split; [done|].
  split.
  { rewrite Hres. destruct (first_valid _ _) as [[??]|]; by eauto. }
  split.
  { rewrite Hres. destruct (first_valid _ _) as [[path rules]|]; simpl.
    - split.
      + intros [= ->]. right. by eauto.
      + intros [?|[path' [= _ ->]]]; done.
    - split; [by left|done]. }
  split.
  - intros. by eapply truncated_after_save.
  - intros. by apply truncated_after_first_save.
Qed.

End Recovery.

(** The stale disk: its main file is cut short, and the load returns what the
    latest generation holds. *)
Lemma corrupt_primary_falls_back_witness :
  files Scenario.stale_disk !! db_file Scenario.store = Some (Unparsable "{") ∧
  loads (Unparsable "{") = None ∧
  ∃ rules, (load_managed_rules Scenario.store Scenario.second3 Scenario.stale_disk).1 =
           Return rules.
Proof.
  assert (files Scenario.stale_disk !! db_file Scenario.store = Some (Unparsable "{"))
    as Hf by (vm_compute; reflexivity).
  split; [done|]. split; [done|].
  apply (corrupt_primary_falls_back Scenario.store Scenario.second3
           Scenario.stale_disk _ Hf eq_refl).
Defined.

(** After the first save of [a.example] on an empty disk, a main file cut
    short makes the load return the empty set: there is no backup yet.  And
    on the stale disk the load returns the empty set of the latest
    generation although an earlier generation holds a rule. *)
Lemma crash_round_trip_counterexample :
  (load_managed_rules Scenario.store Scenario.second2
     (truncated (db_file Scenario.store) "{"
        (save_managed_rules Scenario.store Scenario.second1 Scenario.a_example
           Scenario.empty_disk).2)).1 = Return ∅ ∧
  (load_managed_rules Scenario.store Scenario.second3 Scenario.stale_disk).1 = Return ∅ ∧
  files Scenario.stale_disk !! "/app/data/managed_rules.json.backup.20240101_120001"
    ≫= loads = Some Scenario.a_example.
Proof. repeat split; by vm_compute. Qed.

(** The file of a saved empty set, loaded one second later. *)
Lemma empty_primary_is_quarantined_witness :
  let d := (save_managed_rules Scenario.store Scenario.second1 ∅ Scenario.empty_disk).2 in
  files d !! db_file Scenario.store = Some (JsonDict ∅) ∧
  loads (JsonDict ∅) = Some ∅ ∧
  (load_managed_rules Scenario.store Scenario.second2 d).1 = Return ∅.
Proof.
  intros d.
  assert (files d !! db_file Scenario.store = Some (JsonDict ∅)) as Hf
    by (vm_compute; reflexivity).
  assert (loads (JsonDict ∅) = Some ∅) as Hl by (vm_compute; reflexivity).
  split; [done|]. split; [done|].
  apply (empty_primary_is_quarantined Scenario.store Scenario.second2 d _ Hf Hl).
Defined.

End StoreProofs.

(** * Properties of the reconciliation cycle *)
Module CycleProofs.
Import Models AdGuard.
Import ClientProofs StoreProofs.

Lemma safety_check_empty threshold : safety_check_failed 0 0 threshold = false.
Proof. by destruct threshold as [[]|[]| |[] ??]. Qed.

(** With the default threshold the check is [5 * n_delete > 4 * n_managed],
    for up to 100 managed rules. *)
Lemma default_check_is_four_fifths n_delete n_managed :
  n_managed ≤ 100 → n_delete ≤ n_managed →
  safety_check_failed n_delete n_managed (safety_threshold default_config) =
    bool_decide (4 * n_managed < 5 * n_delete).
Proof.
  intros Hn Hk.
  assert (check_is_four_fifths 100 = true) as Hall by (vm_compute; reflexivity).
  unfold check_is_four_fifths in Hall.
  rewrite forallb_forall in Hall.
  specialize (Hall n_managed). rewrite forallb_forall in Hall.
  assert (Bool.eqb (safety_check_failed n_delete n_managed float_0_8)
            (4 * n_managed <? 5 * n_delete) = true) as Heq.
  { apply Hall; apply in_seq; lia. }
  apply Bool.eqb_prop in Heq. simpl. rewrite Heq.
  destruct (Nat.ltb_spec (4 * n_managed) (5 * n_delete)).
  - by rewrite bool_decide_eq_true_2.
  - rewrite bool_decide_eq_false_2; [done|lia].
Qed.

Section Facts.

Context {World : Type}.
Variable session_get : World → get_result * World.
Variable session_post : operation → payload → World → post_result * World.
Variable set_iter : gset string → list string.
Variable cfg : Config.
Variable db : Database.RuleDatabase.

Hypothesis set_iter_perm : ∀ s, set_iter s ≡ₚ elements s.

Local Abbreviation cycle := (App.sync_rules session_get session_post set_iter cfg db).
Local Abbreviation apply := (apply_changes session_get session_post set_iter cfg).
Local Abbreviation sync := (AdGuard.sync_rules session_get session_post set_iter cfg).

(** A cycle, unfolded: the load, the gateway run, and the save when the run
    was not stopped early. *)
Lemma cycle_run dns now d w :
  let new_rules := App.generate_rules dns in
  let managed := match (Database.load_managed_rules db now d).1 with
                 | Database.Return m => m
                 | Database.Raise _ => ∅
                 end in
  let d1 := (Database.load_managed_rules db now d).2 in
  let w1 := (session_get w).2 in
  let current := listed (session_get w).1 in
  cycle dns now d w =
    if aborted cfg new_rules (Some managed) current
    then App.mkCycle false d1 w1 [Get]
    else App.mkCycle true (Database.save_managed_rules db now new_rules d1).2
           (world_after (apply new_rules current (dom managed) w1))
           (Get :: trace (apply new_rules current (dom managed) w1)).
Proof.
  intros new_rules managed d1 w1 current. unfold App.sync_rules.
  destruct (load_never_raises db now d) as (m & d' & Hload).
  unfold managed, d1. rewrite Hload. cbn [fst snd].
  fold new_rules. rewrite (sync_rules_run session_get session_post set_iter cfg).
  cbn zeta. fold current w1.
  destruct (aborted cfg new_rules (Some m) current); [done|].
  rewrite (apply_changes_value session_get session_post set_iter cfg set_iter_perm).
  destruct (save_never_raises db now new_rules d') as (d2 & Hsave & _).
  by rewrite Hsave.
Qed.

Lemma cycle_aborted dns now d w m :
  (Database.load_managed_rules db now d).1 = Database.Return m →
  aborted cfg (App.generate_rules dns) (Some m) (listed (session_get w).1) = true →
  cycle dns now d w =
    App.mkCycle false (Database.load_managed_rules db now d).2 (session_get w).2 [Get].
Proof. intros Hm Ha. rewrite cycle_run. cbn zeta. by rewrite Hm, Ha. Qed.

Lemma cycle_applied dns now d w m :
  (Database.load_managed_rules db now d).1 = Database.Return m →
  aborted cfg (App.generate_rules dns) (Some m) (listed (session_get w).1) = false →
  cycle dns now d w =
    App.mkCycle true
      (Database.save_managed_rules db now (App.generate_rules dns)
         (Database.load_managed_rules db now d).2).2
      (world_after (apply (App.generate_rules dns) (listed (session_get w).1) (dom m)
                      (session_get w).2))
      (Get :: trace (apply (App.generate_rules dns) (listed (session_get w).1) (dom m)
                       (session_get w).2)).
Proof. intros Hm Ha. rewrite cycle_run. cbn zeta. by rewrite Hm, Ha. Qed.

(** C2. When the managed set is not empty and the safety check fails, the
    cycle stops after the list call: it posts nothing and leaves the disk as
    the load left it, which is the disk before the cycle when the managed set
    was read from the main file.  When the managed set is empty, nothing is
    to be deleted and the check passes for every threshold, so that a cycle
    whose list call returned rules posts every planned add and update.  With
    the default threshold, nine deletions out of ten managed rules fail the
    check, and the cycle of that scenario posts nothing and leaves the disk
    unchanged; for up to 100 managed rules the check with the default
    threshold is the comparison of five times the deletions with four times
    the managed rules. *)
Theorem safety_guard dns now d w managed :
  let new_rules := App.generate_rules dns in
  let loaded := Database.load_managed_rules db now d in
  let current := listed (session_get w).1 in
  let r := cycle dns now d w in
  loaded.1 = Database.Return managed →
  (managed ≠ ∅ →
   safety_check_failed (size (to_delete (dom managed) new_rules)) (size (dom managed))
     (safety_threshold cfg) = true →
   App.success r = false ∧ posts (App.events r) = [] ∧ App.disk_after r = loaded.2 ∧
   (∀ c, Database.files d !! Database.db_file db = Some c →
         Database.loads c = Some managed → App.disk_after r = d)) ∧
  (managed = ∅ →
   to_delete (dom managed) new_rules = ∅ ∧
   safety_check_failed (size (to_delete (dom managed) new_rules)) (size (dom managed))
     (safety_threshold cfg) = false ∧
   (current ≠ ∅ → 1 ≤ max_retries cfg →
    App.success r = true ∧
    ∀ op p, planned new_rules current (dom managed) op p → (op, p) ∈ posts (App.events r))) ∧
  ((∀ n_delete n_managed,
      n_managed ≤ 100 → n_delete ≤ n_managed →
      safety_check_failed n_delete n_managed (safety_threshold default_config) =
        bool_decide (4 * n_managed < 5 * n_delete)) ∧
   safety_check_failed 9 10 (safety_threshold default_config) = true ∧
   safety_check_failed 8 10 (safety_threshold default_config) = false ∧
   let run := App.sync_rules Provider.session_get Provider.session_post elements
                default_config Scenario.store Scenario.one_host Scenario.second1
                Scenario.ten_disk Scenario.ten_provider in
   size (dom Scenario.ten_managed) = 10 ∧
   size (to_delete (dom Scenario.ten_managed) (App.generate_rules Scenario.one_host)) = 9 ∧
   App.success run = false ∧ App.events run = [Get] ∧
   App.disk_after run = Scenario.ten_disk).
Proof.
  intros new_rules loaded current r Hm. split; [|split].
  - intros Hne Hfail.
    assert (aborted cfg new_rules (Some managed) current = true) as Ha.
    { unfold aborted. simpl. rewrite Hfail. apply orb_true_r. }
    unfold r. rewrite (cycle_aborted _ _ _ _ _ Hm Ha). simpl.
    split; [done|]. split; [done|]. split; [done|].
    intros c Hf Hl. unfold loaded. by rewrite (load_valid _ _ _ _ _ Hf Hl Hne).
  - intros ->.
    assert (to_delete (dom (∅ : gmap string RewriteRule)) new_rules = ∅) as Hnone.
    { unfold to_delete. rewrite dom_empty_L. apply set_eq. intros x.
      rewrite elem_of_difference. split; [by intros [?%elem_of_empty _]|].
      by intros ?%elem_of_empty. }
    split; [done|]. rewrite Hnone, dom_empty_L, size_empty.
    split; [apply safety_check_empty|].
    intros Hcur Hn.
    assert (aborted cfg new_rules (Some ∅) current = false) as Ha.
    { unfold aborted. simpl. rewrite Hnone, dom_empty_L, size_empty, safety_check_empty.
      rewrite orb_false_r. by apply bool_decide_eq_false. }
    unfold r. rewrite (cycle_applied _ _ _ _ _ Hm Ha). simpl.
    split; [done|]. intros op p Hp. rewrite ?dom_empty_L.
    by apply (apply_changes_complete session_get session_post set_iter cfg set_iter_perm).
  - split; [apply default_check_is_four_fifths|]. by vm_compute.
Qed.

(** C3, what the code does.  A cycle whose list call yields no rule stops
    there: it posts nothing and leaves the disk as the load left it.  The
    list call yields no rule when the transport raises, and equally when the
    provider answers with status 200 and an empty list: in the cycle of the
    empty provider the host [y] is to be added, and nothing is posted. *)
Theorem empty_list_stops_cycle :
  (∀ dns now d w,
     listed (session_get w).1 = ∅ →
     let r := cycle dns now d w in
     App.success r = false ∧ App.events r = [Get] ∧
     App.disk_after r = (Database.load_managed_rules db now d).2) ∧
  listed GetRaised = ∅ ∧
  listed (GetStatus 200 (BodyList [])) = ∅ ∧
  (let hosts : gmap string string := {["y" := "10.0.0.2"]} in
   let run := App.sync_rules Provider.session_get Provider.session_post elements
                default_config Scenario.store hosts Scenario.second1
                Scenario.empty_disk ∅ in
   (Provider.session_get ∅).1 = GetStatus 200 (BodyList []) ∧
   to_add_or_update (App.generate_rules hosts) (listed (Provider.session_get ∅).1) = {["y"]} ∧
   App.success run = false ∧ App.events run = [Get] ∧
   App.disk_after run = Scenario.empty_disk).
Proof.
  split; [|by vm_compute].
  intros dns now d w Hempty r.
  destruct (load_never_raises db now d) as (m & d' & Hload).
  assert (aborted cfg (App.generate_rules dns) (Some m) (listed (session_get w).1) = true)
    as Ha by (unfold aborted; by rewrite Hempty).
  unfold r. rewrite (cycle_aborted _ _ _ _ m); [done|by rewrite Hload|done].
Qed.

(** C5. A cycle that is stopped neither by an empty list result nor by the
    safety check returns [True] and leaves in the main file the rules
    generated from the observer's result, whatever the provider answered to
    the single requests: the file parses back to exactly these rules, and
    the next load returns them.  In the partial-apply scenario the three
    attempts to update [x] fail and the add of [y] succeeds; the file then
    holds both [x] and [y]. *)
Theorem desired_set_is_persisted dns now d w managed :
  let new_rules := App.generate_rules dns in
  let r := cycle dns now d w in
  (Database.load_managed_rules db now d).1 = Database.Return managed →
  aborted cfg new_rules (Some managed) (listed (session_get w).1) = false →
  (App.success r = true ∧
   Database.files (App.disk_after r) !! Database.db_file db =
     Some (Database.JsonDict (Database.data_of_rule <$> new_rules)) ∧
   Database.loads (Database.JsonDict (Database.data_of_rule <$> new_rules)) =
     Some new_rules ∧
   (∀ now', (Database.load_managed_rules db now' (App.disk_after r)).1 =
            Database.Return new_rules)) ∧
  (let run := App.sync_rules Provider.session_get
                (Provider.faulty_post Scenario.drop_updates) elements default_config
                Scenario.store Scenario.partial_hosts Scenario.second1
                Scenario.empty_disk Scenario.partial_provider in
   let x_update := Post OpUpdate (UpdatePayload "x" "10.0.0.1" "x" "10.0.0.9") in
   App.success run = true ∧
   App.events run =
     [Get; Post OpAdd (RulePayload (mkRule "y" "10.0.0.2" true));
      x_update; Sleep 2; x_update; Sleep 2; x_update] ∧
   App.world_after run !! "x" = Some ("10.0.0.1", None) ∧
   App.world_after run !! "y" = Some ("10.0.0.2", Some true) ∧
   (Database.load_managed_rules Scenario.store Scenario.second2 (App.disk_after run)).1 =
     Database.Return (App.generate_rules Scenario.partial_hosts) ∧
   dom (App.generate_rules Scenario.partial_hosts) = {["x"; "y"]}).
Proof.
  intros new_rules r Hm Ha. split; [|by vm_compute].
  unfold r. rewrite (cycle_applied _ _ _ _ _ Hm Ha). simpl.
  split; [done|]. split; [apply lookup_save_db_file|].
  split; [apply loads_saved|].
  intros now'.
  set (d2 := (Database.save_managed_rules db now (App.generate_rules dns) _).2).
  pose proof (lookup_save_db_file db now (App.generate_rules dns)
                (Database.load_managed_rules db now d).2) as Hf. fold d2 in Hf.
  destruct (decide (App.generate_rules dns = ∅)) as [Hempty|Hne].
  - rewrite (load_empty db now' d2 _ Hf).
    + unfold new_rules. by rewrite Hempty.
    + rewrite loads_saved. by rewrite Hempty.
  - by rewrite (load_valid db now' d2 _ _ Hf (loads_saved _) Hne).
Qed.

End Facts.

(** *** Cycles against the well-behaved provider *)

Lemma provider_rules_lookup (w : Provider.state) d :
  Provider.rules_of w !! d = (λ r : Provider.record, mkRule d r.1 (default true r.2)) <$> w !! d.
Proof. unfold Provider.rules_of. rewrite map_lookup_imap.
by destruct (w !! d). Qed.

Lemma rules_of_items_lookup (l : list (string * Provider.record)) m d :
  NoDup l.*1 →
  foldl add_item m (Provider.item_of <$> l) !! d =
    match (list_to_map l : gmap string Provider.record) !! d with
    | Some r => Some (mkRule d r.1 (default true r.2))
    | None => m !! d
    end.
Proof.
  revert m. induction l as [|[k r] l IH]; intros m Hnd; [done|].
  rewrite fmap_cons in Hnd. apply NoDup_cons in Hnd as [Hk Hnd].
  rewrite fmap_cons. cbn [foldl]. rewrite IH by done. rewrite list_to_map_cons.
  unfold add_item, Provider.item_of. cbn [fst snd].
  destruct (decide (d = k)) as [->|Hne].
  - rewrite (not_elem_of_list_to_map_1 l k) by done. by rewrite !lookup_insert_eq.
  - rewrite (lookup_insert_ne (list_to_map l)) by done.
    destruct (list_to_map l !! d); [done|]. by rewrite lookup_insert_ne.
Qed.

(** The rules read from the provider are the rules of its state. *)
Lemma provider_listed (w : Provider.state) :
  listed (Provider.session_get w).1 = Provider.rules_of w.
Proof.
  simpl. apply map_eq. intros d. unfold rules_of_items.
  rewrite rules_of_items_lookup by apply NoDup_fst_map_to_list.
  rewrite list_to_map_to_list, provider_rules_lookup, lookup_empty.
  by destruct (w !! d).
Qed.

Lemma provider_failure_changes_nothing op p (w : Provider.state) :
  succeeded (Provider.session_post op p w).1 = false →
  (Provider.session_post op p w).2 = w.
Proof.
  destruct op, p; simpl; try done; by destruct (Provider.matches w _ _).
Qed.

Section Healthy.

Variable set_iter : gset string → list string.
Variable cfg : Config.

Hypothesis set_iter_perm : ∀ s, set_iter s ≡ₚ elements s.
Hypothesis retries : 1 ≤ max_retries cfg.

Local Abbreviation request := (_make_rule_request Provider.session_post cfg).

(** Against the provider a request does, with its retries, what its first
    post does. *)
Lemma provider_request_world op p (w : Provider.state) :
  world_after (request op p w) = (Provider.session_post op p w).2.
Proof using retries.
  unfold _make_rule_request. destruct (max_retries cfg) as [|n]; [lia|].
  simpl. rewrite bind_world, http_post_value, http_post_world.
  destruct (succeeded _) eqn:Hok; [done|].
  rewrite bind_world.
  apply provider_failure_changes_nothing in Hok. rewrite Hok.
  assert (∀ (c : M unit), world_after (c w) = w →
            world_after (_make_rule_request_loop Provider.session_post cfg
                           (seq 1 n) op p (world_after (c w))) = w) as Hloop.
  { intros c ->. by apply request_loop_world_stable. }
  destruct (0 <? _); by apply Hloop.
Qed.

Local Abbreviation astep := (add_step Provider.session_post cfg).
Local Abbreviation ustep := (update_step Provider.session_get Provider.session_post cfg).
Local Abbreviation dstep := (delete_step Provider.session_get Provider.session_post cfg).

Lemma add_step_provider target (w : Provider.state) d rule :
  target !! d = Some rule →
  astep target w d = <[domain rule := (answer rule, Some (enabled rule))]> w.
Proof using retries.
  intros Ht. unfold add_step, add_rewrite_rule. rewrite Ht.
  by rewrite provider_request_world.
Qed.

Lemma update_step_provider target current (w : Provider.state) d rule c old :
  target !! d = Some rule → current !! d = Some c → needs_update c rule = true →
  current !! domain rule = Some old →
  ustep target current w d =
    if Provider.matches w (domain rule) (answer old)
    then <[domain rule := (answer rule, None)]> (delete (domain rule) w)
    else w.
Proof using retries.
  intros Ht Hc Hneed Hold. unfold update_step, update_rewrite_rule.
  rewrite Ht, Hc, Hneed, bind_world. cbn [ret value world_after fst snd].
  rewrite Hold, provider_request_world. simpl.
  by destruct (Provider.matches w (domain rule) (answer old)).
Qed.

Lemma delete_step_provider current (w : Provider.state) d :
  dstep current w d =
    match current !! d with
    | Some rule => if Provider.matches w d (answer rule) then delete d w else w
    | None => w
    end.
Proof using retries.
  unfold delete_step, delete_rewrite_rule.
  rewrite bind_world. cbn [ret value world_after fst snd].
  destruct (current !! d) as [rule|]; [|done].
  rewrite provider_request_world. simpl.
  by destruct (Provider.matches w d (answer rule)).
Qed.

(** After the apply phase of a run against the provider, the provider agrees
    with every target rule, provided the targets are keyed by domain and
    enabled, as generated rules are. *)
Lemma provider_converges target managed (w0 : Provider.state) d rule :
  keyed_by_domain target →
  (∀ d r, target !! d = Some r → enabled r = true) →
  target !! d = Some rule →
  Provider.agrees
    (world_after (apply_changes Provider.session_get Provider.session_post set_iter cfg
                    target (Provider.rules_of w0) managed w0)) d rule.
Proof using set_iter_perm retries.
  intros Hkey Hen Ht.
  set (current := Provider.rules_of w0).
  set (Q := λ (d : string) (w : Provider.state),
              ∀ rule, target !! d = Some rule → Provider.agrees w d rule).
  rewrite (apply_changes_world _ _ _ _ set_iter_perm).
  set (la := set_iter (to_add_or_update target current)).
  set (lu := set_iter (to_update target current)).
  set (ld := set_iter (to_delete managed target)).
  (* the add loop *)
  destruct (foldl_invariant (astep target)
              (λ w, ∀ d, is_Some (w0 !! d) → w !! d = w0 !! d) Q la w0)
    as (Hinv1 & _ & Hq1); [| |done|].
  { intros w b Hb Hinv.
    apply (elem_of_set_iter set_iter set_iter_perm) in Hb.
    unfold to_add_or_update in Hb. apply elem_of_difference in Hb as [Hbt Hbc].
    apply elem_of_dom in Hbt as [rb Hrb]. rewrite (add_step_provider _ _ _ _ Hrb).
    rewrite (Hkey _ _ Hrb). split.
    - intros d' Hd'. rewrite lookup_insert_ne; [by apply Hinv|].
      intros <-. apply Hbc, elem_of_dom. unfold current.
      rewrite provider_rules_lookup. by apply fmap_is_Some.
    - intros r' Hr'. simplify_eq. eexists. by rewrite lookup_insert_eq. }
  { intros w b b' Hb Hinv Hq r' Hr'.
    apply (elem_of_set_iter set_iter set_iter_perm) in Hb.
    unfold to_add_or_update in Hb. apply elem_of_difference in Hb as [Hbt Hbc].
    apply elem_of_dom in Hbt as [rb Hrb]. rewrite (add_step_provider _ _ _ _ Hrb).
    rewrite (Hkey _ _ Hrb). destruct (decide (b' = b)) as [->|Hne].
    - simplify_eq. eexists. by rewrite lookup_insert_eq.
    - destruct (Hq r' Hr') as (en & Hw & Hd). exists en. by rewrite lookup_insert_ne. }
  (* the update loop *)
  set (wa := foldl (astep target) w0 la) in *.
  assert (∀ w b, b ∈ lu →
            (∀ d r, target !! d = Some r → is_Some (w0 !! d) →
                    Provider.agrees w d r ∨ w !! d = w0 !! d) →
            (∀ d', d' ≠ b → ustep target current w b !! d' = w !! d') ∧
            Q b (ustep target current w b)) as Hustep.
  { intros w b Hb Hinv.
    apply (elem_of_set_iter set_iter set_iter_perm) in Hb.
    unfold to_update in Hb. apply elem_of_intersection in Hb as [Hbc Hbt].
    apply elem_of_dom in Hbt as [rb Hrb]. apply elem_of_dom in Hbc as [cb Hcb].
    pose proof Hcb as Hw0. unfold current in Hw0. rewrite provider_rules_lookup in Hw0.
    destruct (w0 !! b) as [[a0 en0]|] eqn:Hw0b; simplify_eq/=.
    pose proof (Hkey _ _ Hrb) as Hdom.
    destruct (needs_update (mkRule b a0 (default true en0)) rb) eqn:Hneed.
    - rewrite (update_step_provider _ _ _ _ _ _ (mkRule b a0 (default true en0))
                 Hrb Hcb Hneed) by by rewrite Hdom.
      rewrite Hdom. simpl.
      destruct (Provider.matches w b a0) eqn:Hm.
      + split.
        * intros d' Hd'. rewrite lookup_insert_ne by done. by rewrite lookup_delete_ne.
        * intros r' Hr'. simplify_eq. exists None. rewrite lookup_insert_eq.
          split; [done|]. simpl. symmetry. by eapply Hen.
      + split; [done|]. intros r' Hr'. simplify_eq.
        destruct (Hinv _ _ Hrb) as [?|Hsame]; [by rewrite Hw0b|done|].
        unfold Provider.matches in Hm. rewrite Hsame, Hw0b in Hm.
        by rewrite bool_decide_eq_true_2 in Hm.
    - unfold update_step. rewrite Hrb, Hcb, Hneed. split; [done|].
      intros r' Hr'. simplify_eq.
      destruct (Hinv _ _ Hrb) as [?|Hsame]; [by rewrite Hw0b|done|].
      unfold needs_update in Hneed. simpl in Hneed.
      apply orb_false_iff in Hneed as [H1 H2].
      apply negb_false_iff, bool_decide_eq_true in H1, H2.
      exists en0. by rewrite Hsame, Hw0b, H1. }
  destruct (foldl_invariant (ustep target current)
              (λ w, ∀ d r, target !! d = Some r → is_Some (w0 !! d) →
                           Provider.agrees w d r ∨ w !! d = w0 !! d) Q lu wa)
    as (_ & Hkeep2 & Hq2).
  { intros w b Hb Hinv. destruct (Hustep w b Hb Hinv) as [Hother Hqb].
    split; [|done]. intros d' r' Hr' Hd'. destruct (decide (d' = b)) as [->|Hne].
    - left. by apply Hqb.
    - destruct (Hinv d' r' Hr' Hd') as [(en & Hw & Hd)|Hsame].
      + left. exists en. by rewrite Hother.
      + right. by rewrite Hother. }
  { intros w b b' Hb Hinv Hq r' Hr'. destruct (Hustep w b Hb Hinv) as [Hother Hqb].
    destruct (decide (b' = b)) as [->|Hne]; [by apply Hqb|].
    destruct (Hq r' Hr') as (en & Hw & Hd). exists en. by rewrite Hother. }
  { intros d' r' Hr' Hd'. right. by apply Hinv1. }
  (* the delete loop *)
  set (wu := foldl (ustep target current) wa lu) in *.
  destruct (foldl_invariant (dstep current) (λ _, True) Q ld wu) as (_ & Hkeep3 & _);
    [| |done|].
  { intros w b Hb _. split; [done|]. intros r' Hr'.
    apply (elem_of_set_iter set_iter set_iter_perm) in Hb.
    unfold to_delete in Hb. apply elem_of_difference in Hb as [_ Hbt].
    destruct Hbt. apply elem_of_dom. by eexists. }
  { intros w b b' Hb _ Hq r' Hr'.
    apply (elem_of_set_iter set_iter set_iter_perm) in Hb.
    unfold to_delete in Hb. apply elem_of_difference in Hb as [_ Hbt].
    assert (b' ≠ b) as Hne by (intros ->; apply Hbt, elem_of_dom; by eexists).
    destruct (Hq r' Hr') as (en & Hw & Hd). exists en. split; [|done].
    rewrite delete_step_provider. destruct (current !! b); [|done].
    destruct (Provider.matches w b _); [|done]. by rewrite lookup_delete_ne. }
  apply Hkeep3; [|done].
  destruct (w0 !! d) as [r0|] eqn:Hw0d.
  - apply Hq2. apply (elem_of_set_iter set_iter set_iter_perm).
    unfold to_update. rewrite elem_of_intersection, !elem_of_dom. split; [|by eexists].
    unfold current. rewrite provider_rules_lookup, Hw0d. by eexists.
  - apply Hkeep2. apply Hq1. apply (elem_of_set_iter set_iter set_iter_perm).
    unfold to_add_or_update. rewrite elem_of_difference, !elem_of_dom. split; [by eexists|].
    unfold current. rewrite provider_rules_lookup, Hw0d. by intros [??].
Qed.

End Healthy.

(** *** Two cycles in a row *)

Lemma first_valid_Some fs l p rules :
  Database.first_valid fs l = Some (p, rules) →
  ∃ c, fs !! p = Some c ∧ Database.loads c = Some rules.
Proof.
  induction l as [|q l IH]; simpl; [done|].
  destruct (fs !! q) as [c|] eqn:Hq; simpl; [|done].
  destruct (Database.loads c) as [r|] eqn:Hl; [|done].
  intros [= <- <-]. by eauto.
Qed.

Lemma lookup_restored db path d c :
  Database.files d !! path = Some c →
  Database.files (Database.restored db path d) !! Database.db_file db = Some c.
Proof. intros Hf. unfold Database.restored. rewrite Hf. simpl. apply lookup_insert_eq. Qed.

(** A load that returned rules returns the same rules when it is repeated,
    and changes nothing the second time. *)
Lemma load_idempotent db now1 now2 d m :
  (Database.load_managed_rules db now1 d).1 = Database.Return m → m ≠ ∅ →
  Database.load_managed_rules db now2 (Database.load_managed_rules db now1 d).2 =
    (Database.Return m, (Database.load_managed_rules db now1 d).2).
Proof.
  destruct (Database.files d !! Database.db_file db) as [c|] eqn:Hf.
  - destruct (Database.loads c) as [rules|] eqn:Hl.
    + destruct (decide (rules = ∅)) as [->|Hne].
      * rewrite (load_empty _ _ _ _ Hf Hl). by intros [= <-].
      * rewrite (load_valid _ _ _ _ _ Hf Hl Hne). simpl. intros [= <-] _.
        by apply (load_valid _ _ _ _ _ Hf Hl).
    + rewrite (load_corrupt _ _ _ _ Hf Hl). unfold Database.restore_result.
      destruct (Database.first_valid _ _) as [[path rules]|] eqn:Hfirst; simpl.
      * intros [= <-] Hne.
        apply first_valid_Some in Hfirst as (c' & Hc' & Hl').
        by apply (load_valid _ _ _ c' _ (lookup_restored _ _ _ _ Hc') Hl').
      * by intros [= <-].
  - rewrite (load_missing _ _ _ Hf).
    destruct (Database.files d !! Database.backup_file db) as [c|] eqn:Hb;
      [|by intros [= <-]].
    destruct (Database.loads c) as [rules|] eqn:Hl; [|by intros [= <-]].
    case_bool_decide as Hne; [|by intros [= <-]].
    simpl. intros [= <-] _.
    by apply (load_valid _ _ _ c _ (lookup_restored _ _ _ _ Hb) Hl).
Qed.

(** After a save, a load returns the saved rules. *)
Lemma load_after_save db now now' rules d :
  (Database.load_managed_rules db now' (Database.save_managed_rules db now rules d).2).1 =
    Database.Return rules.
Proof.
  pose proof (lookup_save_db_file db now rules d) as Hf.
  destruct (decide (rules = ∅)) as [->|Hne].
  - rewrite (load_empty _ _ _ _ Hf); [done|]. by rewrite loads_saved.
  - by rewrite (load_valid _ _ _ _ _ Hf (loads_saved _) Hne).
Qed.

Lemma generate_rules_enabled dns d r :
  App.generate_rules dns !! d = Some r → enabled r = true.
Proof.
  rewrite generate_rules_lookup. destruct (dns !! d); simpl; [|done]. by intros [= <-].
Qed.

Lemma agrees_listed (w : Provider.state) d rule :
  domain rule = d → Provider.agrees w d rule →
  ∃ c, listed (Provider.session_get w).1 !! d = Some c ∧
       answer c = answer rule ∧ enabled c = enabled rule.
Proof.
  intros Hd (en & Hw & Hen). rewrite provider_listed, provider_rules_lookup, Hw.
  by eexists.
Qed.

(** C9. Two cycles in a row with the same observer result against the
    well-behaved provider: the second posts nothing.  When the first cycle
    was not stopped early, the provider then lists every desired domain with
    the desired answer and enabled flag, the managed set loaded by the second
    cycle is the desired set, and no deletion is selected. *)
Theorem second_cycle_is_quiet set_iter1 set_iter2 cfg db dns now1 now2 d
    (w : Provider.state) :
  (∀ s, set_iter1 s ≡ₚ elements s) → (∀ s, set_iter2 s ≡ₚ elements s) →
  1 ≤ max_retries cfg →
  let new_rules := App.generate_rules dns in
  let r1 := App.sync_rules Provider.session_get Provider.session_post set_iter1 cfg db
              dns now1 d w in
  let r2 := App.sync_rules Provider.session_get Provider.session_post set_iter2 cfg db
              dns now2 (App.disk_after r1) (App.world_after r1) in
  posts (App.events r2) = [] ∧
  (App.success r1 = true →
   (∀ dm rule, new_rules !! dm = Some rule →
      ∃ c, listed (Provider.session_get (App.world_after r1)).1 !! dm = Some c ∧
           answer c = answer rule ∧ enabled c = enabled rule) ∧
   (Database.load_managed_rules db now2 (App.disk_after r1)).1 =
     Database.Return new_rules ∧
   to_delete (dom new_rules) new_rules = ∅).
Proof.
  intros Hperm1 Hperm2 Hn new_rules r1 r2.
  destruct (load_never_raises db now1 d) as (m1 & d1 & Hload1).
  assert ((Database.load_managed_rules db now1 d).1 = Database.Return m1) as Hm1
    by by rewrite Hload1.
  destruct (aborted cfg new_rules (Some m1) (listed (Provider.session_get w).1)) eqn:Ha1.
  - (* the first cycle was stopped early: so is the second *)
    assert (r1 = App.mkCycle false (Database.load_managed_rules db now1 d).2 w [Get]) as Hr1
      by exact (cycle_aborted _ _ _ _ _ Hperm1 _ _ _ _ _ Hm1 Ha1).
    split; [|by rewrite Hr1].
    destruct (load_never_raises db now2 (App.disk_after r1)) as (m2 & d2 & Hload2).
    assert (aborted cfg new_rules (Some m2)
              (listed (Provider.session_get (App.world_after r1)).1) = true) as Ha2.
    { rewrite Hr1 in Hload2 |- *. cbn [App.disk_after App.world_after] in Hload2 |- *.
      unfold aborted in Ha1 |- *. apply orb_true_iff in Ha1 as [Ha1|Ha1].
      { by rewrite Ha1. }
      assert (m1 ≠ ∅) as Hne.
      { intros ->. simpl in Ha1.
        assert (to_delete (dom (∅ : gmap string RewriteRule)) new_rules = ∅) as Hnone.
        { unfold to_delete. rewrite dom_empty_L. apply set_eq. intros x.
          rewrite elem_of_difference. split; [by intros [?%elem_of_empty _]|].
          by intros ?%elem_of_empty. }
        by rewrite Hnone, dom_empty_L, size_empty, safety_check_empty in Ha1. }
      rewrite (load_idempotent _ _ now2 _ _ Hm1 Hne) in Hload2.
      injection Hload2 as <- _. rewrite Ha1. apply orb_true_r. }
    unfold r2.
    rewrite (cycle_aborted _ _ _ _ _ Hperm2 _ _ _ _ m2); [done|by rewrite Hload2|done].
  - (* the first cycle ran to its end *)
    assert (r1 = App.mkCycle true
              (Database.save_managed_rules db now1 new_rules
                 (Database.load_managed_rules db now1 d).2).2
              (world_after (apply_changes Provider.session_get Provider.session_post
                              set_iter1 cfg new_rules (listed (Provider.session_get w).1)
                              (dom m1) w))
              (Get :: trace (apply_changes Provider.session_get Provider.session_post
                               set_iter1 cfg new_rules (listed (Provider.session_get w).1)
                               (dom m1) w))) as Hr1
      by exact (cycle_applied _ _ _ _ _ Hperm1 _ _ _ _ _ Hm1 Ha1).
    assert (∀ dm rule, new_rules !! dm = Some rule →
              ∃ c, listed (Provider.session_get (App.world_after r1)).1 !! dm = Some c ∧
                   answer c = answer rule ∧ enabled c = enabled rule) as Hagree.
    { intros dm rule Hrule. apply agrees_listed; [by eapply generate_rules_keyed|].
      rewrite Hr1. cbn [App.world_after]. rewrite provider_listed.
      apply provider_converges; [done|done|apply generate_rules_keyed| |done].
      apply generate_rules_enabled. }
    assert ((Database.load_managed_rules db now2 (App.disk_after r1)).1 =
            Database.Return new_rules) as Hm2.
    { rewrite Hr1. cbn [App.disk_after]. apply load_after_save. }
    assert (to_delete (dom new_rules) new_rules = ∅) as Hnone.
    { unfold to_delete. apply set_eq. intros x. rewrite elem_of_difference.
      split; [by intros [??]|by intros ?%elem_of_empty]. }
    split; [|done].
    destruct (aborted cfg new_rules (Some new_rules)
                (listed (Provider.session_get (App.world_after r1)).1)) eqn:Ha2.
    { unfold r2. by rewrite (cycle_aborted _ _ _ _ _ Hperm2 _ _ _ _ _ Hm2 Ha2). }
    unfold r2. rewrite (cycle_applied _ _ _ _ _ Hperm2 _ _ _ _ _ Hm2 Ha2).
    cbn [App.events]. apply elem_of_nil_inv. intros [op p] Hin.
    change (posts (Get :: ?t)) with (posts t) in Hin.
    apply (apply_changes_sound _ _ _ _ Hperm2) in Hin.
    inversion Hin as [dm rule Hd Ht|dm rule c old Hd Ht Hc Hneed Hold
                     |dm rule c Hd Ht Hc Hneed Hold|dm rule Hd Hc]; subst.
    + destruct (Hagree dm rule Ht) as (c & Hc & _).
      unfold to_add_or_update in Hd. apply elem_of_difference in Hd as [_ Hd].
      apply Hd, elem_of_dom. by eexists.
    + destruct (Hagree dm rule Ht) as (c' & Hc' & Hans & Hen). simplify_eq.
      apply needs_update_spec in Hneed. by destruct Hneed.
    + destruct (Hagree dm rule Ht) as (c' & Hc' & Hans & Hen). simplify_eq.
      apply needs_update_spec in Hneed. by destruct Hneed.
    + unfold to_delete in Hd. by apply elem_of_difference in Hd as [??].
Qed.

(** The partial-apply hosts against the well-behaved provider, twice. *)
Lemma second_cycle_is_quiet_witness :
  (∀ s : gset string, elements s ≡ₚ elements s) ∧
  1 ≤ max_retries default_config ∧
  let r1 := App.sync_rules Provider.session_get Provider.session_post elements
              default_config Scenario.store Scenario.partial_hosts Scenario.second1
              Scenario.empty_disk Scenario.partial_provider in
  posts (App.events
           (App.sync_rules Provider.session_get Provider.session_post elements
              default_config Scenario.store Scenario.partial_hosts Scenario.second2
              (App.disk_after r1) (App.world_after r1))) = [].
Proof.
  assert (1 ≤ max_retries default_config) as Hn by (simpl; lia).
  split; [done|]. split; [done|].
  apply (second_cycle_is_quiet elements elements default_config Scenario.store
           Scenario.partial_hosts Scenario.second1 Scenario.second2
           Scenario.empty_disk Scenario.partial_provider
           (λ s, reflexivity _) (λ s, reflexivity _) Hn).
Defined.

(** The ten managed hosts of which one is left: the check fails. *)
Lemma safety_guard_witness :
  (∀ s : gset string, elements s ≡ₚ elements s) ∧
  (Database.load_managed_rules Scenario.store Scenario.second1 Scenario.ten_disk).1 =
    Database.Return Scenario.ten_managed ∧
  Scenario.ten_managed ≠ ∅ ∧
  safety_check_failed
    (size (to_delete (dom Scenario.ten_managed) (App.generate_rules Scenario.one_host)))
    (size (dom Scenario.ten_managed)) (safety_threshold default_config) = true ∧
  App.success
    (App.sync_rules Provider.session_get Provider.session_post elements default_config
       Scenario.store Scenario.one_host Scenario.second1 Scenario.ten_disk
       Scenario.ten_provider) = false.
Proof.
  assert ((Database.load_managed_rules Scenario.store Scenario.second1
             Scenario.ten_disk).1 = Database.Return Scenario.ten_managed) as Hload
    by (vm_compute; reflexivity).
  assert (Scenario.ten_managed ≠ ∅) as Hne.
  { intros Heq. apply (f_equal (λ m : gmap string RewriteRule, m !! "h0")) in Heq.
    vm_compute in Heq. discriminate Heq. }
  assert (safety_check_failed
            (size (to_delete (dom Scenario.ten_managed)
                     (App.generate_rules Scenario.one_host)))
            (size (dom Scenario.ten_managed)) (safety_threshold default_config) = true)
    as Hfail by (vm_compute; reflexivity).
  split; [done|]. split; [done|]. split; [done|]. split; [done|].
  apply (proj1 (safety_guard Provider.session_get Provider.session_post elements
                  default_config Scenario.store (λ s, reflexivity _)
                  Scenario.one_host Scenario.second1 Scenario.ten_disk
                  Scenario.ten_provider Scenario.ten_managed Hload) Hne Hfail).
Defined.

(** The cycle of the empty provider. *)
Lemma empty_list_stops_cycle_witness :
  (∀ s : gset string, elements s ≡ₚ elements s) ∧
  listed (Provider.session_get ∅).1 = ∅ ∧
  App.events
    (App.sync_rules Provider.session_get Provider.session_post elements default_config
       Scenario.store Scenario.desired_hosts Scenario.second1 Scenario.empty_disk ∅) =
    [Get].
Proof.
  assert (listed (Provider.session_get ∅).1 = ∅) as Hempty by reflexivity.
  split; [done|]. split; [done|].
  apply (proj1 (empty_list_stops_cycle Provider.session_get Provider.session_post
                  elements default_config Scenario.store (λ s, reflexivity _))
           Scenario.desired_hosts Scenario.second1 Scenario.empty_disk ∅ Hempty).
Defined.

(** The partial-apply scenario: the update of [x] fails, the cycle is not
    stopped, and both rules are in the main file. *)
Lemma desired_set_is_persisted_witness :
  (∀ s : gset string, elements s ≡ₚ elements s) ∧
  (Database.load_managed_rules Scenario.store Scenario.second1 Scenario.empty_disk).1 =
    Database.Return ∅ ∧
  aborted default_config (App.generate_rules Scenario.partial_hosts) (Some ∅)
    (listed (Provider.session_get Scenario.partial_provider).1) = false ∧
  App.success
    (App.sync_rules Provider.session_get (Provider.faulty_post Scenario.drop_updates)
       elements default_config Scenario.store Scenario.partial_hosts Scenario.second1
       Scenario.empty_disk Scenario.partial_provider) = true.
Proof.
  assert ((Database.load_managed_rules Scenario.store Scenario.second1
             Scenario.empty_disk).1 = Database.Return ∅) as Hload
    by (vm_compute; reflexivity).
  assert (aborted default_config (App.generate_rules Scenario.partial_hosts) (Some ∅)
            (listed (Provider.session_get Scenario.partial_provider).1) = false) as Ha
    by (vm_compute; reflexivity).
  split; [done|]. split; [done|]. split; [done|].
  apply (proj1 (desired_set_is_persisted Provider.session_get
                  (Provider.faulty_post Scenario.drop_updates) elements default_config
                  Scenario.store (λ s, reflexivity _) Scenario.partial_hosts
                  Scenario.second1 Scenario.empty_disk Scenario.partial_provider ∅
                  Hload Ha)).
Defined.

End CycleProofs.

Module StartupProofs.
Import Models AdGuard Startup.

Section Facts.

Context {World : Type}.
Variable session_login : string → string → string → World → post_result * World.
Variable cfg : Config.

Local Abbreviation loop := (_authenticate_loop session_login cfg).
Local Abbreviation authenticate := (_authenticate session_login cfg).

Lemma logins_cons_login url n p t : logins (Login url n p :: t) = (url, n, p) :: logins t.
Proof. done. Qed.

Lemma waits_cons_login url n p t : waits (Login url n p :: t) = waits t.
Proof. done. Qed.

Lemma waits_app t1 t2 : waits (t1 ++ t2) = waits t1 ++ waits t2.
Proof. unfold waits. by rewrite omap_app. Qed.

Lemma logins_app t1 t2 : logins (t1 ++ t2) = logins t1 ++ logins t2.
Proof. unfold logins. by rewrite omap_app. Qed.

(** One turn of the loop, by the answer of the post. *)
Lemma loop_cons attempt rest url n p w :
  loop (attempt :: rest) url n p w =
    let r := (session_login url n p w).1 in
    let w1 := (session_login url n p w).2 in
    if succeeded r then (true, w1, [Login url n p])
    else
      let slept := match r with
                   | PostRaised =>
                       if attempt <? max_retries cfg - 1
                       then [Wait (retry_delay cfg * (attempt + 1))] else []
                   | PostStatus _ => []
                   end in
      ((loop rest url n p w1).1.1, (loop rest url n p w1).1.2,
       Login url n p :: slept ++ (loop rest url n p w1).2).
Proof.
  cbn [_authenticate_loop]. destruct (session_login url n p w) as [r w1]. cbn [fst snd].
  destruct r as [code|]; cbn [succeeded].
  - case_bool_decide; [done|]. by destruct (loop rest url n p w1) as [[ok w2] t].
  - by destruct (loop rest url n p w1) as [[ok w2] t].
Qed.

Lemma loop_login_count attempts url n p w :
  length (logins (loop attempts url n p w).2) ≤ length attempts.
Proof.
  revert w. induction attempts as [|a rest IH]; intros w; [done|].
  rewrite loop_cons. cbn zeta.
  destruct (succeeded _); cbn [snd]; [cbn; lia|].
  rewrite logins_cons_login, logins_app. cbn [length].
  assert (logins (match (session_login url n p w).1 with
                  | PostStatus _ => []
                  | PostRaised => if a <? max_retries cfg - 1
                                  then [Wait (retry_delay cfg * (a + 1))] else []
                  end) = []) as ->.
  { destruct (session_login url n p w).1; [done|]. by destruct (_ <? _). }
  cbn [app]. specialize (IH (session_login url n p w).2). lia.
Qed.

Lemma loop_failed attempts url n p w :
  (loop attempts url n p w).1.1 = false →
  logins (loop attempts url n p w).2 = replicate (length attempts) (url, n, p).
Proof.
  revert w. induction attempts as [|a rest IH]; intros w; [done|].
  rewrite loop_cons. cbn zeta.
  destruct (succeeded _); cbn [fst snd]; [done|]. intros Hf.
  rewrite logins_cons_login, logins_app.
  assert (logins (match (session_login url n p w).1 with
                  | PostStatus _ => []
                  | PostRaised => if a <? max_retries cfg - 1
                                  then [Wait (retry_delay cfg * (a + 1))] else []
                  end) = []) as ->.
  { destruct (session_login url n p w).1; [done|]. by destruct (_ <? _). }
  cbn [app length replicate]. by rewrite IH.
Qed.

Lemma loop_succeeded attempts url n p w :
  (loop attempts url n p w).1.1 = true →
  ∃ t, (loop attempts url n p w).2 = t ++ [Login url n p].
Proof.
  revert w. induction attempts as [|a rest IH]; intros w; [done|].
  rewrite loop_cons. cbn zeta.
  destruct (succeeded _); cbn [fst snd].
  - intros _. by exists [].
  - intros Hok. destruct (IH _ Hok) as [t Ht]. rewrite Ht.
    eexists (_ :: _ ++ t). by rewrite app_comm_cons, app_assoc.
Qed.

Lemma loop_waits_unreachable first count url n p w :
  (∀ w', (session_login url n p w').1 = PostRaised) →
  (loop (seq first count) url n p w).1.1 = false ∧
  waits (loop (seq first count) url n p w).2 =
    omap (λ attempt, if attempt <? max_retries cfg - 1
                     then Some (retry_delay cfg * (attempt + 1)) else None)
         (seq first count).
Proof.
  intros Hdown. revert first w. induction count as [|count IH]; intros first w; [done|].
  cbn [seq]. rewrite loop_cons. cbn zeta. rewrite Hdown. cbn [succeeded fst snd].
  destruct (IH (S first) (session_login url n p w).2) as [Hv Hw].
  split; [done|]. rewrite waits_cons_login, waits_app, Hw. cbn [omap list_omap].
  by destruct (first <? max_retries cfg - 1).
Qed.

Lemma omap_seq_below (f : nat → nat) (bound count : nat) :
  count ≤ S bound →
  omap (λ a, if a <? bound then Some (f a) else None) (seq 0 count) =
    f <$> seq 0 (count `min` bound).
Proof.
  induction count as [|count IH]; intros Hc; [done|].
  rewrite seq_S, omap_app, IH by lia. cbn [plus omap list_omap].
  destruct (Nat.ltb_spec count bound).
  - replace (S count `min` bound) with (S (count `min` bound)) by lia.
    rewrite seq_S, fmap_app. cbn. by replace (count `min` bound) with count by lia.
  - rewrite app_nil_r. f_equal. f_equal. lia.
Qed.

Lemma loop_rejected attempts url n p w :
  (∀ w', ∃ code, (session_login url n p w').1 = PostStatus code ∧ code ≠ 200%Z) →
  (loop attempts url n p w).1.1 = false ∧
  (loop attempts url n p w).2 = replicate (length attempts) (Login url n p).
Proof.
  intros Hno. revert w. induction attempts as [|a rest IH]; intros w; [done|].
  rewrite loop_cons. cbn zeta. destruct (Hno w) as (code & Hr & Hcode). rewrite Hr.
  cbn [succeeded]. rewrite bool_decide_eq_false_2 by done. cbn [fst snd app].
  destruct (IH (session_login url n p w).2) as [Hv Ht]. split; [done|].
  cbn [length replicate]. by rewrite Ht.
Qed.

Lemma loop_first_login a rest url n p w :
  ∃ t, (loop (a :: rest) url n p w).2 = Login url n p :: t.
Proof. rewrite loop_cons. cbn zeta. destruct (succeeded _); cbn [snd]; eauto. Qed.

(** The delays slept are among the delays of the attempts before the last:
    their sum is at most the sum of those. *)
Lemma loop_waits_sum attempts url n p w :
  sum_list (waits (loop attempts url n p w).2) ≤
  sum_list (omap (λ attempt, if attempt <? max_retries cfg - 1
                             then Some (retry_delay cfg * (attempt + 1)) else None)
                 attempts).
Proof.
  revert w. induction attempts as [|a rest IH]; intros w; [done|].
  rewrite loop_cons. cbn zeta.
  assert (0 ≤ sum_list (omap (λ attempt, if attempt <? max_retries cfg - 1
                             then Some (retry_delay cfg * (attempt + 1)) else None)
                 (a :: rest))) by lia.
  destruct (succeeded _); cbn [snd]; [cbn [waits omap list_omap sum_list]; lia|].
  rewrite waits_cons_login, waits_app, sum_list_with_app.
  specialize (IH (session_login url n p w).2). cbn [omap list_omap].
  destruct (session_login url n p w).1 as [code|].
  - cbn [waits omap list_omap sum_list]. destruct (a <? _); cbn [sum_list]; lia.
  - destruct (a <? _); cbn [waits omap list_omap sum_list]; lia.
Qed.

Lemma validated_bounds :
  _validate_configuration cfg = true →
  1 ≤ max_retries cfg ≤ 10 ∧ 1 ≤ retry_delay cfg ≤ 60 ∧ 1 ≤ request_timeout cfg ≤ 300.
Proof.
  unfold _validate_configuration. rewrite !andb_true_iff, !negb_true_iff, !orb_false_iff.
  rewrite !Nat.ltb_ge. lia.
Qed.

Lemma delays_sum_bound (d n : nat) :
  d ≤ 60 → n ≤ 10 →
  sum_list ((λ attempt, d * (attempt + 1)) <$> seq 0 (n - 1)) ≤ 2700.
Proof.
  intros Hd Hn.
  do 11 (destruct n as [|n]; [cbn; lia|]). lia.
Qed.

Lemma loop_logins_same attempts url n p w x :
  x ∈ logins (loop attempts url n p w).2 → x = (url, n, p).
Proof.
  revert w. induction attempts as [|a rest IH]; intros w; [by intros ?%elem_of_nil|].
  rewrite loop_cons. cbn zeta. destruct (succeeded _); cbn [snd].
  - cbn. by intros ->%list_elem_of_singleton.
  - rewrite logins_cons_login, logins_app.
    intros [->|[Hx|Hx]%elem_of_app]%elem_of_cons; [done| |by eapply IH].
    destruct (session_login url n p w).1; [by apply elem_of_nil in Hx|].
    destruct (_ <? _); by apply elem_of_nil in Hx.
Qed.

(** X1.  When every login attempt raises (the provider cannot be reached),
    [_authenticate] posts the credentials [max_retries] times to the login
    URL, sleeps [retry_delay * 1], [retry_delay * 2], ... between the
    attempts (an increasing delay, none after the last attempt), and ends
    in [AuthenticationError]. *)
Theorem authenticate_backs_off_when_unreachable base_url n p w :
  (∀ url w', (session_login url n p w').1 = PostRaised) →
  let run := authenticate base_url n p w in
  run.1.1 = false ∧
  logins run.2 = replicate (max_retries cfg) (base_url +:+ "/control/login", n, p) ∧
  waits run.2 = increasing_delays cfg ∧
  length (waits run.2) = max_retries cfg - 1.
Proof.
  intros Hdown run. subst run. unfold _authenticate. cbn zeta.
  destruct (loop_waits_unreachable 0 (max_retries cfg) (base_url +:+ "/control/login")
              n p w (Hdown _)) as [Hv Hw].
  split; [done|]. split.
  { rewrite (loop_failed _ _ _ _ _ Hv). by rewrite length_seq. }
  assert (waits (loop (seq 0 (max_retries cfg)) (base_url +:+ "/control/login") n p w).2 =
          increasing_delays cfg) as Heq.
  { rewrite Hw. unfold increasing_delays.
    rewrite (omap_seq_below (λ a, retry_delay cfg * (a + 1))) by lia.
    f_equal. f_equal. lia. }
  split; [done|]. rewrite Heq. unfold increasing_delays. by rewrite length_fmap, length_seq.
Qed.

(** X2.  When every login attempt is answered with a status other than 200,
    [_authenticate] posts the credentials [max_retries] times with no sleep
    at all between the attempts, and ends in [AuthenticationError]: the
    sleep is taken only after an attempt that raised. *)
Theorem authenticate_does_not_wait_after_rejection base_url n p w :
  (∀ url w', ∃ code, (session_login url n p w').1 = PostStatus code ∧ code ≠ 200%Z) →
  let run := authenticate base_url n p w in
  run.1.1 = false ∧
  run.2 = replicate (max_retries cfg) (Login (base_url +:+ "/control/login") n p) ∧
  waits run.2 = [].
Proof.
  intros Hno run. subst run. unfold _authenticate. cbn zeta.
  destruct (loop_rejected (seq 0 (max_retries cfg)) (base_url +:+ "/control/login")
              n p w (Hno _)) as [Hv Ht].
  rewrite length_seq in Ht. split; [done|]. split; [done|]. rewrite Ht.
  generalize (max_retries cfg). intros k. induction k as [|k IH]; [done|].
  cbn [replicate]. by rewrite waits_cons_login.
Qed.

(** X3.  The constructor checks the settings before it talks to the
    provider: with settings outside their ranges it raises [ValueError]
    without any request.  With settings in range it posts the credentials
    at least once and at most ten times, always to the login URL of the
    stripped base URL, sleeps at most 2700 seconds in total, and is ready
    only when its last request was a login. *)
Theorem init_is_bounded base_url n p w :
  let run := __init__ session_login cfg base_url n p w in
  let auth_url := rstrip "/" base_url +:+ "/control/login" in
  (_validate_configuration cfg = false → run = (RaisedValueError, w, [])) ∧
  (_validate_configuration cfg = true →
   1 ≤ length (logins run.2) ≤ 10 ∧
   (∀ x, x ∈ logins run.2 → x = (auth_url, n, p)) ∧
   sum_list (waits run.2) ≤ 2700 ∧
   run.1.1 ≠ RaisedValueError ∧
   (run.1.1 = RaisedAuthenticationError →
    length (logins run.2) = max_retries cfg) ∧
   (∀ url, run.1.1 = Ready url →
      url = rstrip "/" base_url ∧ ∃ t, run.2 = t ++ [Login auth_url n p])).
Proof.
  intros run auth_url. subst run auth_url. unfold __init__. cbn zeta.
  split; [by intros ->|]. intros Hvalid. rewrite Hvalid.
  destruct (validated_bounds Hvalid) as ([Hn1 Hn2] & [Hd1 Hd2] & _).
  unfold _authenticate. cbn zeta.
  set (url := rstrip "/" base_url +:+ "/control/login").
  pose proof (loop_login_count (seq 0 (max_retries cfg)) url n p w) as Hcount.
  pose proof (loop_waits_sum (seq 0 (max_retries cfg)) url n p w) as Hsum.
  pose proof (loop_logins_same (seq 0 (max_retries cfg)) url n p w) as Hsame.
  pose proof (loop_failed (seq 0 (max_retries cfg)) url n p w) as Hfailed.
  pose proof (loop_succeeded (seq 0 (max_retries cfg)) url n p w) as Hok.
  assert (∃ t, (loop (seq 0 (max_retries cfg)) url n p w).2 = Login url n p :: t)
    as [t0 Hfirst].
  { destruct (max_retries cfg) as [|k]; [lia|]. cbn [seq]. apply loop_first_login. }
  rewrite length_seq in Hcount, Hfailed.
  rewrite (omap_seq_below (λ a, retry_delay cfg * (a + 1))) in Hsum by lia.
  replace (max_retries cfg `min` (max_retries cfg - 1)) with (max_retries cfg - 1)
    in Hsum by lia.
  pose proof (delays_sum_bound (retry_delay cfg) (max_retries cfg) Hd2 Hn2) as Hbound.
  destruct (loop (seq 0 (max_retries cfg)) url n p w) as [[ok w1] t] eqn:Hrun.
  cbn [fst snd] in *. subst t.
  split; [rewrite logins_cons_login in *; cbn [length] in *; lia|].
  split; [done|]. split; [lia|].
  destruct ok.
  - split; [done|]. split; [done|]. intros url' [= <-]. split; [done|]. by apply Hok.
  - split; [done|]. split; [|done]. intros _. rewrite Hfailed by done.
    by rewrite length_replicate.
Qed.

End Facts.

(** A provider that cannot be reached, and one that rejects the
    credentials. *)
Lemma authenticate_backs_off_when_unreachable_witness :
  (∀ (url : string) (w' : unit),
     ((λ _ _ _ w, (PostRaised, w)) url "admin" "secret" w' : post_result * unit).1 =
     PostRaised) ∧
  waits (_authenticate (λ _ _ _ w, (PostRaised, w)) default_config
           "http://adguard:3000" "admin" "secret" tt).2 = [2; 4].
Proof.
  split; [done|].
  apply (authenticate_backs_off_when_unreachable
           (λ _ _ _ w, (PostRaised, w)) default_config
           "http://adguard:3000" "admin" "secret" tt).
  done.
Defined.

Lemma authenticate_does_not_wait_after_rejection_witness :
  (∀ (url : string) (w' : unit), ∃ code,
     ((λ _ _ _ w, (PostStatus 403, w)) url "admin" "wrong" w' : post_result * unit).1 =
     PostStatus code ∧ code ≠ 200%Z) ∧
  (_authenticate (λ _ _ _ w, (PostStatus 403, w)) default_config
     "http://adguard:3000" "admin" "wrong" tt).2 =
    [Login "http://adguard:3000/control/login" "admin" "wrong";
     Login "http://adguard:3000/control/login" "admin" "wrong";
     Login "http://adguard:3000/control/login" "admin" "wrong"].
Proof.
  split; [by intros; exists 403%Z|].
  apply (authenticate_does_not_wait_after_rejection
           (λ _ _ _ w, (PostStatus 403, w)) default_config
           "http://adguard:3000" "admin" "wrong" tt).
  by intros; exists 403%Z.
Defined.

Lemma init_is_bounded_witness :
  _validate_configuration default_config = true ∧
  sum_list (waits (__init__ (λ _ _ _ w, (PostRaised, w)) default_config
                     "http://adguard:3000/" "admin" "secret" tt).2) ≤ 2700.
Proof.
  split; [by vm_compute|].
  apply (init_is_bounded (λ _ _ _ w, (PostRaised, w)) default_config
           "http://adguard:3000/" "admin" "secret" tt).
  by vm_compute.
Defined.

End StartupProofs.

(** * Further properties of the gateway client *)
Module GatewayProofs.
Import Models AdGuard ClientProofs.

Section Facts.

Context {World : Type}.
Variable session_get : World → get_result * World.
Variable session_post : operation → payload → World → post_result * World.
Variable set_iter : gset string → list string.
Variable cfg : Config.

Hypothesis set_iter_perm : ∀ s, set_iter s ≡ₚ elements s.

Local Abbreviation get_rules := (get_rewrite_rules session_get).
Local Abbreviation request_loop := (_make_rule_request_loop session_post cfg).
Local Abbreviation request := (_make_rule_request session_post cfg).
Local Abbreviation add_rule := (add_rewrite_rule session_post cfg).
Local Abbreviation delete_rule := (delete_rewrite_rule session_get session_post cfg).
Local Abbreviation update_rule := (update_rewrite_rule session_get session_post cfg).
Local Abbreviation add_loop := (add_new_rules session_post cfg).
Local Abbreviation update_loop := (update_existing_rules session_get session_post cfg).
Local Abbreviation delete_loop := (delete_obsolete_rules session_get session_post cfg).
Local Abbreviation apply := (apply_changes session_get session_post set_iter cfg).
Local Abbreviation sync := (sync_rules session_get session_post set_iter cfg).

Ltac run_simpl :=
  cbn [sleep ret trace world_after value fst snd posts sleeps omap list_omap app].

(** *** The list call is made once *)

Lemma request_loop_no_get attempts op p w : Get ∉ trace (request_loop attempts op p w).
Proof.
  revert w. induction attempts as [|attempt rest IH]; intros w; simpl.
  { run_simpl. by intros ?%elem_of_nil. }
  rewrite bind_trace, http_post_trace, http_post_value, http_post_world.
  destruct (succeeded _); run_simpl.
  { by intros ?%list_elem_of_singleton. }
  rewrite elem_of_cons. intros [?|Hx]; [done|]. revert Hx.
  rewrite bind_trace, elem_of_app.
  destruct (attempt <? _); run_simpl.
  - intros [[=]%list_elem_of_singleton|Hx]. by eapply IH.
  - intros [?%elem_of_nil|Hx]; [done|]. by eapply IH.
Qed.

Lemma add_loop_no_get target domains n w : Get ∉ trace (add_loop target domains n w).
Proof.
  revert n w. induction domains as [|d rest IH]; intros n w; simpl.
  { run_simpl. by intros ?%elem_of_nil. }
  destruct (target !! d) as [rule|]; [|run_simpl; by intros ?%elem_of_nil].
  rewrite bind_trace, elem_of_app. intros [Hx|Hx]; [by eapply request_loop_no_get|].
  by eapply IH.
Qed.

Lemma update_rule_no_get rule current w : Get ∉ trace (update_rule rule (Some current) w).
Proof.
  unfold update_rewrite_rule. rewrite bind_trace. run_simpl.
  destruct (current !! domain rule); apply request_loop_no_get.
Qed.

Lemma update_loop_no_get target current domains n w :
  Get ∉ trace (update_loop target current domains n w).
Proof.
  revert n w. induction domains as [|d rest IH]; intros n w; simpl.
  { run_simpl. by intros ?%elem_of_nil. }
  destruct (target !! d) as [rule|]; [|run_simpl; by intros ?%elem_of_nil].
  destruct (current !! d) as [c|]; [|run_simpl; by intros ?%elem_of_nil].
  destruct (needs_update c rule); [|apply IH].
  rewrite bind_trace, elem_of_app. intros [Hx|Hx]; [by eapply update_rule_no_get|].
  by eapply IH.
Qed.

Lemma delete_rule_no_get d current w : Get ∉ trace (delete_rule d (Some current) w).
Proof.
  unfold delete_rewrite_rule. rewrite bind_trace. run_simpl.
  destruct (current !! d); [apply request_loop_no_get|].
  run_simpl. by intros ?%elem_of_nil.
Qed.

Lemma delete_loop_no_get current domains n w :
  Get ∉ trace (delete_loop current domains n w).
Proof.
  revert n w. induction domains as [|d rest IH]; intros n w; simpl.
  { run_simpl. by intros ?%elem_of_nil. }
  rewrite bind_trace, elem_of_app. intros [Hx|Hx]; [by eapply delete_rule_no_get|].
  by eapply IH.
Qed.

Lemma apply_changes_no_get target current managed w :
  Get ∉ trace (apply target current managed w).
Proof.
  unfold apply_changes. rewrite bind_trace, elem_of_app.
  intros [Hx|Hx]; [by eapply add_loop_no_get|]. revert Hx.
  destruct (value (add_loop _ _ _ _)); [|run_simpl; by intros ?%elem_of_nil].
  rewrite bind_trace, elem_of_app.
  intros [Hx|Hx]; [by eapply update_loop_no_get|]. revert Hx.
  destruct (value (update_loop _ _ _ _ _)); [|run_simpl; by intros ?%elem_of_nil].
  rewrite bind_trace, elem_of_app.
  intros [Hx|Hx]; [by eapply delete_loop_no_get|]. revert Hx.
  destruct (value (delete_loop _ _ _ _)); run_simpl; by intros ?%elem_of_nil.
Qed.

(** X4.  A run of [sync_rules] lists the provider's rules exactly once, as
    its first action, whatever the provider answers: the requests of the
    three loops are made with the rules read at the start, and no item is
    preceded by another list call. *)
Theorem sync_lists_the_provider_once target managed w :
  ∃ t, trace (sync target managed w) = Get :: t ∧ Get ∉ t.
Proof.
  rewrite sync_rules_run. cbn zeta.
  destruct (aborted cfg target managed _).
  - exists []. split; [done|]. by intros ?%elem_of_nil.
  - eexists. split; [done|]. apply apply_changes_no_get.
Qed.

(** *** How many requests a run can post *)

Lemma request_post_count op p w :
  length (posts (trace (request op p w))) ≤ max_retries cfg.
Proof.
  unfold _make_rule_request.
  pose proof (request_loop_post_count session_post cfg (seq 0 (max_retries cfg)) op p w) as H.
  by rewrite length_seq in H.
Qed.

Lemma add_loop_post_count target domains n w :
  length (posts (trace (add_loop target domains n w))) ≤ max_retries cfg * length domains.
Proof.
  revert n w. induction domains as [|d rest IH]; intros n w; simpl.
  { run_simpl. cbn. lia. }
  destruct (target !! d) as [rule|]; [|run_simpl; cbn; lia].
  rewrite bind_trace, posts_app, length_app.
  pose proof (request_post_count OpAdd (RulePayload rule) w) as H1.
  specialize (IH (if value (add_rule rule w) then S n else n) (world_after (add_rule rule w))).
  unfold add_rewrite_rule in *. lia.
Qed.

Lemma update_rule_post_count rule current w :
  length (posts (trace (update_rule rule (Some current) w))) ≤ max_retries cfg.
Proof.
  unfold update_rewrite_rule. rewrite bind_trace. run_simpl.
  destruct (current !! domain rule); apply request_post_count.
Qed.

Lemma update_loop_post_count target current domains n w :
  length (posts (trace (update_loop target current domains n w))) ≤
  max_retries cfg * length (filter (λ d, Is_true (differs target current d)) domains).
Proof.
  revert n w. induction domains as [|d rest IH]; intros n w; simpl.
  { run_simpl. cbn. lia. }
  destruct (target !! d) as [rule|] eqn:Ht; [|run_simpl; cbn; lia].
  destruct (current !! d) as [c|] eqn:Hc; [|run_simpl; cbn; lia].
  destruct (needs_update c rule) eqn:Hneed.
  - assert (differs target current d = true) as Hdiff.
    { unfold differs. by rewrite Ht, Hc. }
    rewrite filter_cons, decide_True by (by rewrite Hdiff).
    rewrite bind_trace, posts_app, length_app.
    pose proof (update_rule_post_count rule current w) as H1.
    specialize (IH (if value (update_rule rule (Some current) w) then S n else n)
                   (world_after (update_rule rule (Some current) w))).
    cbn [length]. lia.
  - assert (differs target current d = false) as Hdiff.
    { unfold differs. by rewrite Ht, Hc. }
    rewrite filter_cons, decide_False by (rewrite Hdiff; by intros []). apply IH.
Qed.

Lemma delete_rule_post_count d current w :
  length (posts (trace (delete_rule d (Some current) w))) ≤
  match current !! d with Some _ => max_retries cfg | None => 0 end.
Proof.
  unfold delete_rewrite_rule. rewrite bind_trace. run_simpl.
  destruct (current !! d); [apply request_post_count|]. run_simpl. cbn. lia.
Qed.

Lemma delete_loop_post_count current domains n w :
  length (posts (trace (delete_loop current domains n w))) ≤
  max_retries cfg * length (filter (λ d, d ∈ dom current) domains).
Proof.
  revert n w. induction domains as [|d rest IH]; intros n w; simpl.
  { run_simpl. cbn. lia. }
  rewrite filter_cons, bind_trace, posts_app, length_app.
  pose proof (delete_rule_post_count d current w) as H1.
  specialize (IH (if value (delete_rule d (Some current) w) then S n else n)
                 (world_after (delete_rule d (Some current) w))).
  destruct (current !! d) as [rule|] eqn:Hc.
  - rewrite decide_True by (apply elem_of_dom; eauto). cbn [length]. lia.
  - rewrite decide_False by (by apply not_elem_of_dom). lia.
Qed.

Lemma length_filter_set_iter (P : string → Prop) `{∀ d, Decision (P d)} (s : gset string) :
  length (filter P (set_iter s)) = size (filter P s).
Proof.
  rewrite (filter_Permutation P _ _ (set_iter_perm s)).
  unfold size, set_size. cbn. apply Permutation_length.
  apply NoDup_Permutation.
  - apply NoDup_filter, NoDup_elements.
  - apply NoDup_elements.
  - intros d. rewrite list_elem_of_filter, !elem_of_elements, elem_of_filter. done.
Qed.

Lemma length_set_iter (s : gset string) : length (set_iter s) = size s.
Proof. by rewrite (set_iter_perm s). Qed.

(** X5.  A run posts at most [max_retries] requests for every domain it has
    to add, for every common domain whose rule differs, and for every
    managed domain to delete that the provider listed; it posts nothing for
    the other domains. *)
Theorem sync_posts_are_bounded target managed w :
  let current := listed (session_get w).1 in
  length (posts (trace (sync target managed w))) ≤
  max_retries cfg *
    (size (to_add_or_update target current) +
     size (to_change target current) +
     size (filter (λ d, d ∈ dom current)
             (to_delete (app_managed_domains managed) target))).
Proof.
  intros current. subst current. rewrite sync_rules_run. cbn zeta.
  destruct (aborted cfg target managed _); [cbn; lia|].
  cbn [trace snd posts omap list_omap].
  rewrite (apply_changes_trace _ _ _ _ set_iter_perm), !posts_app, !length_app.
  set (current := listed (session_get w).1).
  set (w1 := (session_get w).2).
  pose proof (add_loop_post_count target (set_iter (to_add_or_update target current)) 0 w1)
    as Ha.
  rewrite length_set_iter in Ha.
  set (w2 := world_after (add_loop target _ 0 w1)) in *.
  pose proof (update_loop_post_count target current (set_iter (to_update target current)) 0 w2)
    as Hu.
  rewrite length_filter_set_iter in Hu.
  set (w3 := world_after (update_loop target current _ 0 w2)) in *.
  pose proof (delete_loop_post_count current
                (set_iter (to_delete (app_managed_domains managed) target)) 0 w3) as Hd.
  rewrite length_filter_set_iter in Hd.
  unfold to_change. unfold trace in *. lia.
Qed.

(** *** Which domains a run can touch *)

(** X6.  Every request of a run is about a desired domain or about a managed
    one: a rule of the provider that is neither desired nor managed is the
    subject of no add, update or delete.  A request about a domain that is
    not desired is a delete of a domain the provider listed. *)
Theorem sync_touches_only_desired_or_managed target managed w op p :
  keyed_by_domain target →
  (op, p) ∈ posts (trace (sync target managed w)) →
  payload_domain p ∈ dom target ∪ app_managed_domains managed ∧
  (payload_domain p ∉ dom target →
   op = OpDelete ∧ payload_domain p ∈ dom (listed (session_get w).1)).
Proof.
  intros Hkeyed Hp. apply (sync_rules_sound _ _ _ _ set_iter_perm) in Hp.
  destruct Hp as [d rule Hd Ht|d rule c old Hd Ht Hc Hneed Hold
                 |d rule c Hd Ht Hc Hneed Hnone|d rule Hd Hc]; cbn [payload_domain].
  - rewrite (Hkeyed _ _ Ht).
    assert (d ∈ dom target) by (apply elem_of_dom; eauto).
    split; [by apply elem_of_union_l|done].
  - rewrite (Hkeyed _ _ Ht).
    assert (d ∈ dom target) by (apply elem_of_dom; eauto).
    split; [by apply elem_of_union_l|done].
  - rewrite (Hkeyed _ _ Ht).
    assert (d ∈ dom target) by (apply elem_of_dom; eauto).
    split; [by apply elem_of_union_l|done].
  - unfold to_delete in Hd. apply elem_of_difference in Hd as [Hm Hnt].
    split; [by apply elem_of_union_r|]. intros _. split; [done|]. apply elem_of_dom; eauto.
Qed.

(** X7.  Called without managed rules, [sync_rules] only adds and updates:
    it posts no delete, and the only thing that stops it is an empty answer
    of the list call (the safety check has nothing to count). *)
Theorem sync_without_managed_rules_never_deletes target w :
  (∀ p, (OpDelete, p) ∉ posts (trace (sync target None w))) ∧
  (value (sync target None w) = false ↔ listed (session_get w).1 = ∅).
Proof.
  split.
  - intros p Hp. apply (sync_rules_sound _ _ _ _ set_iter_perm) in Hp.
    inversion Hp as [| | |d rule Hd Hc]; subst.
    unfold to_delete in Hd. cbn [app_managed_domains] in Hd.
    apply elem_of_difference in Hd as [Hd _]. by apply elem_of_empty in Hd.
  - rewrite (sync_rules_value _ _ _ _ set_iter_perm). unfold aborted.
    cbn [app_managed_domains].
    assert (to_delete ∅ target = ∅) as ->.
    { unfold to_delete. apply set_eq. intros x. rewrite elem_of_difference.
      split; [by intros [?%elem_of_empty _]|by intros ?%elem_of_empty]. }
    rewrite size_empty, CycleProofs.safety_check_empty, orb_false_r.
    rewrite negb_false_iff. apply bool_decide_eq_true.
Qed.

End Facts.

(** *** What the list call makes of the provider's answer *)

Lemma rules_of_items_app data1 data2 :
  rules_of_items (data1 ++ data2) = foldl add_item (rules_of_items data1) data2.
Proof. unfold rules_of_items. by rewrite foldl_app. Qed.

Lemma add_items_other_domain (m : gmap string RewriteRule) data d :
  (∀ a en, ItemRule d a en ∉ data) → foldl add_item m data !! d = m !! d.
Proof.
  revert m. induction data as [|item rest IH]; intros m Hno; [done|].
  cbn [foldl]. rewrite IH.
  - destruct item as [d' a en|]; [|done]. cbn [add_item].
    apply lookup_insert_ne. intros ->. apply (Hno a en), list_elem_of_here.
  - intros a en Hin. apply (Hno a en). by apply list_elem_of_further.
Qed.

Lemma add_items_dom (m : gmap string RewriteRule) data d :
  d ∈ dom (foldl add_item m data) ↔ d ∈ dom m ∨ ∃ a en, ItemRule d a en ∈ data.
Proof.
  revert m. induction data as [|item rest IH]; intros m.
  - cbn [foldl]. split; [by left|]. intros [?|(a & en & Hin)]; [done|].
    by apply elem_of_nil in Hin.
  - cbn [foldl]. rewrite IH. destruct item as [d' a en|]; cbn [add_item].
    + rewrite dom_insert, elem_of_union, elem_of_singleton. split.
      * intros [[->|?]|(a' & en' & Hin)].
        -- right. exists a, en. apply list_elem_of_here.
        -- by left.
        -- right. exists a', en'. by apply list_elem_of_further.
      * intros [?|(a' & en' & Hin)]; [left; by right|].
        apply elem_of_cons in Hin as [[= -> -> ->]|Hin]; [left; by left|].
        right. by exists a', en'.
    + split.
      * intros [?|(a' & en' & Hin)]; [by left|].
        right. exists a', en'. by apply list_elem_of_further.
      * intros [?|(a' & en' & Hin)]; [by left|].
        apply elem_of_cons in Hin as [[=]|Hin]. right. by exists a', en'.
Qed.

(** X8.  The rules read from a list answer: a domain is in the result
    exactly when some item with a domain and an answer names it (items that
    are not such dictionaries are skipped); of several items with the same
    domain the last one decides, a missing [enabled] field reads as [True];
    and every rule is stored under its own domain. *)
Theorem listing_keeps_the_last_item_per_domain data :
  keyed_by_domain (rules_of_items data) ∧
  (∀ d, d ∈ dom (rules_of_items data) ↔ ∃ a en, ItemRule d a en ∈ data) ∧
  (∀ before after d a en,
     data = before ++ ItemRule d a en :: after →
     (∀ a' en', ItemRule d a' en' ∉ after) →
     rules_of_items data !! d = Some (mkRule d a (default true en))) ∧
  rules_of_items (data ++ [ItemOther]) = rules_of_items data.
Proof.
  split; [apply rules_of_items_keyed|]. split; [|split].
  - intros d. unfold rules_of_items. rewrite add_items_dom, dom_empty.
    split; [intros [?%elem_of_empty|?]; done|by right].
  - intros before after d a en -> Hlast.
    rewrite rules_of_items_app. cbn [foldl]. rewrite add_items_other_domain by done.
    cbn [add_item]. apply lookup_insert_eq.
  - by rewrite rules_of_items_app.
Qed.

Lemma sync_posts_are_bounded_witness :
  (∀ s : gset string, elements s ≡ₚ elements s) ∧
  length (posts (trace (sync_rules Provider.session_get
                          (Provider.faulty_post Scenario.drop_all) elements
                          Scenario.lenient_config Scenario.desired (Some Scenario.managed)
                          Scenario.provider))) ≤ 3 * (1 + 0 + 1).
Proof.
  split; [done|].
  etransitivity;
    [apply (sync_posts_are_bounded Provider.session_get
              (Provider.faulty_post Scenario.drop_all) elements Scenario.lenient_config
              (λ s, Permutation_refl _) Scenario.desired (Some Scenario.managed)
              Scenario.provider)|].
  by vm_compute.
Defined.

Lemma sync_touches_only_desired_or_managed_witness :
  (∀ s : gset string, elements s ≡ₚ elements s) ∧
  keyed_by_domain Scenario.desired ∧
  (OpAdd, RulePayload (mkRule "y" "10.0.0.2" true)) ∈
    posts (trace (sync_rules Provider.session_get Provider.session_post elements
                    Scenario.lenient_config Scenario.desired (Some Scenario.managed)
                    Scenario.provider)) ∧
  "y" ∈ dom Scenario.desired ∪ dom Scenario.managed.
Proof.
  assert ((OpAdd, RulePayload (mkRule "y" "10.0.0.2" true)) ∈
    posts (trace (sync_rules Provider.session_get Provider.session_post elements
                    Scenario.lenient_config Scenario.desired (Some Scenario.managed)
                    Scenario.provider))) as Hin.
  { vm_compute. apply list_elem_of_here. }
  split; [done|]. split; [apply generate_rules_keyed|]. split; [done|].
  apply (sync_touches_only_desired_or_managed Provider.session_get Provider.session_post
           elements Scenario.lenient_config (λ s, Permutation_refl _)
           Scenario.desired (Some Scenario.managed) Scenario.provider
           OpAdd (RulePayload (mkRule "y" "10.0.0.2" true))
           (generate_rules_keyed _) Hin).
Defined.

Lemma sync_without_managed_rules_never_deletes_witness :
  (∀ s : gset string, elements s ≡ₚ elements s) ∧
  ∀ p, (OpDelete, p) ∉
    posts (trace (sync_rules Provider.session_get Provider.session_post elements
                    default_config Scenario.desired None Scenario.provider)).
Proof.
  split; [done|].
  apply (sync_without_managed_rules_never_deletes Provider.session_get Provider.session_post
           elements default_config (λ s, Permutation_refl _) Scenario.desired
           Scenario.provider).
Defined.

End GatewayProofs.

(** * The client against the well-behaved provider *)
Module ProviderProofs.
Import Models AdGuard ClientProofs.

Section Facts.

Variable set_iter : gset string → list string.
Variable cfg : Config.

Hypothesis set_iter_perm : ∀ s, set_iter s ≡ₚ elements s.
Hypothesis retries : 1 ≤ max_retries cfg.

Local Abbreviation get_rules := (get_rewrite_rules Provider.session_get).
Local Abbreviation request := (_make_rule_request Provider.session_post cfg).
Local Abbreviation add_rule := (add_rewrite_rule Provider.session_post cfg).
Local Abbreviation delete_rule :=
  (delete_rewrite_rule Provider.session_get Provider.session_post cfg).
Local Abbreviation update_rule :=
  (update_rewrite_rule Provider.session_get Provider.session_post cfg).
Local Abbreviation sync :=
  (sync_rules Provider.session_get Provider.session_post set_iter cfg).

Ltac run_simpl :=
  cbn [sleep ret trace world_after value fst snd posts sleeps omap list_omap app].

(** The provider answers a repeated request as it answered the first: a
    request it refused changed nothing. *)
Lemma provider_loop_value attempts op p (w : Provider.state) :
  attempts ≠ [] →
  value (_make_rule_request_loop Provider.session_post cfg attempts op p w) =
    succeeded (Provider.session_post op p w).1.
Proof.
  induction attempts as [|attempt rest IH]; [done|]. intros _. simpl.
  rewrite bind_value, http_post_value, http_post_world.
  destruct (succeeded (Provider.session_post op p w).1) eqn:Hs; [done|].
  rewrite (CycleProofs.provider_failure_changes_nothing _ _ _ Hs).
  rewrite bind_value.
  assert (∀ c : M unit, world_after (c w) = w →
            value (_make_rule_request_loop Provider.session_post cfg rest op p
                     (world_after (c w))) = false) as Hrest.
  { intros c ->. destruct rest as [|a rest']; [done|]. by rewrite IH. }
  destruct (attempt <? _); by apply Hrest.
Qed.

Lemma provider_request_value op p (w : Provider.state) :
  value (request op p w) = succeeded (Provider.session_post op p w).1.
Proof.
  apply provider_loop_value. destruct (max_retries cfg); [lia|done].
Qed.

Lemma provider_get_value (w : Provider.state) : value (get_rules w) = Provider.rules_of w.
Proof. rewrite get_rewrite_rules_value. apply CycleProofs.provider_listed. Qed.

Lemma provider_get_world (w : Provider.state) : world_after (get_rules w) = w.
Proof. by rewrite get_rewrite_rules_world. Qed.

Lemma rules_of_lookup (w : Provider.state) d :
  Provider.rules_of w !! d =
    (λ r : Provider.record, mkRule d r.1 (default true r.2)) <$> w !! d.
Proof. apply CycleProofs.provider_rules_lookup. Qed.

(** X9.  Adding a rule and listing again: the add succeeds, the list call
    returns the rule, with its answer and its enabled flag, under its
    domain, and returns every other domain as before. *)
Theorem added_rule_is_listed rule (w : Provider.state) :
  let run := add_rule rule w in
  value run = true ∧
  value (get_rules (world_after run)) !! domain rule = Some rule ∧
  ∀ d, d ≠ domain rule →
       value (get_rules (world_after run)) !! d = value (get_rules w) !! d.
Proof.
  intros run. subst run. unfold add_rewrite_rule.
  rewrite provider_request_value, (CycleProofs.provider_request_world cfg retries).
  rewrite !provider_get_value. cbn [Provider.session_post fst snd succeeded].
  split; [done|]. split.
  - rewrite rules_of_lookup, lookup_insert_eq. cbn. by destruct rule.
  - intros d Hd. rewrite !rules_of_lookup, lookup_insert_ne; done.
Qed.

(** The state a delete without the rules in hand leaves. *)
Lemma provider_delete_run d (w : Provider.state) :
  value (delete_rule d None w) = true ∧ world_after (delete_rule d None w) = delete d w.
Proof.
  unfold delete_rewrite_rule. rewrite bind_value, bind_world.
  rewrite provider_get_value, provider_get_world, rules_of_lookup.
  destruct (w !! d) as [[a en]|] eqn:Hw; cbn [fmap option_fmap option_map answer fst].
  - rewrite provider_request_value, (CycleProofs.provider_request_world cfg retries).
    cbn [Provider.session_post]. unfold Provider.matches. rewrite Hw.
    rewrite bool_decide_eq_true_2 by done. done.
  - run_simpl. split; [done|]. symmetry. by apply delete_id.
Qed.

(** X10.  Deleting a domain without the rules in hand: the client lists the
    rules, sends the delete with the answer it was listed, and the provider,
    which matches on domain and answer, drops the record.  Afterwards the
    list call no longer returns the domain and returns every other domain
    as before; deleting a domain that is not there succeeds as well. *)
Theorem deleted_rule_is_no_longer_listed d (w : Provider.state) :
  let run := delete_rule d None w in
  value run = true ∧
  value (get_rules (world_after run)) !! d = None ∧
  (∀ d', d' ≠ d →
         value (get_rules (world_after run)) !! d' = value (get_rules w) !! d') ∧
  (∀ rule, world_after (delete_rule (domain rule) None (world_after (add_rule rule w)))
           = delete (domain rule) w).
Proof.
  intros run. subst run. destruct (provider_delete_run d w) as [Hv Hw].
  rewrite Hv, Hw, !provider_get_value. split; [done|]. split; [|split].
  - by rewrite rules_of_lookup, lookup_delete_eq.
  - intros d' Hd'. by rewrite !rules_of_lookup, lookup_delete_ne.
  - intros rule. destruct (provider_delete_run (domain rule) (world_after (add_rule rule w)))
      as [_ ->].
    unfold add_rewrite_rule. rewrite (CycleProofs.provider_request_world cfg retries).
    cbn [Provider.session_post snd]. apply delete_insert_eq.
Qed.

(** X11.  Updating a rule without the rules in hand: the client lists the
    rules and sends the update with the answer it was listed as target (or
    an add when the domain is not listed); the request succeeds, and
    afterwards the list call returns the rule's new answer under its domain
    and every other domain as before. *)
Theorem updated_rule_has_the_new_answer rule (w : Provider.state) :
  let run := update_rule rule None w in
  value run = true ∧
  (∃ listed_rule,
     value (get_rules (world_after run)) !! domain rule = Some listed_rule ∧
     domain listed_rule = domain rule ∧ answer listed_rule = answer rule) ∧
  ∀ d, d ≠ domain rule →
       value (get_rules (world_after run)) !! d = value (get_rules w) !! d.
Proof.
  intros run. subst run. unfold update_rewrite_rule. rewrite bind_value, bind_world.
  rewrite provider_get_value, provider_get_world, rules_of_lookup.
  destruct (w !! domain rule) as [[a en]|] eqn:Hw;
    cbn [fmap option_fmap option_map answer fst].
  - rewrite provider_request_value, (CycleProofs.provider_request_world cfg retries).
    cbn [Provider.session_post]. unfold Provider.matches. rewrite Hw.
    rewrite bool_decide_eq_true_2 by done. cbn [fst snd succeeded].
    rewrite !provider_get_value. split; [done|]. split.
    + eexists. rewrite rules_of_lookup, lookup_insert_eq. cbn. done.
    + intros d Hd. rewrite !rules_of_lookup, lookup_insert_ne, lookup_delete_ne; done.
  - unfold add_rewrite_rule.
    rewrite provider_request_value, (CycleProofs.provider_request_world cfg retries).
    cbn [Provider.session_post fst snd succeeded].
    rewrite !provider_get_value. split; [done|]. split.
    + eexists. rewrite rules_of_lookup, lookup_insert_eq. cbn. done.
    + intros d Hd. rewrite !rules_of_lookup, lookup_insert_ne; done.
Qed.

(** *** Records the run does not own *)

Lemma foldl_frame {B} (f : Provider.state → B → Provider.state) (l : list B)
    (w : Provider.state) (d : string) :
  (∀ a b, b ∈ l → f a b !! d = a !! d) → foldl f w l !! d = w !! d.
Proof.
  revert w. induction l as [|b rest IH]; intros w Hstep; [done|].
  cbn [foldl]. rewrite IH.
  - apply Hstep, list_elem_of_here.
  - intros a b' Hb'. apply Hstep. by apply list_elem_of_further.
Qed.

(** A request about one domain leaves the records of the others. *)
Lemma provider_post_frame op p (w : Provider.state) d :
  d ≠ payload_domain p →
  (∀ td ta ud ua, p = UpdatePayload td ta ud ua → ud = td) →
  (Provider.session_post op p w).2 !! d = w !! d.
Proof.
  intros Hd Hsame. destruct op, p as [rule|d' a|td ta ud ua]; cbn [Provider.session_post snd];
    cbn [payload_domain] in Hd; try done.
  - by rewrite lookup_insert_ne.
  - destruct (Provider.matches w d' a); [|done]. cbn [snd]. by rewrite lookup_delete_ne.
  - rewrite (Hsame td ta ud ua eq_refl).
    destruct (Provider.matches w td ta); [|done]. cbn [snd].
    by rewrite lookup_insert_ne, lookup_delete_ne.
Qed.

Lemma add_step_frame target (w : Provider.state) b d :
  keyed_by_domain target → b ≠ d →
  add_step Provider.session_post cfg target w b !! d = w !! d.
Proof.
  intros Hkeyed Hne. unfold add_step. destruct (target !! b) as [rule|] eqn:Ht; [|done].
  unfold add_rewrite_rule. rewrite (CycleProofs.provider_request_world cfg retries).
  apply provider_post_frame; [|done]. cbn [payload_domain].
  rewrite (Hkeyed _ _ Ht). done.
Qed.

Lemma update_step_frame target current (w : Provider.state) b d :
  keyed_by_domain target → b ≠ d →
  update_step Provider.session_get Provider.session_post cfg target current w b !! d =
    w !! d.
Proof.
  intros Hkeyed Hne. unfold update_step.
  destruct (target !! b) as [rule|] eqn:Ht; [|done].
  destruct (current !! b) as [c|]; [|done].
  destruct (needs_update c rule); [|done].
  unfold update_rewrite_rule. rewrite bind_world. run_simpl.
  pose proof (Hkeyed _ _ Ht) as Hdom.
  destruct (current !! domain rule) as [old|].
  - rewrite (CycleProofs.provider_request_world cfg retries).
    apply provider_post_frame; cbn [payload_domain]; [by rewrite Hdom|].
    by intros td ta ud ua [= -> _ -> _].
  - unfold add_rewrite_rule. rewrite (CycleProofs.provider_request_world cfg retries).
    apply provider_post_frame; cbn [payload_domain]; [by rewrite Hdom|done].
Qed.

Lemma delete_step_frame current (w : Provider.state) b d :
  b ≠ d →
  delete_step Provider.session_get Provider.session_post cfg current w b !! d = w !! d.
Proof.
  intros Hne. rewrite (CycleProofs.delete_step_provider cfg retries).
  destruct (current !! b) as [rule|]; [|done].
  destruct (Provider.matches w b (answer rule)); [|done]. by rewrite lookup_delete_ne.
Qed.

(** X12.  The records of the provider that the application does not own
    survive a run: whatever the desired and the managed rules are, a domain
    that is neither desired nor managed has after the run the record it had
    before, so the list call returns it as before. *)
Theorem unmanaged_records_survive_a_run target managed (w : Provider.state) d :
  keyed_by_domain target →
  d ∉ dom target → d ∉ app_managed_domains managed →
  let after := world_after (sync target managed w) in
  after !! d = w !! d ∧
  value (get_rules after) !! d = value (get_rules w) !! d.
Proof.
  intros Hkeyed Hnt Hnm after.
  assert (after !! d = w !! d) as Hframe.
  { subst after. rewrite sync_rules_run. cbn zeta.
    destruct (aborted cfg target managed _); [done|]. cbn [world_after fst snd].
    change ((apply_changes Provider.session_get Provider.session_post set_iter cfg target
               (listed (Provider.session_get w).1) (app_managed_domains managed)
               (Provider.session_get w).2).1.2)
      with (world_after (apply_changes Provider.session_get Provider.session_post set_iter
               cfg target (listed (Provider.session_get w).1)
               (app_managed_domains managed) w)).
    rewrite (apply_changes_world _ _ _ _ set_iter_perm).
    rewrite foldl_frame, foldl_frame, foldl_frame; [done| | |].
    - intros a b Hb. apply add_step_frame; [done|].
      apply (elem_of_set_iter _ set_iter_perm) in Hb. unfold to_add_or_update in Hb.
      apply elem_of_difference in Hb as [Hb _]. by intros ->.
    - intros a b Hb. apply update_step_frame; [done|].
      apply (elem_of_set_iter _ set_iter_perm) in Hb. unfold to_update in Hb.
      apply elem_of_intersection in Hb as [_ Hb]. by intros ->.
    - intros a b Hb. apply delete_step_frame.
      apply (elem_of_set_iter _ set_iter_perm) in Hb. unfold to_delete in Hb.
      apply elem_of_difference in Hb as [Hb _]. by intros ->. }
  split; [done|]. by rewrite !provider_get_value, !rules_of_lookup, Hframe.
Qed.

End Facts.

Lemma added_rule_is_listed_witness :
  1 ≤ max_retries default_config ∧
  value (get_rewrite_rules Provider.session_get
           (world_after (add_rewrite_rule Provider.session_post default_config
                           (mkRule "y" "10.0.0.2" false) Scenario.provider)))
    !! "y" = Some (mkRule "y" "10.0.0.2" false).
Proof.
  split; [cbn; lia|].
  apply (added_rule_is_listed default_config ltac:(cbn; lia)
           (mkRule "y" "10.0.0.2" false) Scenario.provider).
Defined.

Lemma deleted_rule_is_no_longer_listed_witness :
  1 ≤ max_retries default_config ∧
  value (get_rewrite_rules Provider.session_get
           (world_after (delete_rewrite_rule Provider.session_get Provider.session_post
                           default_config "z" None Scenario.provider)))
    !! "z" = None.
Proof.
  split; [cbn; lia|].
  apply (deleted_rule_is_no_longer_listed default_config ltac:(cbn; lia)
           "z" Scenario.provider).
Defined.

Lemma updated_rule_has_the_new_answer_witness :
  1 ≤ max_retries default_config ∧
  value (update_rewrite_rule Provider.session_get Provider.session_post default_config
           (mkRule "x" "10.0.0.9" true) None Scenario.provider) = true.
Proof.
  split; [cbn; lia|].
  apply (updated_rule_has_the_new_answer default_config ltac:(cbn; lia)
           (mkRule "x" "10.0.0.9" true) Scenario.provider).
Defined.

(** The provider holds a record [manual] next to the records of the
    three-way scenario; the run leaves it alone. *)
Lemma unmanaged_records_survive_a_run_witness :
  let w : Provider.state := <["manual" := ("192.168.1.1", Some false)]> Scenario.provider in
  (∀ s : gset string, elements s ≡ₚ elements s) ∧
  1 ≤ max_retries Scenario.lenient_config ∧
  keyed_by_domain Scenario.desired ∧
  ("manual" ∉ dom Scenario.desired) ∧
  ("manual" ∉ app_managed_domains (Some Scenario.managed)) ∧
  world_after (sync_rules Provider.session_get Provider.session_post elements
                 Scenario.lenient_config Scenario.desired (Some Scenario.managed) w)
    !! "manual" = Some ("192.168.1.1", Some false).
Proof.
  intros w.
  assert ("manual" ∉ dom Scenario.desired) as H1 by (by vm_compute).
  assert ("manual" ∉ app_managed_domains (Some Scenario.managed)) as H2 by (by vm_compute).
  split; [done|]. split; [cbn; lia|]. split; [apply generate_rules_keyed|].
  split; [done|]. split; [done|].
  destruct (unmanaged_records_survive_a_run elements Scenario.lenient_config
              (λ s, Permutation_refl _) ltac:(cbn; lia)
              Scenario.desired (Some Scenario.managed) w "manual"
              (generate_rules_keyed _) H1 H2) as [-> _].
  done.
Defined.

End ProviderProofs.

(** * The settings, the retries and the safety check *)
Module GuardProofs.
Import Models AdGuard ClientProofs.

Section Facts.

Context {World : Type}.
Variable session_get : World → get_result * World.
Variable session_post : operation → payload → World → post_result * World.
Variable set_iter : gset string → list string.
Variable cfg : Config.
Variable db : Database.RuleDatabase.

Hypothesis set_iter_perm : ∀ s, set_iter s ≡ₚ elements s.

Local Abbreviation request_loop := (_make_rule_request_loop session_post cfg).
Local Abbreviation request := (_make_rule_request session_post cfg).
Local Abbreviation sync := (sync_rules session_get session_post set_iter cfg).

Ltac run_simpl :=
  cbn [sleep ret trace world_after value fst snd posts sleeps omap list_omap app].

(** A sleep separates two attempts: there is one sleep less than posts. *)
Lemma request_loop_sleeps_between first count op p w :
  first + count = max_retries cfg → 1 ≤ count →
  S (length (sleeps (trace (request_loop (seq first count) op p w)))) =
  length (posts (trace (request_loop (seq first count) op p w))).
Proof.
  revert first w. induction count as [|count IH]; intros first w Hsum Hc; [lia|].
  simpl. rewrite bind_trace, http_post_trace, http_post_value, http_post_world.
  destruct (succeeded _); run_simpl; [done|].
  rewrite bind_trace, posts_app, sleeps_app, !length_app.
  destruct (first <? max_retries cfg - 1) eqn:Hlt; run_simpl; cbn [length].
  - apply Nat.ltb_lt in Hlt.
    specialize (IH (S first) (session_post op p w).2 ltac:(lia) ltac:(lia)). lia.
  - apply Nat.ltb_ge in Hlt. replace count with 0 by lia. done.
Qed.

Lemma sum_list_same (l : list nat) (n : nat) :
  Forall (λ x, x = n) l → sum_list l = length l * n.
Proof. induction 1 as [|x l -> _ IH]; [done|]. cbn. rewrite IH. lia. Qed.

(** X13.  With settings that passed [_validate_configuration], a rule
    request posts at least once and at most ten times, sleeps only between
    two attempts (one sleep less than posts, none after the last attempt),
    and sleeps at most 540 seconds in all. *)
Theorem validated_request_is_bounded op p w :
  _validate_configuration cfg = true →
  let t := trace (request op p w) in
  1 ≤ length (posts t) ≤ 10 ∧
  S (length (sleeps t)) = length (posts t) ∧
  sum_list (sleeps t) ≤ 540.
Proof.
  intros Hvalid t. subst t.
  destruct (StartupProofs.validated_bounds cfg Hvalid) as ([Hn1 Hn2] & [Hd1 Hd2] & _).
  pose proof (request_loop_post_count session_post cfg (seq 0 (max_retries cfg)) op p w)
    as Hcount.
  rewrite length_seq in Hcount.
  pose proof (request_loop_sleeps_between 0 (max_retries cfg) op p w eq_refl Hn1) as Hbetween.
  pose proof (request_loop_sleeps session_post cfg (seq 0 (max_retries cfg)) op p w)
    as Hsame.
  unfold _make_rule_request. rewrite (sum_list_same _ _ Hsame).
  split; [lia|]. split; [done|]. nia.
Qed.

(** *** The safety check at the ends of the threshold's range *)

Lemma to_delete_nothing_desired (managed : gset string) (dns : gmap string string) :
  dns = ∅ → to_delete managed (App.generate_rules dns) = managed.
Proof.
  intros ->. unfold to_delete. rewrite generate_rules_dom, dom_empty_L.
  apply set_eq. intros x. rewrite elem_of_difference.
  split; [by intros [? _]|]. intros ?. split; [done|]. by intros ?%elem_of_empty.
Qed.

Lemma size_to_delete_le (managed : gset string) (target : gmap string RewriteRule) :
  size (to_delete managed target) ≤ size managed.
Proof.
  apply subseteq_size. unfold to_delete. intros x. rewrite elem_of_difference. by intros [? _].
Qed.

Lemma default_check_stops_full_deletion n :
  1 ≤ n ≤ 1000 → safety_check_failed n n (safety_threshold default_config) = true.
Proof.
  intros Hn.
  assert (forallb (λ n, safety_check_failed n n (safety_threshold default_config))
            (seq 1 1000) = true) as Hall by (by vm_compute).
  rewrite forallb_forall in Hall. apply Hall, in_seq. lia.
Qed.

(** X14.  When the observer reports nothing (its result is empty, as it is
    after a failed query) while the store holds between 1 and 1000 managed
    rules, a cycle with the default settings is stopped by the safety
    check: it only lists the provider's rules, posts nothing, returns
    [False] and saves nothing. *)
Theorem empty_observation_is_stopped_by_the_default_guard now d w managed :
  (Database.load_managed_rules db now d).1 = Database.Return managed →
  1 ≤ size (dom managed) ≤ 1000 →
  let r := App.sync_rules session_get session_post set_iter default_config db ∅ now d w in
  App.success r = false ∧ App.events r = [Get] ∧
  App.disk_after r = (Database.load_managed_rules db now d).2 ∧
  App.world_after r = (session_get w).2.
Proof.
  intros Hload [Hn1 Hn2] r. subst r.
  rewrite (CycleProofs.cycle_aborted session_get session_post set_iter default_config db
             set_iter_perm ∅ now d w managed Hload); [done|].
  unfold aborted. cbn [app_managed_domains].
  rewrite to_delete_nothing_desired by done.
  rewrite default_check_stops_full_deletion by lia. apply orb_true_r.
Qed.

Lemma check_at_one_never_fails n_delete n_managed :
  n_managed ≤ 100 → n_delete ≤ n_managed →
  safety_check_failed n_delete n_managed float_1_0 = false.
Proof.
  intros Hm Hd.
  assert (forallb (λ n_managed,
            forallb (λ n_delete, negb (safety_check_failed n_delete n_managed float_1_0))
              (seq 0 (S n_managed)))
            (seq 0 101) = true) as Hall by (by vm_compute).
  rewrite forallb_forall in Hall.
  specialize (Hall n_managed). rewrite forallb_forall in Hall.
  apply negb_true_iff, Hall; apply in_seq; lia.
Qed.

(** X15.  With the threshold at 1.0, the upper end of the accepted range,
    the safety check never stops a run (for up to 100 managed rules): the
    only early return left is the empty list answer.  When the observer
    then reports nothing, the run posts a delete for every managed rule the
    provider lists. *)
Theorem full_threshold_disables_the_guard target managed w :
  safety_threshold cfg = float_1_0 →
  size (app_managed_domains managed) ≤ 100 →
  let current := listed (session_get w).1 in
  aborted cfg target managed current = bool_decide (current = ∅) ∧
  (1 ≤ max_retries cfg → current ≠ ∅ →
   value (sync ∅ managed w) = true ∧
   ∀ d rule, d ∈ app_managed_domains managed → current !! d = Some rule →
             (OpDelete, DeletePayload d (answer rule)) ∈ posts (trace (sync ∅ managed w))).
Proof.
  intros Hone Hsize current.
  assert (∀ target, aborted cfg target managed current = bool_decide (current = ∅)) as Hab.
  { intros tg. unfold aborted. rewrite Hone, check_at_one_never_fails.
    - apply orb_false_r.
    - done.
    - apply size_to_delete_le. }
  split; [apply Hab|]. intros Hn Hcur.
  assert (aborted cfg ∅ managed current = false) as Hrun.
  { rewrite Hab. by apply bool_decide_eq_false_2. }
  split.
  - rewrite (sync_rules_value _ _ _ _ set_iter_perm). fold current. by rewrite Hrun.
  - intros d rule Hd Hc.
    apply (sync_rules_complete _ _ _ _ set_iter_perm); [done..|].
    apply planned_delete with (d := d) (rule := rule); [|done].
    unfold to_delete. rewrite dom_empty_L. apply elem_of_difference.
    split; [done|]. by intros ?%elem_of_empty.
Qed.

(** X16.  A threshold that is not a number passes
    [_validate_configuration], since both of its comparisons are false, and
    with it the safety check is never true: the run is stopped by an empty
    list answer only. *)
Theorem nan_threshold_passes_validation_and_disables_the_guard :
  safety_threshold cfg = S754_nan →
  (_validate_configuration cfg = true ↔
   1 ≤ max_retries cfg ≤ 10 ∧ 1 ≤ retry_delay cfg ≤ 60 ∧ 1 ≤ request_timeout cfg ≤ 300) ∧
  (∀ n_delete n_managed,
     safety_check_failed n_delete n_managed (safety_threshold cfg) = false) ∧
  (∀ target managed current,
     aborted cfg target managed current = bool_decide (current = ∅)).
Proof.
  intros Hnan.
  assert (∀ n_delete n_managed,
            safety_check_failed n_delete n_managed (safety_threshold cfg) = false) as Hcheck.
  { intros n_delete n_managed. unfold safety_check_failed. rewrite Hnan.
    by destruct (float_of_int (Z.of_nat n_managed)). }
  split; [|split; [done|]].
  - unfold _validate_configuration. rewrite Hnan. cbn [SFltb SFcompare orb negb].
    rewrite andb_true_r, !andb_true_iff, !negb_true_iff, !orb_false_iff, !Nat.ltb_ge. lia.
  - intros target managed current. unfold aborted. rewrite Hcheck. apply orb_false_r.
Qed.

End Facts.

Lemma validated_request_is_bounded_witness :
  _validate_configuration default_config = true ∧
  S (length (sleeps (trace (_make_rule_request (Provider.faulty_post Scenario.drop_all)
                              default_config OpAdd
                              (RulePayload (mkRule "y" "10.0.0.2" true))
                              Scenario.provider)))) =
  length (posts (trace (_make_rule_request (Provider.faulty_post Scenario.drop_all)
                          default_config OpAdd
                          (RulePayload (mkRule "y" "10.0.0.2" true))
                          Scenario.provider))).
Proof.
  split; [by vm_compute|].
  apply (validated_request_is_bounded (Provider.faulty_post Scenario.drop_all)
           default_config OpAdd (RulePayload (mkRule "y" "10.0.0.2" true))
           Scenario.provider).
  by vm_compute.
Defined.

Lemma empty_observation_is_stopped_by_the_default_guard_witness :
  (∀ s : gset string, elements s ≡ₚ elements s) ∧
  (Database.load_managed_rules Scenario.store Scenario.second1 Scenario.ten_disk).1 =
    Database.Return Scenario.ten_managed ∧
  1 ≤ size (dom Scenario.ten_managed) ≤ 1000 ∧
  App.events (App.sync_rules Provider.session_get Provider.session_post elements
                default_config Scenario.store ∅ Scenario.second1 Scenario.ten_disk
                Scenario.ten_provider) = [Get].
Proof.
  assert ((Database.load_managed_rules Scenario.store Scenario.second1 Scenario.ten_disk).1 =
            Database.Return Scenario.ten_managed) as Hload by (by vm_compute).
  assert (1 ≤ size (dom Scenario.ten_managed) ≤ 1000) as Hsize by (vm_compute; lia).
  split; [done|]. split; [done|]. split; [done|].
  apply (empty_observation_is_stopped_by_the_default_guard
           Provider.session_get Provider.session_post elements Scenario.store
           (λ s, Permutation_refl _) Scenario.second1 Scenario.ten_disk
           Scenario.ten_provider Scenario.ten_managed Hload Hsize).
Defined.

Lemma full_threshold_disables_the_guard_witness :
  (∀ s : gset string, elements s ≡ₚ elements s) ∧
  safety_threshold Scenario.lenient_config = float_1_0 ∧
  size (app_managed_domains (Some Scenario.ten_managed)) ≤ 100 ∧
  aborted Scenario.lenient_config ∅ (Some Scenario.ten_managed)
    (listed (Provider.session_get Scenario.ten_provider).1) =
  bool_decide (listed (Provider.session_get Scenario.ten_provider).1 = ∅).
Proof.
  assert (size (app_managed_domains (Some Scenario.ten_managed)) ≤ 100) as Hsize
    by (vm_compute; lia).
  split; [done|]. split; [done|]. split; [done|].
  apply (full_threshold_disables_the_guard Provider.session_get Provider.session_post
           elements Scenario.lenient_config (λ s, Permutation_refl _)
           ∅ (Some Scenario.ten_managed) Scenario.ten_provider eq_refl Hsize).
Defined.

Lemma nan_threshold_passes_validation_and_disables_the_guard_witness :
  let cfg := {| max_retries := 3; retry_delay := 2; request_timeout := 10;
                safety_threshold := S754_nan |} in
  safety_threshold cfg = S754_nan ∧
  _validate_configuration cfg = true ∧
  safety_check_failed 10 10 (safety_threshold cfg) = false.
Proof.
  intros cfg. split; [done|].
  destruct (nan_threshold_passes_validation_and_disables_the_guard cfg eq_refl)
    as (Hvalid & Hcheck & _).
  split; [apply Hvalid; cbn; lia|apply Hcheck].
Defined.

End GuardProofs.

(** * Further properties of the store *)
Module BackupProofs.
Import Models Database StoreProofs Backups.

Section Facts.

Variable db : RuleDatabase.
Variable now : Clock.

Lemma lookup_quarantined_any path d c p :
  files d !! path = Some c → quarantine_name now path ≠ path →
  files (quarantined now path d) !! p =
    if decide (p = quarantine_name now path) then Some c
    else if decide (p = path) then None
    else files d !! p.
Proof.
  intros Hf Hne. unfold quarantined. rewrite Hf. cbn [files].
  destruct (decide (p = quarantine_name now path)) as [->|Hq].
  - by rewrite lookup_insert_eq.
  - rewrite lookup_insert_ne by done.
    destruct (decide (p = path)) as [->|Hp].
    + by rewrite lookup_delete_eq.
    + by rewrite lookup_delete_ne.
Qed.

Lemma quarantine_name_ne path : quarantine_name now path ≠ path.
Proof.
  unfold quarantine_name. by apply append_ne_self.
Qed.

Lemma journal_quarantined path d c :
  files d !! path = Some c →
  journal (quarantined now path d) = journal d ++ [Moved path (quarantine_name now path)].
Proof. intros Hf. unfold quarantined. by rewrite Hf. Qed.

Lemma lookup_restored_any path d c p :
  files d !! path = Some c →
  files (restored db path d) !! p =
    if decide (p = db_file db) then Some c else files d !! p.
Proof.
  intros Hf. unfold restored. rewrite Hf. cbn [files].
  destruct (decide (p = db_file db)) as [->|Hp].
  - by rewrite lookup_insert_eq.
  - by rewrite lookup_insert_ne.
Qed.

Lemma journal_restored path d c :
  files d !! path = Some c →
  journal (restored db path d) = journal d ++ [Copied path (db_file db)].
Proof. intros Hf. unfold restored. by rewrite Hf. Qed.

(** X17.  When the main file is missing and the fixed-name backup holds at
    least one valid rule, [load_managed_rules] returns the backup's rules
    and copies the backup over the main file, touching nothing else; a
    load that follows returns the same rules from the main file and
    changes nothing. *)
Theorem missing_main_file_is_restored_from_the_backup d c rules :
  files d !! db_file db = None →
  files d !! backup_file db = Some c → loads c = Some rules → rules ≠ ∅ →
  let result := load_managed_rules db now d in
  result.1 = Return rules ∧
  files result.2 !! db_file db = Some c ∧
  (∀ p, p ≠ db_file db → files result.2 !! p = files d !! p) ∧
  journal result.2 = journal d ++ [Copied (backup_file db) (db_file db)] ∧
  ∀ now', load_managed_rules db now' result.2 = (Return rules, result.2).
Proof.
  intros Hmain Hbackup Hloads Hne result. subst result.
  rewrite (load_missing db now d Hmain), Hbackup, Hloads.
  rewrite bool_decide_eq_true_2 by done. cbn [fst snd].
  assert (files (restored db (backup_file db) d) !! db_file db = Some c) as Hnew.
  { rewrite (lookup_restored_any _ _ _ _ Hbackup). by rewrite decide_True. }
  split; [done|]. split; [done|]. split; [|split].
  - intros p Hp. rewrite (lookup_restored_any _ _ _ _ Hbackup). by rewrite decide_False.
  - by apply (journal_restored _ _ c).
  - intros now'. by apply (load_valid db now' _ c).
Qed.

Lemma pattern_quarantined_backup :
  String.prefix (backup_pattern db) (quarantine_name now (backup_file db)) = true.
Proof.
  unfold backup_pattern, quarantine_name, backup_file.
  rewrite append_assoc, prefix_append. done.
Qed.

Lemma quarantined_backup_ne_db_file : quarantine_name now (backup_file db) ≠ db_file db.
Proof.
  unfold quarantine_name, backup_file. rewrite append_assoc. by apply append_ne_self.
Qed.

(** X18.  When the main file is missing and the fixed-name backup does not
    parse, [load_managed_rules] renames the backup with a time stamp and
    returns the empty set; it does not try the generation backups on this
    path, whatever they hold, and creates no main file.  The renamed file
    matches the pattern of the generation backups, so it is listed among
    them from then on. *)
Theorem corrupt_backup_file_is_quarantined_and_nothing_restored d c :
  files d !! db_file db = None →
  files d !! backup_file db = Some c → loads c = None →
  let result := load_managed_rules db now d in
  let renamed := quarantine_name now (backup_file db) in
  result.1 = Return ∅ ∧
  files result.2 !! db_file db = None ∧
  files result.2 !! backup_file db = None ∧
  files result.2 !! renamed = Some c ∧
  (∀ p, p ≠ backup_file db → p ≠ renamed → files result.2 !! p = files d !! p) ∧
  journal result.2 = journal d ++ [Moved (backup_file db) renamed] ∧
  renamed ∈ generations db result.2.
Proof.
  intros Hmain Hbackup Hloads result renamed. subst result renamed.
  rewrite (load_missing db now d Hmain), Hbackup, Hloads. cbn [fst snd].
  pose proof (lookup_quarantined_any _ _ _ (db_file db) Hbackup (quarantine_name_ne _))
    as Hdb.
  rewrite decide_False in Hdb by (symmetry; apply quarantined_backup_ne_db_file).
  rewrite decide_False in Hdb by (symmetry; apply backup_file_ne_db_file).
  pose proof (lookup_quarantined_any _ _ _ (backup_file db) Hbackup (quarantine_name_ne _))
    as Hbk.
  rewrite decide_False in Hbk by (symmetry; apply quarantine_name_ne).
  rewrite decide_True in Hbk by done.
  pose proof (lookup_quarantined_any _ _ _ (quarantine_name now (backup_file db)) Hbackup
                (quarantine_name_ne _)) as Hq.
  rewrite decide_True in Hq by done.
  split; [done|]. split; [by rewrite Hdb|]. split; [done|]. split; [done|].
  split; [|split].
  - intros p Hp1 Hp2.
    rewrite (lookup_quarantined_any _ _ _ p Hbackup (quarantine_name_ne _)).
    by rewrite !decide_False.
  - by apply (journal_quarantined _ _ c).
  - apply elem_of_generations. split; [by rewrite Hq|apply pattern_quarantined_backup].
Qed.

(** X19.  Saving the empty set over a store that holds rules does not make
    the store forget them: the save leaves the empty dictionary in the main
    file and the old rules in the fixed-name backup; the next load returns
    the empty set and renames the main file away; the load after that finds
    no main file, returns the old rules from the backup and restores them
    as the main file. *)
Theorem rules_return_after_an_empty_save d c previous now1 now2 :
  files d !! db_file db = Some c → loads c = Some previous → previous ≠ ∅ →
  let saved := (save_managed_rules db now ∅ d).2 in
  let first := load_managed_rules db now1 saved in
  let second := load_managed_rules db now2 first.2 in
  first.1 = Return ∅ ∧
  second.1 = Return previous ∧
  files second.2 !! db_file db = Some c.
Proof.
  intros Hmain Hloads Hne saved first second.
  assert (files saved !! db_file db = Some (JsonDict (data_of_rule <$> ∅))) as Hsaved
    by apply lookup_save_db_file.
  assert (files saved !! backup_file db = Some c) as Hbackup
    by (by apply lookup_save_backup_file).
  assert (first = (Return ∅, quarantined now1 (db_file db) saved)) as Hfirst.
  { subst first. apply (load_empty db now1 saved _ Hsaved). by rewrite loads_saved. }
  assert (files first.2 !! db_file db = None) as Hgone.
  { rewrite Hfirst. cbn [snd]. rewrite (lookup_quarantined db now1 _ _ _ Hsaved).
    rewrite decide_False by (symmetry; apply quarantine_ne_db_file).
    by rewrite decide_True. }
  assert (files first.2 !! backup_file db = Some c) as Hkept.
  { rewrite Hfirst. cbn [snd]. rewrite (lookup_quarantined db now1 _ _ _ Hsaved).
    rewrite decide_False by (symmetry; apply quarantine_ne_backup_file).
    by rewrite decide_False by apply backup_file_ne_db_file. }
  split; [by rewrite Hfirst|]. subst second.
  rewrite (load_missing db now2 _ Hgone), Hkept, Hloads.
  rewrite bool_decide_eq_true_2 by done. cbn [fst snd]. split; [done|].
  rewrite (lookup_restored_any _ _ _ _ Hkept). by rewrite decide_True.
Qed.

Lemma first_valid_elem fs l path rules :
  first_valid fs l = Some (path, rules) → path ∈ l.
Proof.
  induction l as [|p rest IH]; [done|]. cbn [first_valid].
  destruct (fs !! p ≫= loads).
  - intros [= -> _]. apply list_elem_of_here.
  - intros H. apply list_elem_of_further. by apply IH.
Qed.

(** X20.  [load_managed_rules] returns on every disk, and what it does to
    the disk is at most one rename followed by at most one copy: it never
    removes a file and never writes new content.  When it changes nothing
    in the journal the disk is as it was. *)
Theorem load_only_renames_and_copies d :
  let result := load_managed_rules db now d in
  ∃ rules ops,
    result.1 = Return rules ∧
    journal result.2 = journal d ++ ops ∧
    length ops ≤ 2 ∧
    forallb keeps_content ops = true ∧
    (ops = [] → result.2 = d).
Proof.
  intros result. subst result.
  destruct (files d !! db_file db) as [c|] eqn:Hmain.
  - destruct (loads c) as [rules|] eqn:Hloads.
    + destruct (decide (rules = ∅)) as [->|Hne].
      * rewrite (load_empty db now _ _ Hmain Hloads). cbn [fst snd].
        exists ∅, [Moved (db_file db) (quarantine_name now (db_file db))].
        rewrite (journal_quarantined _ _ c) by done. repeat split; [cbn; lia|done].
      * rewrite (load_valid db now _ _ _ Hmain Hloads Hne). cbn [fst snd].
        exists rules, []. rewrite app_nil_r. repeat split; cbn; lia.
    + rewrite (load_corrupt_result db now _ _ Hmain Hloads).
      destruct (first_valid (files d) (restore_candidates db d)) as [[path rules]|] eqn:Hfirst.
      * cbn [fst snd].
        pose proof (first_valid_elem _ _ _ _ Hfirst) as Hin.
        apply CycleProofs.first_valid_Some in Hfirst as (c' & Hpath & _).
        assert (files (quarantined now (db_file db) d) !! path = Some c') as Hpath'.
        { rewrite (lookup_quarantined_candidate db now _ _ _ Hmain); [done|].
          by apply elem_of_restore_candidates in Hin. }
        exists rules, [Moved (db_file db) (quarantine_name now (db_file db));
                       Copied path (db_file db)].
        rewrite (journal_restored _ _ c') by done.
        rewrite (journal_quarantined _ _ c) by done. rewrite <- app_assoc.
        repeat split; [cbn; lia|done].
      * cbn [fst snd].
        exists ∅, [Moved (db_file db) (quarantine_name now (db_file db))].
        rewrite (journal_quarantined _ _ c) by done. repeat split; [cbn; lia|done].
  - rewrite (load_missing db now _ Hmain).
    destruct (files d !! backup_file db) as [c|] eqn:Hbackup.
    + destruct (loads c) as [rules|] eqn:Hloads.
      * case_bool_decide.
        -- cbn [fst snd]. exists rules, [Copied (backup_file db) (db_file db)].
           rewrite (journal_restored _ _ c) by done. repeat split; [cbn; lia|done].
        -- cbn [fst snd]. exists ∅, []. rewrite app_nil_r. repeat split; cbn; lia.
      * cbn [fst snd].
        exists ∅, [Moved (backup_file db) (quarantine_name now (backup_file db))].
        rewrite (journal_quarantined _ _ c) by done. repeat split; [cbn; lia|done].
    + cbn [fst snd]. exists ∅, []. rewrite app_nil_r. repeat split; cbn; lia.
Qed.

(** X21.  A save touches four kinds of names only: the main file, its
    temporary file, the fixed-name backup and the names that match the
    pattern of the generation backups.  Every other file of the directory,
    a quarantined main file among them, is after the save as it was
    before. *)
Theorem save_leaves_other_files_alone rules d p :
  p ≠ db_file db → p ≠ db_file db +:+ ".tmp" → p ≠ backup_file db →
  String.prefix (backup_pattern db) p = false →
  files (save_managed_rules db now rules d).2 !! p = files d !! p.
Proof.
  intros Hmain Htmp Hbackup Hpattern.
  destruct (files d !! db_file db) as [c|] eqn:Hexists.
  - rewrite (save_existing db now rules d c Hexists). cbn [snd].
    rewrite lookup_written, !decide_False by done.
    rewrite lookup_pruned, decide_False.
    + rewrite (lookup_backed_up db now d c p Hexists), decide_False by done.
      rewrite decide_False; [done|]. intros ->. by rewrite pattern_generation in Hpattern.
    + intros Hin. eapply elem_of_sublist in Hin; [|apply sublist_drop].
      apply elem_of_generations in Hin as [_ Hin]. by rewrite Hin in Hpattern.
  - rewrite (save_fresh db now rules d Hexists). cbn [snd].
    by rewrite lookup_written, !decide_False.
Qed.

(** X22.  A save that finds no main file makes no backup and prunes
    nothing: it writes the temporary file and renames it, and the
    generation backups and the fixed-name backup are as they were, however
    many generations there are. *)
Theorem first_save_makes_no_backup rules d :
  files d !! db_file db = None →
  let d' := (save_managed_rules db now rules d).2 in
  (save_managed_rules db now rules d).1 = Return tt ∧
  journal d' =
    journal d ++ [Written (db_file db +:+ ".tmp");
                  Moved (db_file db +:+ ".tmp") (db_file db)] ∧
  files d' !! db_file db = Some (JsonDict (data_of_rule <$> rules)) ∧
  files d' !! backup_file db = files d !! backup_file db ∧
  generations db d' = generations db d ∧
  (∀ g, g ∈ generations db d → files d' !! g = files d !! g).
Proof.
  intros Hmain d'. subst d'. rewrite (save_fresh db now rules d Hmain). cbn [fst snd].
  split; [done|]. split; [done|]. split; [|split; [|split]].
  - by rewrite lookup_written, decide_True.
  - rewrite lookup_written, decide_False by apply backup_file_ne_db_file.
    rewrite decide_False; [done|]. intros Heq. by destruct (temp_file_ne_backup_file db).
  - apply generations_written.
  - intros g [_ Hg]%elem_of_generations. rewrite lookup_written.
    rewrite decide_False by (intros ->; by rewrite pattern_db_file in Hg).
    rewrite decide_False; [done|]. intros ->. by rewrite pattern_temp_file in Hg.
Qed.

(** *** A quarantined backup among the generations *)

Lemma later_refl (a : string) : later a a.
Proof. destruct (later_total a a); done. Qed.

Lemma later_quarantined_backup now0 p :
  timestamped db p → later (quarantine_name now0 (backup_file db)) p.
Proof.
  intros (c & stamp & -> & Hdigit).
  unfold quarantine_name, backup_file, backup_pattern.
  rewrite !append_assoc. apply later_append.
  unfold later, String.leb. cbn [String.append String.compare].
  destruct c as [[] [] [] [] [] [] [] []]; try discriminate Hdigit; done.
Qed.

Lemma sorted_head_is_latest (l : list string) (q : string) :
  StronglySorted later l → q ∈ l → (∀ p, p ∈ l → later q p) →
  ∃ rest, l = q :: rest.
Proof.
  intros Hsorted Hq Hlatest. destruct l as [|h rest]; [by apply elem_of_nil in Hq|].
  apply StronglySorted_inv in Hsorted as [_ Hhead].
  apply elem_of_cons in Hq as [->|Hq]; [by eauto|].
  rewrite Forall_forall in Hhead.
  assert (h = q) as ->; [|by eauto].
  apply later_antisym; [by apply Hhead|]. apply Hlatest, list_elem_of_here.
Qed.

(** X23.  A fixed-name backup that was quarantined matches the pattern of
    the generation backups and sorts after every time-stamped generation.
    A save over an existing main file therefore keeps it as the first of
    the generations, and keeps at most [max_backups - 1] time-stamped
    generations next to it. *)
Theorem quarantined_backup_takes_a_generation_slot now0 rules d c cq :
  let renamed := quarantine_name now0 (backup_file db) in
  files d !! db_file db = Some c →
  files d !! renamed = Some cq →
  1 ≤ max_backups db →
  timestamped db (generation_name db now) →
  (∀ g, g ∈ generations db d → g = renamed ∨ timestamped db g) →
  ∃ rest,
    generations db (save_managed_rules db now rules d).2 = renamed :: rest ∧
    length rest ≤ max_backups db - 1 ∧
    Forall (timestamped db) rest.
Proof.
  intros renamed Hmain Hq Hmax Hstamp Hgens.
  rewrite (generations_save_existing db now rules d c Hmain).
  set (l := generations db (backed_up db now d)).
  assert (∀ p, p ∈ l → p = renamed ∨ timestamped db p) as Hmembers.
  { intros p Hp. apply (elem_of_generations_backed_up db now d c p Hmain) in Hp as [->|Hp].
    - by right.
    - by apply Hgens. }
  assert (renamed ∈ l) as Hin.
  { apply (elem_of_generations_backed_up db now d c _ Hmain). right.
    apply elem_of_generations. split; [by rewrite Hq|].
    unfold renamed, quarantine_name, backup_file, backup_pattern.
    rewrite append_assoc, prefix_append. done. }
  destruct (sorted_head_is_latest l renamed) as [tail Hl].
  - apply generations_sorted.
  - done.
  - intros p Hp. destruct (Hmembers p Hp) as [->|Hp'].
    + apply later_refl.
    + by apply later_quarantined_backup.
  - pose proof (NoDup_generations db (backed_up db now d)) as Hnodup.
    fold l in Hnodup. rewrite Hl in Hnodup. apply NoDup_cons in Hnodup as [Hfresh _].
    rewrite Hl. destruct (max_backups db) as [|k]; [lia|]. cbn [take].
    exists (take k tail). split; [done|]. split.
    + rewrite length_take. lia.
    + apply Forall_forall. intros x Hx.
      eapply elem_of_sublist in Hx; [|apply sublist_take].
      destruct (Hmembers x) as [->|Hx']; [|done..].
      rewrite Hl. by apply list_elem_of_further.
Qed.

End Facts.

Lemma missing_main_file_is_restored_from_the_backup_witness :
  let d := mkDisk {["/app/data/managed_rules.json.backup" :=
                      JsonDict (data_of_rule <$> Scenario.a_example)]} [] in
  files d !! db_file Scenario.store = None ∧
  files d !! backup_file Scenario.store =
    Some (JsonDict (data_of_rule <$> Scenario.a_example)) ∧
  loads (JsonDict (data_of_rule <$> Scenario.a_example)) = Some Scenario.a_example ∧
  Scenario.a_example ≠ ∅ ∧
  (load_managed_rules Scenario.store Scenario.second1 d).1 = Return Scenario.a_example.
Proof.
  intros d.
  assert (files d !! db_file Scenario.store = None) as H1 by (by vm_compute).
  assert (files d !! backup_file Scenario.store =
            Some (JsonDict (data_of_rule <$> Scenario.a_example))) as H2 by (by vm_compute).
  assert (Scenario.a_example ≠ ∅) as H3 by apply map_non_empty_singleton.
  split; [done|]. split; [done|]. split; [apply loads_saved|]. split; [done|].
  pose proof (missing_main_file_is_restored_from_the_backup Scenario.store Scenario.second1
                d _ Scenario.a_example H1 H2 (loads_saved _) H3) as [Hresult _].
  exact Hresult.
Defined.

Lemma corrupt_backup_file_is_quarantined_and_nothing_restored_witness :
  let d := mkDisk {["/app/data/managed_rules.json.backup" := Unparsable "{"]} [] in
  files d !! db_file Scenario.store = None ∧
  files d !! backup_file Scenario.store = Some (Unparsable "{") ∧
  loads (Unparsable "{") = None ∧
  (load_managed_rules Scenario.store Scenario.second1 d).1 = Return ∅.
Proof.
  intros d.
  assert (files d !! db_file Scenario.store = None) as H1 by (by vm_compute).
  assert (files d !! backup_file Scenario.store = Some (Unparsable "{")) as H2
    by (by vm_compute).
  split; [done|]. split; [done|]. split; [done|].
  pose proof (corrupt_backup_file_is_quarantined_and_nothing_restored Scenario.store
                Scenario.second1 d _ H1 H2 eq_refl) as [Hresult _].
  exact Hresult.
Defined.

Lemma rules_return_after_an_empty_save_witness :
  let d := mkDisk {["/app/data/managed_rules.json" :=
                      JsonDict (data_of_rule <$> Scenario.a_example)]} [] in
  files d !! db_file Scenario.store =
    Some (JsonDict (data_of_rule <$> Scenario.a_example)) ∧
  loads (JsonDict (data_of_rule <$> Scenario.a_example)) = Some Scenario.a_example ∧
  Scenario.a_example ≠ ∅ ∧
  (load_managed_rules Scenario.store Scenario.second3
     (load_managed_rules Scenario.store Scenario.second2
        (save_managed_rules Scenario.store Scenario.second1 ∅ d).2).2).1 =
    Return Scenario.a_example.
Proof.
  intros d.
  assert (files d !! db_file Scenario.store =
            Some (JsonDict (data_of_rule <$> Scenario.a_example))) as H1 by (by vm_compute).
  assert (Scenario.a_example ≠ ∅) as H3 by apply map_non_empty_singleton.
  split; [done|]. split; [apply loads_saved|]. split; [done|].
  pose proof (rules_return_after_an_empty_save Scenario.store Scenario.second1 d _
                Scenario.a_example Scenario.second2 Scenario.second3 H1 (loads_saved _) H3)
    as (_ & Hsecond & _).
  exact Hsecond.
Defined.

Lemma save_leaves_other_files_alone_witness :
  let quarantined_main := "/app/data/managed_rules.json.corrupted.1704110401" in
  let d := mkDisk {[quarantined_main := Unparsable "{"]} [] in
  quarantined_main ≠ db_file Scenario.store ∧
  quarantined_main ≠ db_file Scenario.store +:+ ".tmp" ∧
  quarantined_main ≠ backup_file Scenario.store ∧
  String.prefix (backup_pattern Scenario.store) quarantined_main = false ∧
  files (save_managed_rules Scenario.store Scenario.second2 Scenario.a_example d).2
    !! quarantined_main = Some (Unparsable "{").
Proof.
  intros quarantined_main d.
  split; [done|]. split; [done|]. split; [done|]. split; [done|].
  by rewrite (save_leaves_other_files_alone Scenario.store Scenario.second2
                Scenario.a_example d quarantined_main).
Defined.

Lemma first_save_makes_no_backup_witness :
  files Scenario.empty_disk !! db_file Scenario.store = None ∧
  journal (save_managed_rules Scenario.store Scenario.second1 Scenario.a_example
             Scenario.empty_disk).2 =
    [Written "/app/data/managed_rules.json.tmp";
     Moved "/app/data/managed_rules.json.tmp" "/app/data/managed_rules.json"].
Proof.
  split; [done|].
  pose proof (first_save_makes_no_backup Scenario.store Scenario.second1 Scenario.a_example
                Scenario.empty_disk eq_refl) as (_ & Hjournal & _).
  exact Hjournal.
Defined.

(** A store with retention 3 whose fixed-name backup was quarantined: the
    save keeps the quarantined file and the new generation. *)
Lemma quarantined_backup_takes_a_generation_slot_witness :
  let renamed := quarantine_name Scenario.second1 (backup_file Scenario.store) in
  let d := mkDisk (<["/app/data/managed_rules.json" :=
                       JsonDict (data_of_rule <$> Scenario.a_example)]>
                   {[renamed := Unparsable "{"]}) [] in
  files d !! db_file Scenario.store =
    Some (JsonDict (data_of_rule <$> Scenario.a_example)) ∧
  files d !! renamed = Some (Unparsable "{") ∧
  1 ≤ max_backups Scenario.store ∧
  timestamped Scenario.store (generation_name Scenario.store Scenario.second2) ∧
  (∀ g, g ∈ generations Scenario.store d → g = renamed ∨ timestamped Scenario.store g) ∧
  ∃ rest, generations Scenario.store
            (save_managed_rules Scenario.store Scenario.second2 Scenario.b_example d).2 =
          renamed :: rest.
Proof.
  intros renamed d.
  assert (files d !! db_file Scenario.store =
            Some (JsonDict (data_of_rule <$> Scenario.a_example))) as H1 by (by vm_compute).
  assert (files d !! renamed = Some (Unparsable "{")) as H2 by (by vm_compute).
  assert (1 ≤ max_backups Scenario.store) as H3 by (cbn; lia).
  assert (timestamped Scenario.store (generation_name Scenario.store Scenario.second2)) as H4.
  { unfold timestamped. eexists _, _. split; [vm_compute; reflexivity|done]. }
  assert (∀ g, g ∈ generations Scenario.store d →
               g = renamed ∨ timestamped Scenario.store g) as H5.
  { intros g Hg. left.
    assert (generations Scenario.store d = [renamed]) as Hgens by (by vm_compute).
    rewrite Hgens in Hg. by apply list_elem_of_singleton in Hg. }
  split; [done|]. split; [done|]. split; [done|]. split; [done|]. split; [done|].
  destruct (quarantined_backup_takes_a_generation_slot Scenario.store Scenario.second2
              Scenario.second1 Scenario.b_example d _ _ H1 H2 H3 H4 H5) as (rest & Hrest & _).
  by exists rest.
Defined.

End BackupProofs.

(** * Properties of the discovery *)
Module DiscoveryProofs.
Import Models K8s.

Section Facts.

Variable lower : string → string.
Variable str : gmap string string → string.

Local Abbreviation visit_address := (K8s.visit_address lower str).
Local Abbreviation visit_service := (K8s.visit_service lower str).
Local Abbreviation visit_ingress := (K8s.visit_ingress str).
Local Abbreviation is_traefik := (K8s.is_traefik_service lower str).
Local Abbreviation discover := (K8s.get_all_dns_resources lower str).
Local Abbreviation observe := (K8s.get_dns_resources lower str).

Lemma foldl_preserves {A B} (f : A → B → A) (P : A → Prop) (l : list B) (a : A) :
  (∀ a b, b ∈ l → P a → P (f a b)) → P a → P (foldl f a l).
Proof.
  revert a. induction l as [|b rest IH]; intros a Hstep Ha; [done|].
  cbn [foldl]. apply IH.
  - intros a' b' Hb'. apply Hstep. by apply list_elem_of_further.
  - apply Hstep; [apply list_elem_of_here|done].
Qed.

(** *** The first pass *)

Lemma visit_address_sourced service_list s acc ip addresses :
  s ∈ service_list → spec_type s = "LoadBalancer" →
  load_balancer_ingress s = Some addresses → ip ∈ addresses →
  sourced service_list acc → sourced service_list (visit_address s acc ip).
Proof.
  intros Hs Htype Haddr Hip [Hdns Htraefik]. unfold K8s.visit_address.
  destruct ip as [ip|]; [|done]. case_bool_decide as Hne; [|done].
  assert (has_address s ip) as Hhas by (split; [done|]; split; [done|]; eauto).
  destruct (is_traefik s); split; cbn [fst snd].
  - done.
  - intros ip' [= <-]. eauto.
  - intros h ip' Hlookup. destruct (decide (h = hostname_of s)) as [->|Hh].
    + rewrite lookup_insert_eq in Hlookup. injection Hlookup as <-. eauto.
    + rewrite lookup_insert_ne in Hlookup by done. eauto.
  - done.
Qed.

Lemma visit_service_sourced service_list s acc :
  s ∈ service_list → sourced service_list acc → sourced service_list (visit_service acc s).
Proof.
  intros Hs Hacc. unfold K8s.visit_service. case_bool_decide as Htype; [|done].
  destruct (load_balancer_ingress s) as [addresses|] eqn:Haddr; [|done].
  apply (foldl_preserves _ (sourced service_list)); [|done].
  intros a ip Hip Ha. by eapply visit_address_sourced.
Qed.

Lemma first_pass_sourced service_list :
  sourced service_list (foldl visit_service (∅, None) service_list).
Proof.
  apply (foldl_preserves _ (sourced service_list)).
  - intros a s Hs Ha. by apply visit_service_sourced.
  - split; [intros h ip Hl; cbn [fst] in Hl; by rewrite lookup_empty in Hl|done].
Qed.

(** *** The second pass *)

Lemma visit_rule_lookup tip dns host h ip :
  visit_rule tip dns host !! h = Some ip → ip = tip ∨ dns !! h = Some ip.
Proof.
  unfold visit_rule. destruct host as [host|]; [|by right].
  case_bool_decide; [|by right].
  destruct (decide (h = host)) as [->|Hne].
  - rewrite lookup_insert_eq. intros [= <-]. by left.
  - rewrite lookup_insert_ne by done. by right.
Qed.

Lemma visit_ingress_lookup tip dns ingress h ip :
  visit_ingress tip dns ingress !! h = Some ip → ip = tip ∨ dns !! h = Some ip.
Proof.
  unfold K8s.visit_ingress. destruct (is_traefik_ingress str ingress); [|by right].
  destruct (spec_rules ingress) as [rules|]; [|by right].
  revert dns. induction rules as [|host rest IH]; intros dns; [by right|].
  cbn [foldl]. intros Hl. apply IH in Hl as [->|Hl]; [by left|].
  by apply visit_rule_lookup in Hl.
Qed.

Lemma second_pass_lookup tip dns ingress_list h ip :
  foldl (visit_ingress tip) dns ingress_list !! h = Some ip →
  ip = tip ∨ dns !! h = Some ip.
Proof.
  revert dns. induction ingress_list as [|ingress rest IH]; intros dns; [by right|].
  cbn [foldl]. intros Hl. apply IH in Hl as [->|Hl]; [by left|].
  by apply visit_ingress_lookup in Hl.
Qed.

(** X24.  Every answer the observer reports is an address of the cluster:
    when a host name is mapped to an address, the service query returned a
    service of type LoadBalancer that has this non-empty address among its
    ingress points.  This holds for the host names of services and for the
    host names of ingress resources, which get the address of a Traefik
    service. *)
Theorem discovered_answers_are_load_balancer_addresses services ingresses h ip :
  observe services ingresses !! h = Some ip →
  ∃ service_list s,
    services = Items service_list ∧ s ∈ service_list ∧ has_address s ip.
Proof.
  unfold K8s.get_dns_resources, K8s.get_all_dns_resources.
  destruct services as [service_list| |]; [|by rewrite lookup_empty..].
  pose proof (first_pass_sourced service_list) as [Hdns Htraefik].
  destruct (foldl visit_service (∅, None) service_list) as [dns traefik_ip].
  cbn [fst snd] in *. intros Hl. exists service_list.
  assert (dns !! h = Some ip → ∃ s, s ∈ service_list ∧ has_address s ip) as Hfirst.
  { intros Hd. apply Hdns in Hd as (s & ? & ?). eauto. }
  assert (∃ s, s ∈ service_list ∧ has_address s ip) as (s & ? & ?); [|by eauto].
  destruct traefik_ip as [tip|]; [|by apply Hfirst].
  case_bool_decide; [|by apply Hfirst].
  destruct ingresses as [ingress_list| |].
  - apply second_pass_lookup in Hl as [->|Hl]; [by apply Htraefik|by apply Hfirst].
  - by apply Hfirst.
  - by rewrite lookup_empty in Hl.
Qed.

(** *** Entries are never dropped *)

Lemma visit_address_keeps s acc ip h :
  is_Some (acc.1 !! h) → is_Some ((visit_address s acc ip).1 !! h).
Proof.
  intros Hh. unfold K8s.visit_address. destruct ip as [ip|]; [|done].
  case_bool_decide; [|done]. destruct (is_traefik s); [done|]. cbn [fst].
  destruct (decide (h = hostname_of s)) as [->|Hne].
  - rewrite lookup_insert_eq. eauto.
  - by rewrite lookup_insert_ne.
Qed.

Lemma visit_service_keeps acc s h :
  is_Some (acc.1 !! h) → is_Some ((visit_service acc s).1 !! h).
Proof.
  intros Hh. unfold K8s.visit_service. case_bool_decide; [|done].
  destruct (load_balancer_ingress s) as [addresses|]; [|done].
  apply (foldl_preserves _ (λ a : scan, is_Some (a.1 !! h))); [|done].
  intros a ip _. apply visit_address_keeps.
Qed.

Lemma visit_ingress_keeps tip dns ingress h :
  is_Some (dns !! h) → is_Some (visit_ingress tip dns ingress !! h).
Proof.
  intros Hh. unfold K8s.visit_ingress. destruct (is_traefik_ingress str ingress); [|done].
  destruct (spec_rules ingress) as [rules|]; [|done].
  apply (foldl_preserves _ (λ m : gmap string string, is_Some (m !! h))); [|done].
  intros m host _ Hm. unfold visit_rule. destruct host as [host|]; [|done].
  case_bool_decide; [|done]. destruct (decide (h = host)) as [->|Hne].
  - rewrite lookup_insert_eq. eauto.
  - by rewrite lookup_insert_ne.
Qed.

Lemma visit_service_adds acc s ip :
  has_address s ip → is_traefik s = false →
  is_Some ((visit_service acc s).1 !! hostname_of s).
Proof.
  intros (Htype & Hne & addresses & Haddr & Hin) Hnot. unfold K8s.visit_service.
  rewrite bool_decide_eq_true_2 by done. rewrite Haddr.
  apply list_elem_of_split in Hin as (before & after & ->).
  rewrite foldl_app. cbn [foldl].
  apply (foldl_preserves _ (λ a : scan, is_Some (a.1 !! hostname_of s))).
  - intros a ip' _. apply visit_address_keeps.
  - unfold K8s.visit_address at 1. rewrite bool_decide_eq_true_2 by done. rewrite Hnot.
    cbn [fst]. rewrite lookup_insert_eq. eauto.
Qed.

(** X25.  Every service of type LoadBalancer that is not Traefik and has a
    non-empty address gets an entry: whenever the discovery returns, its
    result maps the service's host name (the [dns.sync/hostname]
    annotation when it is a non-empty string, otherwise
    [name.namespace.svc.cluster.local]) to an address.  A failure of the
    ingress query that is an [ApiException] does not take the entry
    away. *)
Theorem every_load_balancer_service_gets_an_entry service_list ingresses s ip dns :
  s ∈ service_list → has_address s ip → is_traefik s = false →
  discover (Items service_list) ingresses = Found dns →
  is_Some (dns !! hostname_of s) ∧
  (metadata_annotations s = None →
   hostname_of s =
     metadata_name s +:+ "." +:+ metadata_namespace s +:+ ".svc.cluster.local") ∧
  (∀ annotations hostname,
     metadata_annotations s = Some annotations →
     annotations !! "dns.sync/hostname" = Some hostname → hostname ≠ "" →
     hostname_of s = hostname).
Proof.
  intros Hs Hhas Hnot Hfound. split; [|split].
  - assert (is_Some ((foldl visit_service (∅, None) service_list).1 !! hostname_of s))
      as Hfirst.
    { apply list_elem_of_split in Hs as (before & after & ->).
      rewrite foldl_app. cbn [foldl].
      apply (foldl_preserves _ (λ a : scan, is_Some (a.1 !! hostname_of s))).
      - intros a s' _. apply visit_service_keeps.
      - by eapply visit_service_adds. }
    unfold K8s.get_all_dns_resources in Hfound.
    destruct (foldl visit_service (∅, None) service_list) as [first traefik_ip].
    cbn [fst] in Hfirst.
    destruct traefik_ip as [tip|]; [|by injection Hfound as <-].
    case_bool_decide; [|by injection Hfound as <-].
    destruct ingresses as [ingress_list| |]; [|by injection Hfound as <-|done].
    injection Hfound as <-.
    apply (foldl_preserves _ (λ m : gmap string string, is_Some (m !! hostname_of s)));
      [|done].
    intros m ingress _. apply visit_ingress_keeps.
  - intros Hnone. unfold hostname_of. rewrite Hnone. cbn [default].
    by rewrite lookup_empty.
  - intros annotations hostname Hsome Hlookup Hne. unfold hostname_of.
    rewrite Hsome. cbn [default from_option id]. rewrite Hlookup.
    by rewrite bool_decide_eq_true_2.
Qed.

(** *** The Traefik address and the hosts of ingress resources *)

Lemma first_pass_traefik service_list ip :
  (foldl visit_service (∅, None) service_list).2 = Some ip →
  ∃ s, s ∈ service_list ∧ has_address s ip ∧ is_traefik s = true.
Proof.
  apply (foldl_preserves visit_service
           (λ a : scan, a.2 = Some ip →
                        ∃ s, s ∈ service_list ∧ has_address s ip ∧ is_traefik s = true));
    [|done].
  intros a s Hs Ha. unfold K8s.visit_service. case_bool_decide as Htype; [|done].
  destruct (load_balancer_ingress s) as [addresses|] eqn:Haddr; [|done].
  apply (foldl_preserves (visit_address s)
           (λ a : scan, a.2 = Some ip →
                        ∃ s, s ∈ service_list ∧ has_address s ip ∧ is_traefik s = true));
    [|done].
  intros a' ip' Hip' Ha'. unfold K8s.visit_address. destruct ip' as [ip'|]; [|done].
  case_bool_decide as Hne; [|done].
  destruct (is_traefik s) eqn:Htraefik; [|done]. cbn [snd]. intros [= ->].
  exists s. split; [done|]. split; [|done].
  split; [done|]. split; [done|]. eauto.
Qed.

Lemma visit_ingress_writes tip dns ingress h :
  has_host str ingress h → visit_ingress tip dns ingress !! h = Some tip.
Proof.
  intros (Htraefik & Hne & rules & Hrules & Hin). unfold K8s.visit_ingress.
  rewrite Htraefik, Hrules.
  apply list_elem_of_split in Hin as (before & after & ->).
  rewrite foldl_app. cbn [foldl].
  apply (foldl_preserves _ (λ m : gmap string string, m !! h = Some tip)).
  - intros m host _ Hm. unfold visit_rule. destruct host as [host|]; [|done].
    case_bool_decide; [|done]. destruct (decide (h = host)) as [->|Hh].
    + by rewrite lookup_insert_eq.
    + by rewrite lookup_insert_ne.
  - unfold visit_rule at 1. rewrite bool_decide_eq_true_2 by done.
    by rewrite lookup_insert_eq.
Qed.

Lemma visit_ingress_stays tip dns ingress h :
  dns !! h = Some tip → visit_ingress tip dns ingress !! h = Some tip.
Proof.
  intros Hh. unfold K8s.visit_ingress. destruct (is_traefik_ingress str ingress); [|done].
  destruct (spec_rules ingress) as [rules|]; [|done].
  apply (foldl_preserves _ (λ m : gmap string string, m !! h = Some tip)); [|done].
  intros m host _ Hm. unfold visit_rule. destruct host as [host|]; [|done].
  case_bool_decide; [|done]. destruct (decide (h = host)) as [->|Hne].
  - by rewrite lookup_insert_eq.
  - by rewrite lookup_insert_ne.
Qed.

(** X26.  When the first pass found a Traefik address, every non-empty host
    of a rule of a Traefik ingress resource is mapped to that address, also
    when a service had claimed the same host name; the address is a
    non-empty address of a LoadBalancer service recognised as Traefik. *)
Theorem ingress_hosts_get_the_traefik_address service_list ingress_list tip ingress h :
  traefik_address lower str service_list = Some tip →
  ingress ∈ ingress_list → has_host str ingress h →
  (∃ dns, discover (Items service_list) (Items ingress_list) = Found dns ∧
          dns !! h = Some tip) ∧
  observe (Items service_list) (Items ingress_list) !! h = Some tip ∧
  ∃ s, s ∈ service_list ∧ has_address s tip ∧ is_traefik s = true.
Proof.
  unfold traefik_address. intros Htip Hin Hhost.
  destruct (first_pass_traefik service_list tip Htip) as (s & Hs & Hhas & Htraefik).
  assert (tip ≠ "") as Hne by (by destruct Hhas as (_ & ? & _)).
  assert (discover (Items service_list) (Items ingress_list) =
          Found (foldl (visit_ingress tip)
                   (foldl visit_service (∅, None) service_list).1 ingress_list)) as Hrun.
  { unfold K8s.get_all_dns_resources.
    destruct (foldl visit_service (∅, None) service_list) as [first traefik_ip].
    cbn [snd] in Htip. subst traefik_ip. by rewrite bool_decide_eq_true_2. }
  assert (foldl (visit_ingress tip) (foldl visit_service (∅, None) service_list).1
            ingress_list !! h = Some tip) as Hlookup.
  { apply list_elem_of_split in Hin as (before & after & ->).
    rewrite foldl_app. cbn [foldl].
    apply (foldl_preserves _ (λ m : gmap string string, m !! h = Some tip)).
    - intros m i _. apply visit_ingress_stays.
    - by apply visit_ingress_writes. }
  split; [by eauto|]. split; [|by eauto].
  unfold K8s.get_dns_resources. by rewrite Hrun.
Qed.

(** X27.  What failures do to the discovery.  When the service query
    fails, the observer reports nothing.  When no Traefik address was
    found, the ingress query is not consulted: the result is that of the
    first pass whatever the ingress query would answer.  When a Traefik
    address was found and the ingress query raises [ApiException], the
    entries of the services are still reported; when it raises anything
    else, the observer reports nothing at all. *)
Theorem discovery_under_failures service_list ingresses :
  let first := (foldl visit_service (∅, None) service_list).1 in
  observe ApiException ingresses = ∅ ∧
  observe OtherException ingresses = ∅ ∧
  (traefik_address lower str service_list = None →
   discover (Items service_list) ingresses = Found first) ∧
  (∀ tip, traefik_address lower str service_list = Some tip →
     observe (Items service_list) ApiException = first ∧
     observe (Items service_list) OtherException = ∅).
Proof.
  intros first. subst first. unfold traefik_address.
  split; [done|]. split; [done|]. split.
  - intros Hnone. unfold K8s.get_all_dns_resources.
    destruct (foldl visit_service (∅, None) service_list) as [first traefik_ip].
    cbn [snd] in Hnone. by subst traefik_ip.
  - intros tip Htip.
    destruct (first_pass_traefik service_list tip Htip) as (s & _ & (_ & Hne & _) & _).
    unfold K8s.get_dns_resources, K8s.get_all_dns_resources.
    destruct (foldl visit_service (∅, None) service_list) as [first traefik_ip].
    cbn [snd] in Htip. subst traefik_ip. by rewrite bool_decide_eq_true_2.
Qed.

End Facts.

Lemma discovered_answers_are_load_balancer_addresses_witness :
  K8s.get_dns_resources Cluster.lower Cluster.str
    (Items [Cluster.traefik; Cluster.web]) (Items [Cluster.app_ingress])
    !! "app.example.com" = Some "192.168.1.240" ∧
  ∃ service_list s,
    Items [Cluster.traefik; Cluster.web] = Items service_list ∧ s ∈ service_list ∧
    has_address s "192.168.1.240".
Proof.
  assert (K8s.get_dns_resources Cluster.lower Cluster.str
            (Items [Cluster.traefik; Cluster.web]) (Items [Cluster.app_ingress])
            !! "app.example.com" = Some "192.168.1.240") as Hlookup by (by vm_compute).
  split; [done|].
  apply (discovered_answers_are_load_balancer_addresses Cluster.lower Cluster.str
           _ _ _ _ Hlookup).
Defined.

Lemma every_load_balancer_service_gets_an_entry_witness :
  Cluster.web ∈ [Cluster.traefik; Cluster.web] ∧
  has_address Cluster.web "192.168.1.241" ∧
  is_traefik_service Cluster.lower Cluster.str Cluster.web = false ∧
  is_Some (K8s.get_dns_resources Cluster.lower Cluster.str
             (Items [Cluster.traefik; Cluster.web]) ApiException
             !! "web.default.svc.cluster.local").
Proof.
  assert (Cluster.web ∈ [Cluster.traefik; Cluster.web]) as H1
    by (apply list_elem_of_further, list_elem_of_here).
  assert (has_address Cluster.web "192.168.1.241") as H2.
  { split; [done|]. split; [done|]. eexists. split; [done|].
    apply list_elem_of_further, list_elem_of_here. }
  assert (is_traefik_service Cluster.lower Cluster.str Cluster.web = false) as H3
    by (by vm_compute).
  split; [done|]. split; [done|]. split; [done|].
  destruct (every_load_balancer_service_gets_an_entry Cluster.lower Cluster.str
              [Cluster.traefik; Cluster.web] ApiException Cluster.web "192.168.1.241"
              (K8s.get_dns_resources Cluster.lower Cluster.str
                 (Items [Cluster.traefik; Cluster.web]) ApiException)
              H1 H2 H3 ltac:(by vm_compute)) as (Hentry & _).
  exact Hentry.
Defined.

Lemma ingress_hosts_get_the_traefik_address_witness :
  traefik_address Cluster.lower Cluster.str [Cluster.traefik; Cluster.web] =
    Some "192.168.1.240" ∧
  Cluster.app_ingress ∈ [Cluster.app_ingress] ∧
  has_host Cluster.str Cluster.app_ingress "app.example.com" ∧
  K8s.get_dns_resources Cluster.lower Cluster.str
    (Items [Cluster.traefik; Cluster.web]) (Items [Cluster.app_ingress])
    !! "app.example.com" = Some "192.168.1.240".
Proof.
  assert (traefik_address Cluster.lower Cluster.str [Cluster.traefik; Cluster.web] =
            Some "192.168.1.240") as H1 by (by vm_compute).
  assert (Cluster.app_ingress ∈ [Cluster.app_ingress]) as H2 by apply list_elem_of_here.
  assert (has_host Cluster.str Cluster.app_ingress "app.example.com") as H3.
  { split; [by vm_compute|]. split; [done|]. eexists. split; [done|].
    apply list_elem_of_here. }
  split; [done|]. split; [done|]. split; [done|].
  by destruct (ingress_hosts_get_the_traefik_address Cluster.lower Cluster.str
                 [Cluster.traefik; Cluster.web] [Cluster.app_ingress] "192.168.1.240"
                 Cluster.app_ingress "app.example.com" H1 H2 H3) as (_ & Hlookup & _).
Defined.

End DiscoveryProofs.

(** * Properties of the health checker *)
Module HealthProofs.
Import Health.

Section Facts.

Context {World : Type}.
Variable status_get : World → probe_result * World.
Variable list_namespace : World → bool * World.
Variable datetime_now : World → Z * World.

Local Abbreviation check := (check_connectivity status_get list_namespace datetime_now).
Local Abbreviation overall := (is_healthy status_get list_namespace datetime_now).
Local Abbreviation report := (get_health_status status_get list_namespace datetime_now).
Local Abbreviation probe_of := (_check_health status_get list_namespace).

(** What a probe does to the checker. *)
Lemma check_health_run c self w :
  probes (probe_of c self w) = [Probe c] ∧
  checker (probe_of c self w) =
    set_failures self c (if value (probe_of c self w) then 0
                         else _consecutive_failures self c + 1).
Proof.
  destruct c; unfold _check_health, _check_adguard_health, _check_k8s_health.
  - destruct (status_get w).1 as [code|]; [case_bool_decide|]; done.
  - destruct (list_namespace w).1; done.
Qed.

(** One check of a component: the value returned is the flag the cache
    holds afterwards; the other component is left as it was; the settings
    are left as they were. *)
Lemma check_run c self w :
  let r := check c self w in
  value r = healthy (_health_cache (checker r) c) ∧
  (∀ c', c' ≠ c → _health_cache (checker r) c' = _health_cache self c' ∧
                   _consecutive_failures (checker r) c' = _consecutive_failures self c') ∧
  cache_duration (checker r) = cache_duration self ∧
  max_consecutive_failures (checker r) = max_consecutive_failures self ∧
  (probes r = [] ∨ probes r = [Probe c]) ∧
  (coherent self → coherent (checker r)).
Proof.
  intros r. subst r. unfold check_connectivity.
  destruct (value (_is_cache_valid datetime_now c self w)) eqn:Hvalid; cbn [value checker probes].
  { split; [done|]. split; [done|]. split; [done|]. split; [done|]. split; [by left|done]. }
  destruct (check_health_run c self (world (_is_cache_valid datetime_now c self w)))
    as [Hp Hc].
  set (checked := probe_of c self (world (_is_cache_valid datetime_now c self w))) in *.
  unfold _update_health_cache. cbn [value checker probes world]. rewrite Hc.
  unfold set_cache, set_failures.
  cbn [_health_cache _consecutive_failures cache_duration max_consecutive_failures].
  split; [by rewrite decide_True|]. split; [|split; [done|split; [done|split]]].
  - intros c' Hne. by rewrite !decide_False.
  - by right.
  - intros Hcoh c'. cbn [_health_cache _consecutive_failures].
    destruct (decide (c' = c)) as [->|Hne]; cbn [healthy error].
    + split; [|done]. by intros ->.
    + apply Hcoh.
Qed.

(** The verdict of [is_healthy] in terms of the two checks. *)
Lemma is_healthy_run self w :
  coherent self → 1 ≤ max_consecutive_failures self →
  let a := check adguard self w in
  let k := check k8s (checker a) (world a) in
  overall self w = mkRun (value a && value k) (checker k) (world k) (probes a ++ probes k) ∧
  value a = healthy (_health_cache (checker k) adguard) ∧
  value k = healthy (_health_cache (checker k) k8s) ∧
  coherent (checker k) ∧
  max_consecutive_failures (checker k) = max_consecutive_failures self ∧
  cache_duration (checker k) = cache_duration self.
Proof.
  intros Hcoh Hmax a k.
  destruct (check_run adguard self w) as (Ha & _ & Hda & Hma & _ & Hca).
  destruct (check_run k8s (checker a) (world a)) as (Hk & Hother & Hdk & Hmk & _ & Hck).
  fold a in Ha, Hda, Hma, Hca, Hk, Hother, Hdk, Hmk, Hck. fold k in Hk, Hother, Hdk, Hmk, Hck.
  destruct (Hother adguard ltac:(done)) as [Hcache _].
  assert (value a = healthy (_health_cache (checker k) adguard)) as Ha'
    by (by rewrite Hcache).
  assert (coherent (checker k)) as Hcoh' by (by apply Hck, Hca).
  split; [|split; [done|split; [done|split; [done|split; [congruence|congruence]]]]].
  unfold is_healthy, check_adguard_connectivity, check_k8s_connectivity.
  fold a. fold k. f_equal.
  destruct (value a && value k) eqn:Hboth; [|by destruct (_ || _)].
  apply andb_true_iff in Hboth as [Hta Htk].
  destruct (Hcoh' adguard) as [Hfa _]. destruct (Hcoh' k8s) as [Hfk _].
  rewrite Hfa, Hfk by congruence.
  assert ((max_consecutive_failures (checker k) <=? 0) = false) as ->; [|done].
  apply Nat.leb_gt. lia.
Qed.

(** X28.  The consecutive-failure counters never change the verdict of
    [is_healthy]: starting from a checker as [__init__] builds it or as its
    own methods leave it, the verdict is the conjunction of the two flags
    the cache holds after the call, because a component is cached as
    healthy only when its counter is zero. *)
Theorem failure_counters_never_change_the_verdict self w :
  coherent self → 1 ≤ max_consecutive_failures self →
  let r := overall self w in
  value r =
    healthy (_health_cache (checker r) adguard) && healthy (_health_cache (checker r) k8s) ∧
  (∀ c, healthy (_health_cache (checker r) c) = true →
        _consecutive_failures (checker r) c = 0) ∧
  coherent (checker r).
Proof.
  intros Hcoh Hmax r. subst r.
  destruct (is_healthy_run self w Hcoh Hmax) as (-> & Ha & Hk & Hcoh' & _).
  cbn [value checker]. split; [by rewrite Ha, Hk|]. split; [|done].
  intros c. apply Hcoh'.
Qed.

(** [get_health_status] in terms of its two checks and of the call of
    [is_healthy] that follows them. *)
Lemma report_run self w :
  let a := check adguard self w in
  let k := check k8s (checker a) (world a) in
  let o := overall (checker k) (world k) in
  report self w =
    mkRun
      (mkStatus (if value o then "healthy" else "unhealthy")
         (datetime_now (world o)).1 (value a) (value k)
         (last_check (_health_cache (checker o) adguard))
         (last_check (_health_cache (checker o) k8s))
         (error (_health_cache (checker o) adguard))
         (error (_health_cache (checker o) k8s))
         (_consecutive_failures (checker o)))
      (checker o) (datetime_now (world o)).2 (probes a ++ probes k ++ probes o).
Proof. reflexivity. Qed.

Lemma check_coherent c self w : coherent self → coherent (checker (check c self w)).
Proof. intros H. by apply (check_run c self w). Qed.

Lemma overall_coherent self w :
  coherent self → 1 ≤ max_consecutive_failures self → coherent (checker (overall self w)).
Proof.
  intros Hcoh Hmax.
  destruct (is_healthy_run self w Hcoh Hmax) as (Hrun & _ & _ & Hcoh' & _).
  rewrite Hrun. exact Hcoh'.
Qed.

Lemma force_refresh_coherent self : coherent self → coherent (force_refresh self).
Proof.
  intros Hcoh c. unfold force_refresh, set_cache. cbn [_health_cache _consecutive_failures].
  destruct (Hcoh adguard) as [Ha1 Ha2]. destruct (Hcoh k8s) as [Hk1 Hk2].
  destruct c; cbn [decide_rel healthy error]; split; assumption.
Qed.

Lemma report_coherent self w :
  coherent self → 1 ≤ max_consecutive_failures self →
  coherent (checker (report self w)) ∧
  adguard_error (value (report self w)) = None ∧
  k8s_error (value (report self w)) = None.
Proof.
  intros Hcoh Hmax.
  pose proof (report_run self w) as Hrun. cbn zeta in Hrun.
  destruct (check_run adguard self w) as (_ & _ & _ & Hma & _ & Hca).
  remember (check adguard self w) as a eqn:Ea.
  destruct (check_run k8s (checker a) (world a)) as (_ & _ & _ & Hmk & _ & Hck).
  remember (check k8s (checker a) (world a)) as k eqn:Ek.
  assert (coherent (checker k)) as Hk by (apply Hck, Hca, Hcoh).
  assert (1 ≤ max_consecutive_failures (checker k)) as Hmax' by (rewrite Hmk, Hma; exact Hmax).
  pose proof (overall_coherent (checker k) (world k) Hk Hmax') as Hco.
  remember (overall (checker k) (world k)) as o eqn:Eo.
  rewrite Hrun. cbn [value checker adguard_error k8s_error].
  split; [exact Hco|]. split.
  - exact (proj2 (Hco adguard)).
  - exact (proj2 (Hco k8s)).
Qed.

(** X29.  No error text is ever recorded: the cache is updated without an
    error argument, so the entries of a checker built by [__init__] hold no
    error, every method leaves it so, and [get_health_status] reports
    [None] for both errors whatever the probes did.  The same methods keep
    a component that is cached as healthy at zero consecutive failures. *)
Theorem health_errors_are_never_recorded duration limit timeout :
  coherent (__init__ duration limit timeout) ∧
  ∀ self w, coherent self → 1 ≤ max_consecutive_failures self →
    (∀ c, coherent (checker (check c self w))) ∧
    coherent (checker (overall self w)) ∧
    coherent (checker (report self w)) ∧
    coherent (force_refresh self) ∧
    adguard_error (value (report self w)) = None ∧
    k8s_error (value (report self w)) = None.
Proof.
  split.
  { intros c. cbn. by split. }
  intros self w Hcoh Hmax.
  destruct (report_coherent self w Hcoh Hmax) as (Hreport & Herr1 & Herr2).
  split; [intros c; by apply check_coherent|].
  split; [by apply overall_coherent|].
  split; [exact Hreport|].
  split; [by apply force_refresh_coherent|].
  split; [exact Herr1|exact Herr2].
Qed.

(** *** Within one reading of the clock *)

Section Frozen.

Variable t : Z.
Hypothesis frozen : ∀ w, (datetime_now w).1 = t.

Lemma valid_iff c self w :
  value (_is_cache_valid datetime_now c self w) = true ↔
  ∃ last, last_check (_health_cache self c) = Some last ∧
          (t - last < cache_duration self * 1000000)%Z.
Proof.
  unfold _is_cache_valid. destruct (last_check (_health_cache self c)) as [last|].
  - cbn [value]. rewrite frozen, bool_decide_eq_true. split; [by eauto|].
    by intros (last' & [= <-] & ?).
  - cbn [value]. split; [done|]. by intros (? & ? & _).
Qed.

(** A check that finds the cache valid returns the cached flag and probes
    nothing. *)
Lemma check_valid c self w :
  value (_is_cache_valid datetime_now c self w) = true →
  value (check c self w) = healthy (_health_cache self c) ∧
  checker (check c self w) = self ∧ probes (check c self w) = [].
Proof. intros Hvalid. unfold check_connectivity. by rewrite Hvalid. Qed.

(** After a check of a component its cache entry is valid. *)
Lemma valid_after_check c self w w' :
  (0 < cache_duration self)%Z →
  value (_is_cache_valid datetime_now c (checker (check c self w)) w') = true.
Proof.
  intros Hpos. apply valid_iff.
  destruct (value (_is_cache_valid datetime_now c self w)) eqn:Hvalid.
  - destruct (check_valid c self w Hvalid) as (_ & -> & _). by apply valid_iff in Hvalid.
  - unfold check_connectivity. rewrite Hvalid.
    destruct (check_health_run c self (world (_is_cache_valid datetime_now c self w)))
      as [_ Hc].
    unfold _update_health_cache. cbn [checker]. rewrite Hc.
    unfold set_cache, set_failures. cbn [_health_cache cache_duration].
    rewrite decide_True by done. cbn [last_check]. rewrite frozen.
    exists t. split; [done|]. lia.
Qed.

(** What a report says when the call of [is_healthy] inside it probed
    nothing and agreed with the two checks before it. *)
Lemma report_shape (a k o : run World bool) (r : run World health_status)
    (now : Z) (w4 : World) :
  r = mkRun
        (mkStatus (if value o then "healthy" else "unhealthy") now (value a) (value k)
           (last_check (_health_cache (checker o) adguard))
           (last_check (_health_cache (checker o) k8s))
           (error (_health_cache (checker o) adguard))
           (error (_health_cache (checker o) k8s))
           (_consecutive_failures (checker o)))
        (checker o) w4 (probes a ++ probes k ++ probes o) →
  value o = value a && value k → probes o = [] →
  (probes a = [] ∨ probes a = [Probe adguard]) →
  (probes k = [] ∨ probes k = [Probe k8s]) →
  (∀ c, length (filter (λ e, e = Probe c) (probes r)) ≤ 1) ∧
  (status (value r) = "healthy" ↔
   adguard_healthy (value r) = true ∧ k8s_healthy (value r) = true) ∧
  (if bool_decide (status (value r) = "healthy") then 200 else 503)%Z =
    (if adguard_healthy (value r) && k8s_healthy (value r) then 200 else 503)%Z.
Proof.
  intros -> Hvo Hpo Hpa Hpk.
  cbn [value status adguard_healthy k8s_healthy probes].
  rewrite Hvo, Hpo, app_nil_r. split; [|split].
  - intros c. destruct Hpa as [-> | ->], Hpk as [-> | ->], c; vm_compute; lia.
  - destruct (value a), (value k); cbn; split; try done; by intros [? ?].
  - by destruct (value a), (value k).
Qed.

(** X30.  While the clock shows one reading, [get_health_status] probes
    each component at most once, although it runs the two checks and then
    [is_healthy], which runs them again: the second round is answered from
    the cache.  Its [status] is then "healthy" exactly when both flags it
    reports are true, and the handler answers 200 in that case and 503
    otherwise; a path other than [/health] gets 404 without any probe. *)
Theorem health_report_probes_each_component_once self w :
  (0 < cache_duration self)%Z →
  coherent self → 1 ≤ max_consecutive_failures self →
  (∀ c, length (filter (λ e, e = Probe c) (probes (report self w))) ≤ 1) ∧
  (status (value (report self w)) = "healthy" ↔
   adguard_healthy (value (report self w)) = true ∧
   k8s_healthy (value (report self w)) = true) ∧
  value (do_GET status_get list_namespace datetime_now "/health" self w) =
    (if adguard_healthy (value (report self w)) && k8s_healthy (value (report self w))
     then 200 else 503)%Z ∧
  (∀ path, path ≠ "/health" →
     do_GET status_get list_namespace datetime_now path self w = mkRun 404%Z self w []).
Proof.
  intros Hpos Hcoh Hmax.
  pose proof (report_run self w) as Hrun. cbn zeta in Hrun.
  destruct (check_run adguard self w) as (Ha & _ & Hda & Hma & Hpa & Hca).
  remember (check adguard self w) as a eqn:Ea.
  destruct (check_run k8s (checker a) (world a)) as (Hk & Hother & Hdk & Hmk & Hpk & Hck).
  remember (check k8s (checker a) (world a)) as k eqn:Ek.
  destruct (Hother adguard ltac:(done)) as [Hcache _].
  assert (coherent (checker k)) as Hcoh' by (apply Hck, Hca, Hcoh).
  assert (1 ≤ max_consecutive_failures (checker k)) as Hmax' by (rewrite Hmk, Hma; exact Hmax).
  destruct (is_healthy_run (checker k) (world k) Hcoh' Hmax') as (Ho & _).
  remember (overall (checker k) (world k)) as o eqn:Eo.
  (* the second round finds both entries valid *)
  assert (value (_is_cache_valid datetime_now adguard (checker k) (world k)) = true) as Hva.
  { apply valid_iff. rewrite Hcache, Hdk.
    apply (valid_iff adguard (checker a) (world k)).
    rewrite Ea. apply (valid_after_check adguard self w (world k) Hpos). }
  destruct (check_valid adguard (checker k) (world k) Hva) as (Hva1 & Hva2 & Hva3).
  remember (check adguard (checker k) (world k)) as a' eqn:Ea'.
  assert (value (_is_cache_valid datetime_now k8s (checker a') (world a')) = true) as Hvk.
  { rewrite Hva2, Ek. apply (valid_after_check k8s (checker a) (world a) (world a')).
    by rewrite Hda. }
  destruct (check_valid k8s (checker a') (world a') Hvk) as (Hvk1 & Hvk2 & Hvk3).
  remember (check k8s (checker a') (world a')) as k' eqn:Ek'.
  assert (value a' = value a) as Haa by (by rewrite Hva1, Hcache, <- Ha).
  assert (value k' = value k) as Hkk by (by rewrite Hvk1, Hva2, <- Hk).
  assert (value o = value a && value k) as Hvo
    by (by rewrite Ho; cbn [value]; rewrite Haa, Hkk).
  assert (probes o = []) as Hpo by (by rewrite Ho; cbn [probes]; rewrite Hva3, Hvk3).
  destruct (report_shape a k o (report self w) _ _ Hrun Hvo Hpo Hpa Hpk)
    as (Hcount & Hstatus & Hcode).
  split; [exact Hcount|]. split; [exact Hstatus|]. split.
  - unfold do_GET. rewrite bool_decide_eq_true_2 by done. cbn [value]. exact Hcode.
  - intros path Hpath. unfold do_GET. by rewrite bool_decide_eq_false_2.
Qed.

End Frozen.

End Facts.

(** A provider that answers 200, a cluster that answers, and a clock that
    shows one reading: the checker built with the default settings reports
    healthy after one probe of each. *)
Lemma failure_counters_never_change_the_verdict_witness :
  coherent (__init__ 30 3 10) ∧
  1 ≤ max_consecutive_failures (__init__ 30 3 10) ∧
  value (is_healthy (λ w : unit, (Answered 200, w)) (λ w, (true, w)) (λ w, (0%Z, w))
           (__init__ 30 3 10) tt) = true.
Proof.
  assert (coherent (__init__ 30 3 10)) as H1 by (intros c; by split).
  assert (1 ≤ max_consecutive_failures (__init__ 30 3 10)) as H2 by (cbn; lia).
  split; [done|]. split; [done|].
  destruct (failure_counters_never_change_the_verdict
              (λ w : unit, (Answered 200, w)) (λ w, (true, w)) (λ w, (0%Z, w))
              (__init__ 30 3 10) tt H1 H2) as (Hverdict & _).
  rewrite Hverdict. by vm_compute.
Defined.

Lemma health_errors_are_never_recorded_witness :
  coherent (__init__ 30 3 10) ∧
  1 ≤ max_consecutive_failures (__init__ 30 3 10) ∧
  adguard_error
    (value (get_health_status (λ w : unit, (Failed, w)) (λ w, (false, w)) (λ w, (0%Z, w))
              (__init__ 30 3 10) tt)) = None.
Proof.
  destruct (health_errors_are_never_recorded
              (λ w : unit, (Failed, w)) (λ w, (false, w)) (λ w, (0%Z, w)) 30 3 10)
    as (H1 & Hall).
  assert (1 ≤ max_consecutive_failures (__init__ 30 3 10)) as H2 by (cbn; lia).
  split; [done|]. split; [done|].
  by destruct (Hall (__init__ 30 3 10) tt H1 H2) as (_ & _ & _ & _ & Herror & _).
Defined.

Lemma health_report_probes_each_component_once_witness :
  (∀ w : unit, ((λ w, (0%Z, w)) w : Z * unit).1 = 0%Z) ∧
  (0 < cache_duration (__init__ 30 3 10))%Z ∧
  coherent (__init__ 30 3 10) ∧
  1 ≤ max_consecutive_failures (__init__ 30 3 10) ∧
  value (do_GET (λ w : unit, (Answered 200, w)) (λ w, (true, w)) (λ w, (0%Z, w))
           "/health" (__init__ 30 3 10) tt) = 200%Z.
Proof.
  assert (coherent (__init__ 30 3 10)) as H1 by (intros c; by split).
  assert (1 ≤ max_consecutive_failures (__init__ 30 3 10)) as H2 by (cbn; lia).
  assert (0 < cache_duration (__init__ 30 3 10))%Z as H3 by (cbn; lia).
  split; [done|]. split; [done|]. split; [done|]. split; [done|].
  destruct (health_report_probes_each_component_once
              (λ w : unit, (Answered 200, w)) (λ w, (true, w)) (λ w, (0%Z, w))
              0%Z (λ _, eq_refl) (__init__ 30 3 10) tt H3 H1 H2) as (_ & _ & Hcode & _).
  rewrite Hcode. by vm_compute.
Defined.

End HealthProofs.
